(** * News aggregation pipeline of the EV portal backend

    A shallow embedding of the news part of [backend/server.py]
    (feed fetching, text normalisation, categorisation, merge and
    de-duplication, the one-slot cache and the [GET /news] handler),
    with the properties of the specification stated and proved over it.

    Python strings are sequences of Unicode code points, so a string is
    a list of code points here: slicing and [len] count code points, and
    string comparison is lexicographic on them. *)

From Stdlib Require Import NArith ZArith QArith String Ascii Lia.
From stdpp Require Import base list sorting gmap.

Local Open Scope N_scope.

(** ** Strings *)

Definition char := N.
Definition str := list N.

(** An ASCII literal of the source as a Python string. *)
Definition s2u (s : string) : str :=
  map N_of_ascii (list_ascii_of_string s).

Definition LT : char := 60.
Definition GT : char := 62.
Definition AMP : char := 38.
Definition SPACE : char := 32.

(** [Py_UNICODE_ISSPACE]: the characters matched by [\s] in a [str]
    pattern, and the ones removed by [str.strip()]. *)
Definition is_space (c : char) : bool :=
  ((9 <=? c) && (c <=? 13)) || ((28 <=? c) && (c <=? 32))
  || (c =? 133) || (c =? 160) || (c =? 5760)
  || ((8192 <=? c) && (c <=? 8202))
  || (c =? 8232) || (c =? 8233) || (c =? 8239) || (c =? 8287)
  || (c =? 12288).

Definition is_ascii (c : char) : bool := c <? 128.

Definition ascii_lower (c : char) : char :=
  if (65 <=? c) && (c <=? 90) then c + 32 else c.

(** [needle in haystack] for Python strings. *)
Fixpoint starts_with (p s : str) : bool :=
  match p, s with
  | [], _ => true
  | _ :: _, [] => false
  | a :: p', b :: s' => (a =? b) && starts_with p' s'
  end.

Fixpoint str_in (needle hay : str) : bool :=
  starts_with needle hay ||
  match hay with
  | [] => false
  | _ :: hay' => str_in needle hay'
  end.

(** Comparison of Python strings: lexicographic on code points. *)
Fixpoint str_leb (a b : str) : bool :=
  match a, b with
  | [], _ => true
  | _ :: _, [] => false
  | x :: a', y :: b' => (x <? y) || ((x =? y) && str_leb a' b')
  end.

Definition str_le (a b : str) : Prop := str_leb a b = true.
Definition str_lt (a b : str) : Prop := str_leb b a = false.

(** ** The parts of the Python runtime the server relies on

    [html.unescape] looks names up in [html.entities.html5], a table of
    more than two thousand names, and converts numbers with [int], which
    refuses a decimal string that is longer than
    [sys.get_int_max_str_digits()]; [str.lower] follows the Unicode case
    tables outside ASCII, and [feedparser.parse] is a third-party parser.
    They are not code of this repository: the development is parametric
    in the table, the limit, the case tables and the parser, and
    everything proved holds for any of them. *)

Inductive exn :=
  | TransportError      (* httpx: connection failure, timeout, ... *)
  | ParseError          (* raised by feedparser.parse *)
  | ValueError          (* datetime(...) with a field out of range,
                           int(...) on too long a string of digits *)
  | UnicodeEncodeError. (* str.encode() on a lone surrogate *)

(** [time.struct_time]: the six fields the code reads with [[:6]]. *)
Record struct_time := {
  tm_year : Z; tm_mon : Z; tm_mday : Z;
  tm_hour : Z; tm_min : Z; tm_sec : Z
}.

(** One element of [entry.media_content] and of [entry.enclosures]:
    dictionaries read with [.get]. *)
Record media := { media_url : option str }.
Record enclosure := { enc_type : option str; enc_href : option str }.

(** A feed entry as the fetcher reads it. A field is [None] when
    [hasattr] is false for it (for the two [_parsed] fields also when
    its value is [None]); [entry_title] and [entry_link] are read with
    [entry.get]. *)
Record entry := {
  published_parsed : option struct_time;
  updated_parsed : option struct_time;
  entry_summary : option str;
  entry_description : option str;
  media_content : list media;
  enclosures : list enclosure;
  entry_title : option str;
  entry_link : option str
}.

Record PyRuntime := {
  (* [html.entities.html5]: the replacement text of a name; most names
     end in [;], some are listed without it as well *)
  html5 : str -> option str;
  (* [sys.get_int_max_str_digits()]: 4300 unless configured otherwise,
     0 for no limit, never between 1 and 639 *)
  int_max_str_digits : nat;
  (* [str.lower] on a string that is not pure ASCII *)
  unicode_lower : str -> str;
  (* [feedparser.parse(text).entries], or the exception it raises *)
  feedparser_parse : str -> exn + list entry
}.

(** ** Text normalisation: [clean_html] *)

(** [re.sub(r'<[^>]+>', '', text)]. A match starts at a [<], runs over
    at least one character other than [>] and ends at the first [>]
    after it. The scan keeps in [pending] the characters read since a
    [<] that may still open a match ([None] outside of one). *)
Fixpoint strip_tags_from (pending : option str) (s : str) : str :=
  match s with
  | [] =>
      match pending with
      | None => []
      | Some buf => LT :: buf          (* no closing [>]: not a match *)
      end
  | c :: s' =>
      match pending with
      | None =>
          if c =? LT then strip_tags_from (Some []) s'
          else c :: strip_tags_from None s'
      | Some buf =>
          if c =? GT then
            match buf with
            | [] => LT :: GT :: strip_tags_from None s'   (* [<>] *)
            | _ :: _ => strip_tags_from None s'           (* a tag *)
            end
          else strip_tags_from (Some (buf ++ [c])) s'
      end
  end.

Definition strip_tags (s : str) : str := strip_tags_from None s.

(** *** Character references: [html.unescape]

    The function of the standard library that [clean_html] calls, as
    [html/__init__.py] defines it: the pattern [_charref], the function
    [_replace_charref] and its two tables of numbers that are replaced
    or dropped. *)

Definition SEMI : char := 59.
Definition HASH : char := 35.
Definition REPLACEMENT : char := 65533.

Definition is_digit (c : char) : bool := (48 <=? c) && (c <=? 57).

Definition is_hex_digit (c : char) : bool :=
  is_digit c || ((65 <=? c) && (c <=? 70)) || ((97 <=? c) && (c <=? 102)).

(** The class [[^\t\n\f <&#;]] of the third alternative. *)
Definition is_name_char (c : char) : bool :=
  negb ((c =? 9) || (c =? 10) || (c =? 12) || (c =? SPACE) || (c =? LT)
        || (c =? AMP) || (c =? HASH) || (c =? SEMI)).

(** A greedy repetition of a class: the longest prefix of at most [n]
    characters of [s] that all belong to it. *)
Fixpoint span (p : char -> bool) (n : nat) (s : str) : str :=
  match n, s with
  | S n', c :: s' => if p c then c :: span p n' s' else []
  | _, _ => []
  end.

(** The [;?] that ends each alternative. *)
Definition opt_semicolon (rest : str) : str :=
  match rest with
  | c :: _ => if c =? SEMI then [SEMI] else []
  | [] => []
  end.

(** The three alternatives of [_charref], matched against the text [s]
    that follows an [&]: the text of the group, when there is a match.
    [#[0-9]+;?] *)
Definition match_decimal (s : str) : option str :=
  match s with
  | c :: s1 =>
      if c =? HASH then
        match span is_digit (length s1) s1 with
        | [] => None
        | ds => Some (HASH :: ds ++ opt_semicolon (drop (length ds) s1))
        end
      else None
  | [] => None
  end.

(** [#[xX][0-9a-fA-F]+;?] *)
Definition match_hex (s : str) : option str :=
  match s with
  | c :: x :: s2 =>
      if (c =? HASH) && ((x =? 120) || (x =? 88)) then
        match span is_hex_digit (length s2) s2 with
        | [] => None
        | hs => Some (HASH :: x :: hs ++ opt_semicolon (drop (length hs) s2))
        end
      else None
  | _ => None
  end.

(** [[^\t\n\f <&#;]{1,32};?] *)
Definition match_named (s : str) : option str :=
  match span is_name_char 32 s with
  | [] => None
  | name => Some (name ++ opt_semicolon (drop (length name) s))
  end.

(** The alternatives are tried in this order. *)
Definition charref_match (s : str) : option str :=
  match match_decimal s with
  | Some group => Some group
  | None =>
      match match_hex s with
      | Some group => Some group
      | None => match_named s
      end
  end.

(** [s.rstrip(';')]. *)
Fixpoint skip_semicolons (s : str) : str :=
  match s with
  | [] => []
  | c :: s' => if c =? SEMI then skip_semicolons s' else s
  end.

Definition rstrip_semicolons (s : str) : str := rev (skip_semicolons (rev s)).

Definition digit_value (c : char) : N :=
  if is_digit c then c - 48 else if 97 <=? c then c - 87 else c - 55.

(** The number that a string of digits denotes in a base. *)
Definition int_of (base : N) (digits : str) : N :=
  fold_left (fun n c => base * n + digit_value c) digits 0.

(** [int(digits)] in base 10. CPython counts the digits of a string of
    more than 640 and refuses it when there are more of them than the
    limit of the interpreter allows; base 16 has no limit. *)
Definition int_decimal (rt : PyRuntime) (digits : str) : exn + N :=
  let n := length digits in
  if (640 <? n)%nat && (0 <? int_max_str_digits rt)%nat
     && (int_max_str_digits rt <? n)%nat
  then inl ValueError
  else inr (int_of 10 digits).

(** [_invalid_charrefs]: each replacement is one character. *)
Definition invalid_charrefs : list (N * str) :=
  [ (0, [65533]); (13, [13]); (128, [8364]); (129, [129]);
    (130, [8218]); (131, [402]); (132, [8222]); (133, [8230]);
    (134, [8224]); (135, [8225]); (136, [710]); (137, [8240]);
    (138, [352]); (139, [8249]); (140, [338]); (141, [141]);
    (142, [381]); (143, [143]); (144, [144]); (145, [8216]);
    (146, [8217]); (147, [8220]); (148, [8221]); (149, [8226]);
    (150, [8211]); (151, [8212]); (152, [732]); (153, [8482]);
    (154, [353]); (155, [8250]); (156, [339]); (157, [157]);
    (158, [382]); (159, [376]) ].

(** [_invalid_codepoints]. *)
Definition invalid_codepoints : list N :=
  [ 1; 2; 3; 4; 5; 6; 7; 8; 11; 14; 15; 16; 17; 18; 19; 20; 21; 22;
    23; 24; 25; 26; 27; 28; 29; 30; 31; 127; 128; 129; 130; 131;
    132; 133; 134; 135; 136; 137; 138; 139; 140; 141; 142; 143; 144;
    145; 146; 147; 148; 149; 150; 151; 152; 153; 154; 155; 156; 157;
    158; 159; 64976; 64977; 64978; 64979; 64980; 64981; 64982;
    64983; 64984; 64985; 64986; 64987; 64988; 64989; 64990; 64991;
    64992; 64993; 64994; 64995; 64996; 64997; 64998; 64999; 65000;
    65001; 65002; 65003; 65004; 65005; 65006; 65007; 65534; 65535;
    131070; 131071; 196606; 196607; 262142; 262143; 327678; 327679;
    393214; 393215; 458750; 458751; 524286; 524287; 589822; 589823;
    655358; 655359; 720894; 720895; 786430; 786431; 851966; 851967;
    917502; 917503; 983038; 983039; 1048574; 1048575; 1114110;
    1114111 ].

Fixpoint table_get {V} (table : list (N * V)) (key : N) : option V :=
  match table with
  | [] => None
  | (k, v) :: table' => if k =? key then Some v else table_get table' key
  end.

(** The text that replaces the character reference of a number. *)
Definition numeric_replacement (num : N) : str :=
  match table_get invalid_charrefs num with
  | Some r => r
  | None =>
      if ((55296 <=? num) && (num <=? 57343)) || (1114111 <? num)
      then [REPLACEMENT]
      else if bool_decide (num ∈ invalid_codepoints) then []
      else [num]
  end.

(** The loop [for x in range(len(s)-1, 1, -1)] that looks for the
    longest prefix of [s] that is a name of the table; [x] is the
    length to try next. *)
Fixpoint longest_name (table : str -> option str) (s : str) (x : nat)
  : str :=
  match x with
  | S (S _ as x') =>
      match table (take x s) with
      | Some v => v ++ drop x s
      | None => longest_name table s x'
      end
  | _ => AMP :: s
  end.

Definition replace_named (table : str -> option str) (s : str) : str :=
  match table s with
  | Some v => v
  | None => longest_name table s (length s - 1)
  end.

(** [_replace_charref], on the text of the group. A group that starts
    with [#] holds at least one digit after it, or after its [x]. *)
Definition replace_charref (rt : PyRuntime) (s : str) : exn + str :=
  match s with
  | c :: s1 =>
      if c =? HASH then
        match s1 with
        | x :: s2 =>
            if (x =? 120) || (x =? 88) then
              inr (numeric_replacement (int_of 16 (rstrip_semicolons s2)))
            else
              match int_decimal rt (rstrip_semicolons s1) with
              | inl e => inl e
              | inr num => inr (numeric_replacement num)
              end
        | [] => inr []
        end
      else inr (replace_named (html5 rt) s)
  | [] => inr []
  end.

(** [_charref.sub(_replace_charref, s)]: the text is read from the
    left; at an [&] that starts a match the replacement is written
    and the characters of the group are passed over ([skip] counts
    those still to pass), every other character is copied. The first
    replacement that raises ends the call. *)
Fixpoint charref_sub_from (rt : PyRuntime) (skip : nat) (s : str)
  : exn + str :=
  match s with
  | [] => inr []
  | c :: s' =>
      match skip with
      | S k => charref_sub_from rt k s'
      | O =>
          match (if c =? AMP then charref_match s' else None) with
          | Some group =>
              match replace_charref rt group with
              | inl e => inl e
              | inr text =>
                  match charref_sub_from rt (length group) s' with
                  | inl e => inl e
                  | inr rest => inr (text ++ rest)
                  end
              end
          | None =>
              match charref_sub_from rt 0 s' with
              | inl e => inl e
              | inr rest => inr (c :: rest)
              end
          end
      end
  end.

(** [html.unescape]. *)
Definition unescape (rt : PyRuntime) (s : str) : exn + str :=
  if decide (AMP ∈ s) then charref_sub_from rt 0 s else inr s.

(** [re.sub(r'\s+', ' ', s)]: every maximal run of white space becomes
    one space. [in_run] tells that the previous character was white
    space. *)
Fixpoint collapse_from (in_run : bool) (s : str) : str :=
  match s with
  | [] => []
  | c :: s' =>
      if is_space c then
        if in_run then collapse_from true s'
        else SPACE :: collapse_from true s'
      else c :: collapse_from false s'
  end.

Definition collapse_ws (s : str) : str := collapse_from false s.

Fixpoint lstrip (s : str) : str :=
  match s with
  | [] => []
  | c :: s' => if is_space c then lstrip s' else s
  end.

Definition rstrip (s : str) : str := rev (lstrip (rev s)).

(** [str.strip()]. *)
Definition strip (s : str) : str := rstrip (lstrip s).

Definition ELLIPSIS : str := s2u "...".

(** The text before the length cap. *)
Definition cleaned (rt : PyRuntime) (text : str) : exn + str :=
  match unescape rt (strip_tags text) with
  | inl e => inl e
  | inr clean => inr (strip (collapse_ws clean))
  end.

(** [clean[:500] + "..." if len(clean) > 500 else clean]. *)
Definition cap (clean : str) : str :=
  if (500 <? length clean)%nat then take 500 clean ++ ELLIPSIS else clean.

(** [clean_html]. The argument is [None] for a missing ([None]) text;
    [if not text] also catches the empty string. The call raises what
    [html.unescape] raises. *)
Definition clean_html (rt : PyRuntime) (text : option str) : exn + str :=
  match text with
  | None => inr []
  | Some [] => inr []
  | Some t =>
      match cleaned rt t with
      | inl e => inl e
      | inr clean => inr (cap clean)
      end
  end.

(** ** Categorisation: [categorize_article] *)

(** [str.lower]: CPython lowers a pure ASCII string byte by byte and
    consults the Unicode tables otherwise. *)
Definition lower (rt : PyRuntime) (s : str) : str :=
  if forallb is_ascii s then map ascii_lower s else unicode_lower rt s.

(** [NEWS_CATEGORIES], in the order of the dictionary literal. Five of
    its keywords hold characters outside ASCII; they are given by their
    code points, as they stand in the source file. *)
Definition NEWS_CATEGORIES : list (str * list str) :=
  [ (s2u "vehicles",
      map s2u ["fahrzeug"; "vehicle"; "auto"; "car"; "model"; "modell";
               "ev"; "elektroauto"; "automobil"; "vozilo"]%string);
    (s2u "battery",
      map s2u ["batterie"; "battery"; "akku"; "zelle"; "cell";
               "reichweite"; "range"; "degradation"; "lebensdauer";
               "baterija"]%string);
    (s2u "charging",
      map s2u ["laden"; "charging"; "ladestation"; "charger"]%string
      ++ [s2u "lades" ++ [195; 164] ++ s2u "ule"]
      ++ map s2u ["wallbox"; "schnellladen"; "dc"; "ac";
                  "punjenje"]%string
      ++ [s2u "punja" ++ [196]]);
    (s2u "policy",
      [s2u "f" ++ [195; 182] ++ s2u "rderung"]
      ++ map s2u ["subsidy"; "gesetz"; "law"; "regulierung"; "regulation";
                  "steuer"; "tax"; "politik"; "policy"; "zakon";
                  "poticaj"]%string);
    (s2u "market",
      map s2u ["markt"; "market"; "verkauf"; "sales"; "zulassung";
               "registration"; "statistik"; "statistic"; "preis";
               "price"]%string
      ++ [s2u "tr" ++ [197; 190] ++ s2u "i" ++ [197; 161] ++ s2u "te"]);
    (s2u "technology",
      map s2u ["technologie"; "technology"; "update"; "software"; "ota";
               "autopilot"; "fsd"; "tuning"; "upgrade";
               "tehnologija"]%string);
    (s2u "infrastructure",
      map s2u ["infrastruktur"; "infrastructure"; "netzwerk"; "network";
               "ausbau"; "expansion"; "strom"; "grid"]%string
      ++ [s2u "mre" ++ [197; 190] ++ s2u "a"]) ].

Definition GENERAL : str := s2u "general".

(** The inner loop over one category's keywords, with its [break]. *)
Definition any_keyword_in (keywords : list str) (text : str) : bool :=
  existsb (fun keyword => str_in keyword text) keywords.

(** The outer loop of [categorize_article] over a category table. *)
Fixpoint matching_categories (table : list (str * list str)) (text : str)
  : list str :=
  match table with
  | [] => []
  | (cat, keywords) :: table' =>
      if any_keyword_in keywords text
      then cat :: matching_categories table' text
      else matching_categories table' text
  end.

Definition categorize_article (rt : PyRuntime) (title summary : str)
  : list str :=
  let text := lower rt (title ++ [SPACE] ++ summary) in
  match matching_categories NEWS_CATEGORIES text with
  | [] => [GENERAL]
  | categories => categories
  end.

(** ** Identifiers: [generate_article_id] *)

Definition is_surrogate (c : char) : bool := (55296 <=? c) && (c <=? 57343).

(** [chr.encode()] in UTF-8. Lone surrogates cannot be encoded; numbers
    from 0x110000 on are not characters of a Python string at all. *)
Definition utf8_char (c : char) : exn + list N :=
  if c <? 128 then inr [c]
  else if c <? 2048 then
    inr [192 + c / 64; 128 + c mod 64]
  else if c <? 65536 then
    if is_surrogate c then inl UnicodeEncodeError
    else inr [224 + c / 4096; 128 + (c / 64) mod 64; 128 + c mod 64]
  else if c <? 1114112 then
    inr [240 + c / 262144; 128 + (c / 4096) mod 64;
         128 + (c / 64) mod 64; 128 + c mod 64]
  else inl UnicodeEncodeError.

(** [str.encode()]. *)
Fixpoint encode (s : str) : exn + list N :=
  match s with
  | [] => inr []
  | c :: s' =>
      match utf8_char c, encode s' with
      | inr bs, inr rest => inr (bs ++ rest)
      | inl e, _ => inl e
      | _, inl e => inl e
      end
  end.

(** MD5 (RFC 1321) on 32-bit words kept in [N]. *)
Module MD5.

Definition mask32 : N := 4294967295.
Definition wrap (x : N) : N := x mod 4294967296.
Definition add32 (x y : N) : N := wrap (x + y).
Definition not32 (x : N) : N := N.lxor x mask32.
Definition rotl32 (x : N) (s : N) : N :=
  wrap (N.lor (N.shiftl x s) (N.shiftr x (32 - s))).

Definition S_table : list N :=
  [7; 12; 17; 22; 7; 12; 17; 22; 7; 12; 17; 22; 7; 12; 17; 22;
   5; 9; 14; 20; 5; 9; 14; 20; 5; 9; 14; 20; 5; 9; 14; 20;
   4; 11; 16; 23; 4; 11; 16; 23; 4; 11; 16; 23; 4; 11; 16; 23;
   6; 10; 15; 21; 6; 10; 15; 21; 6; 10; 15; 21; 6; 10; 15; 21].

Definition K_table : list N :=
  [3614090360; 3905402710; 606105819; 3250441966;
   4118548399; 1200080426; 2821735955; 4249261313;
   1770035416; 2336552879; 4294925233; 2304563134;
   1804603682; 4254626195; 2792965006; 1236535329;
   4129170786; 3225465664; 643717713; 3921069994;
   3593408605; 38016083; 3634488961; 3889429448;
   568446438; 3275163606; 4107603335; 1163531501;
   2850285829; 4243563512; 1735328473; 2368359562;
   4294588738; 2272392833; 1839030562; 4259657740;
   2763975236; 1272893353; 4139469664; 3200236656;
   681279174; 3936430074; 3572445317; 76029189;
   3654602809; 3873151461; 530742520; 3299628645;
   4096336452; 1126891415; 2878612391; 4237533241;
   1700485571; 2399980690; 4293915773; 2240044497;
   1873313359; 4264355552; 2734768916; 1309151649;
   4149444226; 3174756917; 718787259; 3951481745].

Record state := { sa : N; sb : N; sc : N; sd : N }.

Definition init : state :=
  {| sa := 1732584193; sb := 4023233417;
     sc := 2562383102; sd := 271733878 |}.

(** A little-endian word from four bytes, and back. *)
Definition word_of (bs : list N) : N :=
  nth 0 bs 0 + 256 * nth 1 bs 0 + 65536 * nth 2 bs 0
  + 16777216 * nth 3 bs 0.

Definition bytes_of (w : N) : list N :=
  [w mod 256; (w / 256) mod 256; (w / 65536) mod 256;
   (w / 16777216) mod 256].

Fixpoint words_of (n : nat) (bs : list N) : list N :=
  match n with
  | O => []
  | S n' => word_of (take 4 bs) :: words_of n' (drop 4 bs)
  end.

(** One of the 64 operations on the block [m]. *)
Definition step (m : list N) (st : state) (i : nat) : state :=
  let '(a, b, c, d) := (sa st, sb st, sc st, sd st) in
  let '(f, g) :=
    if (i <? 16)%nat then
      (N.lor (N.land b c) (N.land (not32 b) d), i)
    else if (i <? 32)%nat then
      (N.lor (N.land d b) (N.land (not32 d) c), (5 * i + 1) mod 16)%nat
    else if (i <? 48)%nat then
      (N.lxor (N.lxor b c) d, (3 * i + 5) mod 16)%nat
    else
      (N.lxor c (N.lor b (not32 d)), (7 * i) mod 16)%nat in
  let f' := add32 (add32 (add32 f a) (nth i K_table 0)) (nth g m 0) in
  {| sa := d; sd := c; sc := b;
     sb := add32 b (rotl32 f' (nth i S_table 0)) |}.

Definition block (st : state) (bs : list N) : state :=
  let m := words_of 16 bs in
  let st' := fold_left (step m) (seq 0 64) st in
  {| sa := add32 (sa st) (sa st'); sb := add32 (sb st) (sb st');
     sc := add32 (sc st) (sc st'); sd := add32 (sd st) (sd st') |}.

Fixpoint blocks (n : nat) (st : state) (bs : list N) : state :=
  match n with
  | O => st
  | S n' => blocks n' (block st (take 64 bs)) (drop 64 bs)
  end.

(** The message followed by 0x80, zeros up to 56 modulo 64 and the
    length in bits as a 64-bit little-endian number. *)
Definition pad (msg : list N) : list N :=
  let len := length msg in
  let zeros := ((119 - len mod 64) mod 64)%nat in
  let bits := (8 * N.of_nat len) mod 18446744073709551616 in
  msg ++ [128] ++ repeat 0 zeros
      ++ bytes_of (wrap bits) ++ bytes_of (bits / 4294967296).

Definition digest (msg : list N) : list N :=
  let padded := pad msg in
  let st := blocks (length padded / 64)%nat init padded in
  bytes_of (sa st) ++ bytes_of (sb st) ++ bytes_of (sc st)
    ++ bytes_of (sd st).

End MD5.

(** A hexadecimal digit as a character, and [hexdigest()]. *)
Definition hex_digit (d : N) : char := if d <? 10 then 48 + d else 87 + d.

Definition hexdigest (bytes : list N) : str :=
  flat_map (fun b => [hex_digit (b / 16); hex_digit (b mod 16)]) bytes.

(** [hashlib.md5(url.encode()).hexdigest()[:12]]. *)
Definition generate_article_id (url : str) : exn + str :=
  match encode url with
  | inl e => inl e
  | inr bytes => inr (take 12 (hexdigest (MD5.digest bytes)))
  end.

(** ** Dates *)

Local Open Scope Z_scope.

(** A [datetime] in UTC. *)
Record datetime := {
  year : Z; month : Z; day : Z;
  hour : Z; minute : Z; second : Z; microsecond : Z
}.

Definition is_leap (y : Z) : bool :=
  (y mod 4 =? 0) && (negb (y mod 100 =? 0) || (y mod 400 =? 0)).

Definition days_in_month (y m : Z) : Z :=
  if m =? 2 then (if is_leap y then 29 else 28)
  else if (m =? 4) || (m =? 6) || (m =? 9) || (m =? 11) then 30
  else 31.

(** The range checks of the [datetime] constructor. *)
Definition valid_datetime (d : datetime) : bool :=
  (1 <=? year d) && (year d <=? 9999)
  && (1 <=? month d) && (month d <=? 12)
  && (1 <=? day d) && (day d <=? days_in_month (year d) (month d))
  && (0 <=? hour d) && (hour d <=? 23)
  && (0 <=? minute d) && (minute d <=? 59)
  && (0 <=? second d) && (second d <=? 59)
  && (0 <=? microsecond d) && (microsecond d <=? 999999).

(** The [datetime] built from the first six fields of [t], in UTC. *)
Definition datetime_of (t : struct_time) : exn + datetime :=
  let d := {| year := tm_year t; month := tm_mon t; day := tm_mday t;
              hour := tm_hour t; minute := tm_min t; second := tm_sec t;
              microsecond := 0 |} in
  if valid_datetime d then inr d else inl ValueError.

(** The last [k] decimal digits of [v], most significant first. *)
Fixpoint digits (k : nat) (v : Z) : str :=
  match k with
  | O => []
  | S k' => digits k' (v / 10) ++ [(48 + Z.to_N (v mod 10))%N]
  end.

(** [datetime.isoformat()] of a UTC time: the microseconds are printed
    only when they are not zero. *)
Definition isoformat (d : datetime) : str :=
  digits 4 (year d) ++ s2u "-" ++ digits 2 (month d) ++ s2u "-"
  ++ digits 2 (day d) ++ s2u "T" ++ digits 2 (hour d) ++ s2u ":"
  ++ digits 2 (minute d) ++ s2u ":" ++ digits 2 (second d)
  ++ (if microsecond d =? 0 then [] else s2u "." ++ digits 6 (microsecond d))
  ++ s2u "+00:00".

(** Days before the first of January of year [y], and before the first
    of month [m] in it, as in the [datetime] module. *)
Definition days_before_year (y : Z) : Z :=
  (y - 1) * 365 + (y - 1) / 4 - (y - 1) / 100 + (y - 1) / 400.

Fixpoint days_before_month_from (y : Z) (k : nat) : Z :=
  match k with
  | O => 0
  | S k' => days_before_month_from y k' + days_in_month y (Z.of_nat k)
  end.

Definition days_before_month (y m : Z) : Z :=
  days_before_month_from y (Z.to_nat (m - 1)).

Definition ymd2ord (y m d : Z) : Z :=
  days_before_year y + days_before_month y m + d.

(** Microseconds since the start of year 1. *)
Definition to_micros (d : datetime) : Z :=
  (((ymd2ord (year d) (month d) (day d) - 1) * 24 + hour d) * 60
    + minute d) * 60 * 1000000 + second d * 1000000 + microsecond d.

(** [a - b] as a [timedelta], in microseconds. *)
Definition timedelta_between (a b : datetime) : Z := to_micros a - to_micros b.

(** [timedelta(hours=1)]. *)
Definition HOUR : Z := 3600 * 1000000.

(** ** Articles, feeds and the state of the process *)

Record article := {
  article_id : str;
  title : str;
  summary : str;
  url : str;
  source : str;
  language : str;
  region : str;
  published : option str;
  image_url : option str;
  categories : list str
}.

Record feed_config := {
  feed_url : str; feed_name : str; feed_lang : str; feed_region : str
}.

Definition feed (u : string) (n : str) (l r : string) : feed_config :=
  {| feed_url := s2u u; feed_name := n;
     feed_lang := s2u l; feed_region := s2u r |}.

(** [NEWS_FEEDS], in the order of the dictionary literal. *)
Definition NEWS_FEEDS : list (str * list feed_config) :=
  [ (s2u "swiss",
     [ feed "https://www.tcs.ch/de/testberichte-ratgeber/ratgeber/rss/elektromobilitaet.rss"
            (s2u "TCS Elektromobilit" ++ [195; 164]%N ++ s2u "t") "de" "CH";
       feed "https://www.blick.ch/auto/rss.xml" (s2u "Blick Auto") "de" "CH" ]);
    (s2u "german",
     [ feed "https://www.electrive.net/feed/" (s2u "Electrive.net") "de" "DE";
       feed "https://ecomento.de/feed/" (s2u "Ecomento") "de" "DE";
       feed "https://www.elektroauto-news.net/feed/"
            (s2u "Elektroauto-News") "de" "DE";
       feed "https://teslamag.de/feed" (s2u "Teslamag") "de" "DE";
       feed "https://www.golem.de/rss.php?tp=auto" (s2u "Golem Auto") "de" "DE" ]);
    (s2u "international",
     [ feed "https://electrek.co/feed/" (s2u "Electrek") "en" "US";
       feed "https://insideevs.com/rss/news/all/" (s2u "InsideEVs") "en" "US";
       feed "https://cleantechnica.com/feed/" (s2u "CleanTechnica") "en" "US";
       feed "https://www.greencarreports.com/rss/news"
            (s2u "Green Car Reports") "en" "US";
       feed "https://chargedevs.com/feed/" (s2u "Charged EVs") "en" "US" ]);
    (s2u "balkan",
     [ feed "https://www.netokracija.rs/feed" (s2u "Netokracija RS") "sr" "RS";
       feed "https://www.netokracija.com/feed" (s2u "Netokracija HR") "hr" "HR";
       feed "https://www.automarket.hr/rss/vijesti"
            (s2u "Automarket HR") "hr" "HR";
       feed "https://www.automobili.hr/rss.xml" (s2u "Automobili HR") "hr" "HR" ]) ].

(** [news_cache]. *)
Record Cache := {
  cache_articles : list article;
  last_updated : option datetime;
  cache_duration : Z
}.

Definition news_cache_init : Cache :=
  {| cache_articles := []; last_updated := None; cache_duration := HOUR |}.

Record response := { status_code : Z; text : str }.

(** What a handler can read and change: the cache, the clock and the
    network. [clock] gives the successive readings of
    [datetime.now(timezone.utc)]. [net] gives the outcome of one call of
    [client.get] for an address: the response that the client returns
    in the end, after the redirects it follows by itself, or the
    exception it raises, which stands for any transport failure
    including a timeout. [client_calls] records these calls, with the
    address handed to the client in each: one entry per call, however
    many HTTP requests the client sends while it follows redirects.
    [passes] counts the runs of [fetch_all_feeds]; [warnings] holds the
    names logged by the fetcher. *)
Record World := {
  news_cache : Cache;
  clock : nat -> datetime;
  ticks : nat;
  net : str -> exn + response;
  client_calls : list str;
  passes : nat;
  warnings : list str
}.

Definition set_cache (c : Cache) (w : World) : World :=
  {| news_cache := c; clock := clock w; ticks := ticks w; net := net w;
     client_calls := client_calls w; passes := passes w; warnings := warnings w |}.

Definition tick (w : World) : World :=
  {| news_cache := news_cache w; clock := clock w; ticks := S (ticks w);
     net := net w; client_calls := client_calls w; passes := passes w;
     warnings := warnings w |}.

Definition log_call (u : str) (w : World) : World :=
  {| news_cache := news_cache w; clock := clock w; ticks := ticks w;
     net := net w; client_calls := client_calls w ++ [u]; passes := passes w;
     warnings := warnings w |}.

Definition count_pass (w : World) : World :=
  {| news_cache := news_cache w; clock := clock w; ticks := ticks w;
     net := net w; client_calls := client_calls w; passes := S (passes w);
     warnings := warnings w |}.

Definition log_warning (n : str) (w : World) : World :=
  {| news_cache := news_cache w; clock := clock w; ticks := ticks w;
     net := net w; client_calls := client_calls w; passes := passes w;
     warnings := warnings w ++ [n] |}.

(** Computations that read and change the world and may raise. *)
Definition M (A : Type) : Type := World -> (exn + A) * World.

#[global] Instance M_ret : MRet M := fun A x w => (inr x, w).

#[global] Instance M_bind : MBind M := fun A B f m w =>
  match m w with
  | (inl e, w') => (inl e, w')
  | (inr x, w') => f x w'
  end.

Definition raise {A} (e : exn) : M A := fun w => (inl e, w).

Definition lift {A} (r : exn + A) : M A := fun w => (r, w).

(** [try: body  except: handler]. *)
Definition try_except {A} (body : M A) (handler : exn -> M A) : M A :=
  fun w =>
    match body w with
    | (inl e, w') => handler e w'
    | (inr x, w') => (inr x, w')
    end.

(** [datetime.now(timezone.utc)]. *)
Definition now : M datetime :=
  fun w => (inr (clock w (ticks w)), tick w).

(** [await client.get(url, follow_redirects=True)]: one call of the
    client, recorded with its address. The redirects are followed
    inside the client; what it returns in the end is the outcome. *)
Definition http_get (u : str) : M response :=
  fun w => (net w u, log_call u w).

Definition get_cache : M Cache := fun w => (inr (news_cache w), w).
Definition put_cache (c : Cache) : M unit := fun w => (inr tt, set_cache c w).

(** ** The single-feed fetcher: [fetch_single_feed] *)

(** The publication date of an entry: [published_parsed], else
    [updated_parsed], else the time of the fetch; a date that the
    [datetime] constructor refuses is replaced by the time of the fetch
    as well (the inner [try]/[except] of the loop body). *)
Definition resolve_pub_date (e : entry) : M datetime :=
  match published_parsed e with
  | Some t => try_except (lift (datetime_of t)) (fun _ => now)
  | None =>
      match updated_parsed e with
      | Some t => try_except (lift (datetime_of t)) (fun _ => now)
      | None => now
      end
  end.

Definition entry_summary_text (rt : PyRuntime) (e : entry) : exn + str :=
  match entry_summary e with
  | Some s => clean_html rt (Some s)
  | None =>
      match entry_description e with
      | Some d => clean_html rt (Some d)
      | None => inr []
      end
  end.

(** The loop over the enclosures, left at the first one whose type
    starts with [image]. *)
Fixpoint first_image (encs : list enclosure) : option str :=
  match encs with
  | [] => None
  | enc :: encs' =>
      if starts_with (s2u "image") (default [] (enc_type enc))
      then enc_href enc
      else first_image encs'
  end.

Definition entry_image (e : entry) : option str :=
  match media_content e with
  | m :: _ => media_url m
  | [] => first_image (enclosures e)
  end.

(** The title that the fetcher cleans: [entry.get('title', 'Kein Titel')]. *)
Definition title_of (e : entry) : str :=
  default (s2u "Kein Titel") (entry_title e).

(** The body of the loop over the entries: the article of one entry,
    or the exception that leaves the loop. *)
Definition process_entry (rt : PyRuntime) (cfg : feed_config) (e : entry)
  : M article :=
  pub_date ← resolve_pub_date e;
  summary ← lift (entry_summary_text rt e);
  let image_url := entry_image e in
  title ← lift (clean_html rt (Some (title_of e)));
  let link := default [] (entry_link e) in
  ident ← lift (generate_article_id link);
  mret {| article_id := ident; title := title; summary := summary; url := link;
          source := feed_name cfg; language := feed_lang cfg;
          region := feed_region cfg;
          published := Some (isoformat pub_date);
          image_url := image_url;
          categories := categorize_article rt title summary |}.

(** The loop itself. [articles] is the local list the loop appends to:
    when an entry raises, the loop is left with what was appended
    before. *)
Fixpoint process_entries (rt : PyRuntime) (cfg : feed_config)
    (entries : list entry) (articles : list article) (w : World)
  : option exn * list article * World :=
  match entries with
  | [] => (None, articles, w)
  | e :: entries' =>
      match process_entry rt cfg e w with
      | (inl ex, w') => (Some ex, articles, w')
      | (inr a, w') => process_entries rt cfg entries' (articles ++ [a]) w'
      end
  end.

(** [fetch_single_feed]: whatever is raised inside the [try] is logged
    by the handler, and the function returns [articles] as it stands. *)
Definition fetch_single_feed (rt : PyRuntime) (cfg : feed_config)
  : M (list article) :=
  fun w =>
    match http_get (feed_url cfg) w with
    | (inl _, w1) => (inr [], log_warning (feed_name cfg) w1)
    | (inr resp, w1) =>
        if status_code resp =? 200 then
          match feedparser_parse rt (text resp) with
          | inl _ => (inr [], log_warning (feed_name cfg) w1)
          | inr entries =>
              match process_entries rt cfg (take 10 entries) [] w1 with
              | (Some _, articles, w2) =>
                  (inr articles, log_warning (feed_name cfg) w2)
              | (None, articles, w2) => (inr articles, w2)
              end
          end
        else (inr [], w1)
    end.

(** ** The aggregation: [fetch_all_feeds] *)

(** [asyncio.gather( *tasks, return_exceptions=True)]: the results in the
    order of the tasks, an exception taking the place of the result of
    a task that raised. The tasks are run one after the other here; the
    clock and the network of the world are arbitrary, so this covers
    the readings any interleaving can produce. *)
Fixpoint gather {A} (tasks : list (M A)) (w : World)
  : list (exn + A) * World :=
  match tasks with
  | [] => ([], w)
  | t :: tasks' =>
      let '(r, w1) := t w in
      let '(rs, w2) := gather tasks' w1 in
      (r :: rs, w2)
  end.

(** The loop that keeps the results that are lists. *)
Fixpoint combine_results (results : list (exn + list article))
  : list article :=
  match results with
  | [] => []
  | inr l :: results' => l ++ combine_results results'
  | inl _ :: results' => combine_results results'
  end.

(** The sort key [x.get('published', '') or '']. *)
Definition sort_key (a : article) : str := default [] (published a).

(** [list.sort(key=..., reverse=True)] is a stable sort: the result is
    in descending order of the keys and articles with equal keys keep
    their order. Insertion from the right computes that list. *)
Fixpoint insert_desc (x : article) (l : list article) : list article :=
  match l with
  | [] => [x]
  | y :: l' =>
      if str_leb (sort_key y) (sort_key x) then x :: l
      else y :: insert_desc x l'
  end.

Definition sort_desc (l : list article) : list article :=
  foldr insert_desc [] l.

Definition title_key (rt : PyRuntime) (a : article) : str :=
  take 50 (lower rt (title a)).

(** The de-duplication loop with its set [seen_titles]. *)
Fixpoint dedup_from (rt : PyRuntime) (seen_titles : gset str)
    (l : list article) : list article :=
  match l with
  | [] => []
  | a :: l' =>
      let key := title_key rt a in
      if decide (key ∈ seen_titles) then dedup_from rt seen_titles l'
      else a :: dedup_from rt ({[ key ]} ∪ seen_titles) l'
  end.

(** Sorting and de-duplication of the collected articles. *)
Definition merge_articles (rt : PyRuntime) (all_articles : list article)
  : list article :=
  dedup_from rt ∅ (sort_desc all_articles).

Definition all_feeds (registry : list (str * list feed_config))
  : list feed_config :=
  concat (map snd registry).

(** [fetch_all_feeds], over the feed registry it reads. *)
Definition fetch_all_feeds (rt : PyRuntime)
    (registry : list (str * list feed_config)) : M (list article) :=
  fun w =>
    let tasks := map (fetch_single_feed rt) (all_feeds registry) in
    let '(results, w1) := gather tasks (count_pass w) in
    (inr (merge_articles rt (combine_results results)), w1).

(** ** The handlers: [GET /news] and [POST /news/refresh] *)

Record news_query := {
  q_region : option str;
  q_category : option str;
  q_language : option str;
  q_limit : Z;
  q_refresh : bool
}.

(** The response of [GET /news]. [r_cache_age] is the age of the cache
    in microseconds; the handler reports it in minutes, rounded to one
    decimal. *)
Record news_response := {
  r_articles : list article;
  r_total : nat;
  r_cache_age : Z;
  r_sources_count : nat;
  r_filters : option str * option str * option str
}.

(** The truth value of an optional string parameter: [None] and the
    empty string are false. *)
Definition truthy (p : option str) : option str :=
  match p with
  | Some (c :: s) => Some (c :: s)
  | _ => None
  end.

Definition region_codes : list (str * list str) :=
  [ (s2u "swiss", [s2u "CH"]);
    (s2u "german", [s2u "DE"]);
    (s2u "international", map s2u ["US"; "UK"; "EU"]%string);
    (s2u "balkan", map s2u ["RS"; "HR"; "SI"; "BA"]%string) ].

(** [d.get(key, [])] on a dictionary given by its items. *)
Fixpoint dict_get (d : list (str * list str)) (key : str) : list str :=
  match d with
  | [] => []
  | (k, v) :: d' => if decide (k = key) then v else dict_get d' key
  end.

(** [l[:limit]]: a negative limit counts from the end. *)
Definition slice_to {A} (limit : Z) (l : list A) : list A :=
  if 0 <=? limit then take (Z.to_nat limit) l
  else take (length l - Z.to_nat (- limit)) l.

Definition filter_region (p : option str) (l : list article) : list article :=
  match truthy p with
  | Some r =>
      let allowed_regions := dict_get region_codes r in
      filter (fun a => region a ∈ allowed_regions) l
  | None => l
  end.

Definition filter_language (p : option str) (l : list article)
  : list article :=
  match truthy p with
  | Some lang => filter (fun a => language a = lang) l
  | None => l
  end.

Definition filter_category (p : option str) (l : list article)
  : list article :=
  match truthy p with
  | Some cat => filter (fun a => cat ∈ categories a) l
  | None => l
  end.

(** The filters and the limit of [get_news], applied to the articles of
    the cache. *)
Definition select_articles (q : news_query) (l : list article)
  : list article :=
  slice_to (q_limit q)
    (filter_category (q_category q)
       (filter_language (q_language q)
          (filter_region (q_region q) l))).

(** The validity test of the cache. The clock is read only when the
    cache has been filled before. *)
Definition cache_valid (refresh : bool) : M bool :=
  c ← get_cache;
  match last_updated c with
  | None => mret false
  | Some t =>
      n ← now;
      mret (bool_decide (timedelta_between n t < cache_duration c)
            && bool_decide (0 < length (cache_articles c))%nat
            && negb refresh)
  end.

(** The two assignments that fill the cache. *)
Definition refill (rt : PyRuntime)
    (registry : list (str * list feed_config)) : M unit :=
  fresh ← fetch_all_feeds rt registry;
  c ← get_cache;
  put_cache {| cache_articles := fresh; last_updated := last_updated c;
               cache_duration := cache_duration c |};;
  n ← now;
  c' ← get_cache;
  put_cache {| cache_articles := cache_articles c';
               last_updated := Some n;
               cache_duration := cache_duration c' |}.

(** The first part of [get_news], up to the copy of the cached list. *)
Definition get_or_refresh (rt : PyRuntime)
    (registry : list (str * list feed_config)) (refresh : bool)
  : M (list article) :=
  valid ← cache_valid refresh;
  (if valid : bool then mret tt else refill rt registry);;
  c ← get_cache;
  mret (cache_articles c).

Definition cache_age : M Z :=
  c ← get_cache;
  match last_updated c with
  | Some t => n ← now; mret (timedelta_between n t)
  | None => mret 0
  end.

Definition get_news (rt : PyRuntime)
    (registry : list (str * list feed_config)) (q : news_query)
  : M news_response :=
  articles ← get_or_refresh rt registry (q_refresh q);
  let articles := select_articles q articles in
  age ← cache_age;
  mret {| r_articles := articles;
          r_total := length articles;
          r_cache_age := age;
          r_sources_count := length (all_feeds registry);
          r_filters := (q_region q, q_category q, q_language q) |}.

(** [refresh_news] returns the number of articles and the time stamp. *)
Definition refresh_news (rt : PyRuntime)
    (registry : list (str * list feed_config)) : M (nat * str) :=
  refill rt registry;;
  c ← get_cache;
  mret (length (cache_articles c),
        match last_updated c with
        | Some t => isoformat t
        | None => []
        end).

(** ** Notions used in the statements *)

(** [needle] occurs in [hay]. *)
Definition is_substring (needle hay : str) : Prop :=
  exists pre post, hay = pre ++ needle ++ post.

(** No part of the text has the shape of a tag: a [<], at least one
    character other than [>], and a [>]. *)
Definition tag_free (o : str) : Prop :=
  forall pre body post,
    o = pre ++ LT :: body ++ GT :: post -> GT ∉ body -> body = [].

(** All white space is single spaces, none of them at either end. *)
Definition single_spaced (c : str) : Prop :=
  Forall (fun ch => is_space ch = true -> ch = SPACE) c
  /\ (forall pre post, c <> pre ++ SPACE :: SPACE :: post)
  /\ (forall ch rest, c = ch :: rest -> is_space ch = false)
  /\ (forall ch rest, c = rest ++ [ch] -> is_space ch = false).

(** *** What the four steps of [clean_html] do

    Each step is described by what it makes of a text read from the
    left. For the tags, the white space and the trimming the cases
    cover every text, so that one function only fits the description. *)

(** Removing the tags: a tag is a [<], one or more characters other
    than [>], and the [>] that follows them. A [<] that is followed by
    [>] at once, or by no [>] at all, opens no tag. *)
Definition strips_tags (f : str -> str) : Prop :=
  f [] = []
  /\ (forall c s, c <> LT -> f (c :: s) = c :: f s)
  /\ (forall body s, body <> [] -> GT ∉ body ->
        f (LT :: body ++ GT :: s) = f s)
  /\ (forall s, f (LT :: GT :: s) = LT :: GT :: f s)
  /\ (forall s, GT ∉ s -> f (LT :: s) = LT :: s).

(** Turning every run of white space into one space. *)
Definition collapses_white_space (f : str -> str) : Prop :=
  f [] = []
  /\ (forall c s, is_space c = false -> f (c :: s) = c :: f s)
  /\ (forall run s,
        run <> [] -> Forall (fun c => is_space c = true) run ->
        (forall c s', s = c :: s' -> is_space c = false) ->
        f (run ++ s) = SPACE :: f s).

(** Removing the white space at both ends. *)
Definition trims (f : str -> str) : Prop :=
  forall l m r,
    Forall (fun c => is_space c = true) l ->
    Forall (fun c => is_space c = true) r ->
    (forall c m', m = c :: m' -> is_space c = false) ->
    (forall c m', m = m' ++ [c] -> is_space c = false) ->
    f (l ++ m ++ r) = m.

(** [text] in front of a result. *)
Definition prepend (text : str) (r : exn + str) : exn + str :=
  match r with
  | inl e => inl e
  | inr rest => inr (text ++ rest)
  end.

(** [int] converts a decimal string of [n] digits. *)
Definition int_accepts (rt : PyRuntime) (n : nat) : Prop :=
  (n <= 640)%nat \/ int_max_str_digits rt = 0%nat
  \/ (n <= int_max_str_digits rt)%nat.

(** A number that stands for itself as a character reference: a
    printable ASCII character or a character from U+00A0 up to the
    surrogates. *)
Definition plain_number (num : N) : Prop :=
  (32 <= num < 127)%N \/ (160 <= num < 55296)%N.

(** Decoding the character references: a name of the table, a decimal
    or a hexadecimal number between [&] and [;] is replaced, a decimal
    number that [int] refuses raises [ValueError], and everything that
    is not part of a reference is copied, a name included of which the
    table knows neither the whole nor a part from its start. A number
    is replaced by the character it numbers, except those of the two
    tables of the library and those that number no character: a
    surrogate or a number past U+10FFFF gives U+FFFD. *)
Definition decodes_references (rt : PyRuntime) (f : str -> exn + str)
  : Prop :=
  (forall s, AMP ∉ s -> f s = inr s)
  /\ (forall c s, c <> AMP -> f (c :: s) = prepend [c] (f s))
  /\ (forall s,
        (forall c s', s = c :: s' -> is_name_char c = false /\ c <> HASH) ->
        f (AMP :: s) = prepend [AMP] (f s))
  /\ (forall name v s,
        name <> [] -> (length name <= 32)%nat ->
        Forall (fun c => is_name_char c = true) name ->
        html5 rt (name ++ [SEMI]) = Some v ->
        f (AMP :: name ++ SEMI :: s) = prepend v (f s))
  /\ (forall ds s,
        ds <> [] -> Forall (fun c => is_digit c = true) ds ->
        int_accepts rt (length ds) ->
        f (AMP :: HASH :: ds ++ SEMI :: s)
        = prepend (numeric_replacement (int_of 10 ds)) (f s))
  /\ (forall x hs s,
        x = 120%N \/ x = 88%N ->
        hs <> [] -> Forall (fun c => is_hex_digit c = true) hs ->
        f (AMP :: HASH :: x :: hs ++ SEMI :: s)
        = prepend (numeric_replacement (int_of 16 hs)) (f s))
  /\ (forall ds s,
        Forall (fun c => is_digit c = true) ds ->
        ~ int_accepts rt (length ds) ->
        (forall c s', s = c :: s' -> is_digit c = false) ->
        f (AMP :: HASH :: ds ++ s) = inl ValueError)
  /\ (forall name s,
        name <> [] -> (length name <= 32)%nat ->
        Forall (fun c => is_name_char c = true) name ->
        (forall x, (2 <= x <= length name + 1)%nat ->
           html5 rt (take x (name ++ [SEMI])) = None) ->
        f (AMP :: name ++ SEMI :: s)
        = prepend (AMP :: name ++ [SEMI]) (f s))
  /\ (forall num, plain_number num -> numeric_replacement num = [num])
  /\ (forall num r,
        (num, r) ∈ invalid_charrefs -> numeric_replacement num = r)
  /\ (forall num,
        (55296 <= num <= 57343)%N \/ (1114111 < num)%N ->
        numeric_replacement num = [REPLACEMENT])
  /\ (forall num,
        num ∈ invalid_codepoints -> num ∉ invalid_charrefs.*1 ->
        numeric_replacement num = []).

(** No character reference of the text is a decimal number that [int]
    refuses. *)
Definition convertible (rt : PyRuntime) (s : str) : Prop :=
  forall pre ds post,
    s = pre ++ AMP :: HASH :: ds ++ post ->
    Forall (fun c => is_digit c = true) ds ->
    int_accepts rt (length ds).

(** ** Sample inputs

    A runtime whose parser answers from a table of feed bodies, used to
    run the pipeline on concrete feeds. It has the limit of 4300 digits
    that CPython starts with, and of the names of [html.entities.html5]
    it knows the ones listed here. *)

Definition canned_parse (table : list (str * list entry)) (body : str)
  : exn + list entry :=
  match list_find (fun p => p.1 = body) table with
  | Some (_, (_, entries)) => inr entries
  | None => inl ParseError
  end.

Definition html5_sample : list (str * str) :=
  [ (s2u "amp", [38]); (s2u "amp;", [38]); (s2u "lt", [60]);
    (s2u "lt;", [60]); (s2u "gt", [62]); (s2u "gt;", [62]);
    (s2u "quot", [34]); (s2u "quot;", [34]); (s2u "apos;", [39]);
    (s2u "nbsp", [160]); (s2u "nbsp;", [160]);
    (s2u "auml", [228]); (s2u "auml;", [228]);
    (s2u "ouml", [246]); (s2u "ouml;", [246]);
    (s2u "uuml", [252]); (s2u "uuml;", [252]);
    (s2u "szlig", [223]); (s2u "szlig;", [223]);
    (s2u "euro;", [8364]); (s2u "ndash;", [8211]);
    (s2u "hellip;", [8230]) ]%N.

Fixpoint names_get (table : list (str * str)) (name : str) : option str :=
  match table with
  | [] => None
  | (k, v) :: table' =>
      if decide (k = name) then Some v else names_get table' name
  end.

Definition sample_runtime (table : list (str * list entry)) : PyRuntime :=
  {| html5 := names_get html5_sample;
     int_max_str_digits := 4300;
     unicode_lower := fun s => s;
     feedparser_parse := canned_parse table |}.

(** A string that [str.encode()] accepts: characters in the range of
    Unicode, none of them a surrogate. *)
Definition encodable (s : str) : Prop :=
  Forall (fun c => (c < 1114112)%N /\ is_surrogate c = false) s.

#[local] Instance encodable_dec (s : str) : Decision (encodable s).
Proof. unfold encodable. apply _. Defined.

(** One of [0-9a-f]. *)
Definition is_hex_char (c : char) : Prop :=
  (48 <= c <= 57)%N \/ (97 <= c <= 102)%N.

(** [a] is at least as recent as [b]: the comparison of the sort keys,
    in which a missing or empty [published] is the least key. *)
Definition not_older (a b : article) : Prop :=
  str_le (sort_key b) (sort_key a).

(** Every article is at least as recent as its successor. *)
Definition descending (l : list article) : Prop :=
  forall i a b, l !! i = Some a -> l !! S i = Some b -> not_older a b.

(** The articles that one run of [fetch_all_feeds] collects from the
    feeds, before the sort. *)
Definition collected (rt : PyRuntime)
    (registry : list (str * list feed_config)) (w : World) : list article :=
  combine_results
    (gather (map (fetch_single_feed rt) (all_feeds registry)) (count_pass w)).1.

(** A network that serves the given pages with status 200 and times out
    on every other address, and a world around it with an empty cache
    and a clock that stands at 13:00:00.000123 on the first of May
    2024. *)
Definition serve (pages : list (str * str)) (u : str) : exn + response :=
  match list_find (fun p => p.1 = u) pages with
  | Some (_, (_, body)) => inr {| status_code := 200; text := body |}
  | None => inl TransportError
  end.

Definition sample_now : datetime :=
  {| year := 2024; month := 5; day := 1;
     hour := 13; minute := 0; second := 0; microsecond := 123 |}.

Definition sample_world (pages : list (str * str)) : World :=
  {| news_cache := news_cache_init; clock := fun _ => sample_now;
     ticks := 0; net := serve pages; client_calls := []; passes := 0;
     warnings := [] |}.

Definition sample_time (h mi : Z) : struct_time :=
  {| tm_year := 2024; tm_mon := 5; tm_mday := 1;
     tm_hour := h; tm_min := mi; tm_sec := 0 |}.

(** An entry with a title, a link and a publication time only. *)
Definition sample_entry (t : string) (link : str) (p : option struct_time)
  : entry :=
  {| published_parsed := p; updated_parsed := None;
     entry_summary := None; entry_description := None;
     media_content := []; enclosures := [];
     entry_title := Some (s2u t); entry_link := Some link |}.

Definition feed_a : feed_config := feed "https://a.example/feed" (s2u "A") "de" "CH".
Definition feed_b : feed_config := feed "https://b.example/feed" (s2u "B") "de" "DE".

(** Two feeds that carry the same story, published at 12:00 and at
    11:50 under different links. *)
Definition twice_told : PyRuntime :=
  sample_runtime
    [ (s2u "body-a",
       [sample_entry "Neues Modell" (s2u "https://a.example/1")
          (Some (sample_time 12 0))]);
      (s2u "body-b",
       [sample_entry "Neues Modell" (s2u "https://b.example/1")
          (Some (sample_time 11 50))]) ].

Definition twice_told_world : World :=
  sample_world [ (feed_url feed_a, s2u "body-a");
                 (feed_url feed_b, s2u "body-b") ].

(** The article of an entry that has a title, a link and a time only. *)
Definition plain_article (ident title link : string) (cfg : feed_config)
    (published : string) (cats : list string) : article :=
  {| article_id := s2u ident; title := s2u title; summary := [];
     url := s2u link; source := feed_name cfg; language := feed_lang cfg;
     region := feed_region cfg; published := Some (s2u published);
     image_url := None; categories := map s2u cats |}.

Definition told_a : article :=
  plain_article "d184f307538b" "Neues Modell" "https://a.example/1" feed_a
    "2024-05-01T12:00:00+00:00" ["vehicles"]%string.

Definition told_b : article :=
  plain_article "55c0f6ff132b" "Neues Modell" "https://b.example/1" feed_b
    "2024-05-01T11:50:00+00:00" ["vehicles"]%string.

(** What [process_entry] fixes of an article of the feed [cfg]. *)
Definition article_of_feed (rt : PyRuntime) (cfg : feed_config)
    (a : article) : Prop :=
  source a = feed_name cfg
  /\ language a = feed_lang cfg
  /\ region a = feed_region cfg
  /\ categories a = categorize_article rt (title a) (summary a).

(** The link that [process_entry] reads from an entry. *)
Definition link_of (e : entry) : str := default [] (entry_link e).

(** [w'] differs from [w] in the number of clock readings at most. *)
Definition only_ticked (w w' : World) : Prop :=
  news_cache w' = news_cache w /\ clock w' = clock w /\ net w' = net w
  /\ client_calls w' = client_calls w /\ passes w' = passes w
  /\ warnings w' = warnings w.

(** What a run of the fetcher leaves of the world: the cache, the clock
    and the network as they were, one more call of the client. *)
Definition fetched (cfg : feed_config) (w w' : World) : Prop :=
  news_cache w' = news_cache w /\ clock w' = clock w /\ net w' = net w
  /\ passes w' = passes w /\ client_calls w' = client_calls w ++ [feed_url cfg].

(** A text that holds a decimal character reference of 4301 digits. *)
Definition long_reference : str := s2u "&#" ++ repeat 57%N 4301.

(** A result, not an exception. *)
Definition answers {A} (r : exn + A) : Prop := exists x, r = inr x.

#[local] Instance answers_dec {A} (r : exn + A) : Decision (answers r).
Proof.
  destruct r as [e|x]; [right; by intros [? ?] | left; by exists x].
Defined.

(** No step of the loop body raises for the entry: its summary and its
    title can be cleaned and its link can be encoded. A date that
    cannot be built is caught inside the body. *)
Definition raises_nothing (rt : PyRuntime) (e : entry) : Prop :=
  answers (entry_summary_text rt e)
  /\ answers (clean_html rt (Some (title_of e)))
  /\ encodable (link_of e).

#[local] Instance raises_nothing_dec (rt : PyRuntime) (e : entry)
  : Decision (raises_nothing rt e).
Proof. unfold raises_nothing. apply _. Defined.

(** An entry with the title [t], which need not be ASCII. *)
Definition titled_entry (t : str) (link : str) (p : option struct_time)
  : entry :=
  {| published_parsed := p; updated_parsed := None;
     entry_summary := None; entry_description := None;
     media_content := []; enclosures := [];
     entry_title := Some t; entry_link := Some link |}.

(** A feed whose second entry has a title that [clean_html] cannot
    clean, [long_reference]: the title of an item that is written
    [&amp;#] and 4301 digits in the feed. *)
Definition one_bad_entry : PyRuntime :=
  sample_runtime
    [ (s2u "body-b",
       [ sample_entry "Neues Modell" (s2u "https://b.example/1")
           (Some (sample_time 12 0));
         titled_entry long_reference (s2u "https://b.example/x")
           (Some (sample_time 11 0));
         sample_entry "Tesla senkt Preise" (s2u "https://b.example/2")
           (Some (sample_time 10 0)) ]) ].

(** A feed with three entries, two of them under the same title. *)
Definition repeated_story : PyRuntime :=
  sample_runtime
    [ (s2u "body-b",
       [ sample_entry "Neues Modell" (s2u "https://b.example/1")
           (Some (sample_time 12 0));
         sample_entry "Tesla senkt Preise" (s2u "https://b.example/2")
           (Some (sample_time 11 0));
         sample_entry "Neues Modell" (s2u "https://b.example/3")
           (Some (sample_time 10 0)) ]) ].

(** A feed with three entries under three titles, not in order of
    time. *)
Definition three_stories : PyRuntime :=
  sample_runtime
    [ (s2u "body-b",
       [ sample_entry "Tesla senkt Preise" (s2u "https://b.example/2")
           (Some (sample_time 11 0));
         sample_entry "Neues Modell" (s2u "https://b.example/1")
           (Some (sample_time 12 0));
         sample_entry "Ladenetz waechst" (s2u "https://b.example/3")
           (Some (sample_time 10 0)) ]) ].

(** The world in which the second feed answers and the first one times
    out. *)
Definition only_b_world : World :=
  sample_world [ (feed_url feed_b, s2u "body-b") ].

Definition story_1 : article :=
  plain_article "55c0f6ff132b" "Neues Modell" "https://b.example/1" feed_b
    "2024-05-01T12:00:00+00:00" ["vehicles"]%string.

Definition story_2 : article :=
  plain_article "71a7965f4fdd" "Tesla senkt Preise" "https://b.example/2"
    feed_b "2024-05-01T11:00:00+00:00" ["market"]%string.

Definition story_3 : article :=
  plain_article "53199fd31ecb" "Neues Modell" "https://b.example/3" feed_b
    "2024-05-01T10:00:00+00:00" ["vehicles"]%string.

Definition story_4 : article :=
  plain_article "53199fd31ecb" "Ladenetz waechst" "https://b.example/3"
    feed_b "2024-05-01T10:00:00+00:00" ["charging"]%string.

(** The sentence on [clean_html] as the specification words it: every
    text is cleaned, none raises. *)
Definition clean_html_answers_as_stated : Prop :=
  forall rt text, exists out, clean_html rt (Some text) = inr out.

(** The sentence on the categories as the specification words it: the
    keywords are looked for in the lowered title followed at once by
    the summary. *)
Definition keywords_in_joined_text_as_stated : Prop :=
  forall rt title summary cat keywords,
    (cat, keywords) ∈ NEWS_CATEGORIES ->
    cat ∈ categorize_article rt title summary
    <-> exists kw, kw ∈ keywords
                   /\ is_substring kw (lower rt (title ++ summary)).

(** The sentence on fault isolation as the specification words it: when
    the first of two feeds fails and the second yields three articles,
    the result holds exactly these three. *)
Definition failing_source_as_stated : Prop :=
  forall rt g A B w e arts,
    net w (feed_url A) = inl e ->
    (fetch_single_feed rt B
       (fetch_single_feed rt A (count_pass w)).2).1 = inr arts ->
    length arts = 3%nat ->
    exists res,
      (fetch_all_feeds rt [(g, [A; B])] w).1 = inr res /\ res ≡ₚ arts.

(** The sentence on the entries of one feed as the specification words
    it: an entry that raises nothing itself contributes its article,
    whatever happens to the other entries of the feed. *)
Definition entries_independent_as_stated : Prop :=
  forall rt cfg w resp entries e,
    net w (feed_url cfg) = inr resp -> status_code resp = 200 ->
    feedparser_parse rt (text resp) = inr entries ->
    e ∈ take 10 entries -> raises_nothing rt e ->
    exists arts a,
      (fetch_single_feed rt cfg w).1 = inr arts
      /\ a ∈ arts /\ url a = link_of e.

(** Every article of the cache was built by [process_entry] for a feed
    of the registry. *)
Definition cache_from_feeds (rt : PyRuntime)
    (registry : list (str * list feed_config)) (c : Cache) : Prop :=
  Forall (fun a => exists cfg, cfg ∈ all_feeds registry
                               /\ article_of_feed rt cfg a)
         (cache_articles c).

(** The articles that pass the three filters of a query, before the
    limit. *)
Definition matching (q : news_query) (l : list article) : list article :=
  filter_category (q_category q)
    (filter_language (q_language q) (filter_region (q_region q) l)).

(** A world whose cache was filled with [arts] at the time [t]; the
    clock stands at [sample_now]. *)
Definition cached_world (t : datetime) (arts : list article)
    (pages : list (str * str)) : World :=
  {| news_cache := {| cache_articles := arts; last_updated := Some t;
                      cache_duration := HOUR |};
     clock := fun _ => sample_now; ticks := 0; net := serve pages;
     client_calls := []; passes := 0; warnings := [] |}.

Definition at_time (h mi : Z) : datetime :=
  {| year := 2024; month := 5; day := 1;
     hour := h; minute := mi; second := 0; microsecond := 0 |}.

(** The query without parameters. *)
Definition plain_query : news_query :=
  {| q_region := None; q_category := None; q_language := None;
     q_limit := 50; q_refresh := false |}.

Definition two_feeds : list (str * list feed_config) :=
  [(s2u "g", [feed_a; feed_b])].

(** The world in which every feed times out. *)
Definition silent_world : World := sample_world [].

(** The sentence on the fresh cache as the specification words it: a
    cache filled less than an hour ago is served as it is, without a
    new aggregation, when no refresh is asked for. *)
Definition cache_hit_as_stated : Prop :=
  forall rt registry q w t,
    last_updated (news_cache w) = Some t ->
    cache_duration (news_cache w) = HOUR ->
    timedelta_between (clock w (ticks w)) t < HOUR ->
    q_refresh q = false ->
    exists resp w',
      get_news rt registry q w = (inr resp, w')
      /\ news_cache w' = news_cache w
      /\ passes w' = passes w /\ client_calls w' = client_calls w.

(** The sentence on unknown regions as the specification words it:
    a region outside the allow-list yields no article. *)
Definition unknown_region_as_stated : Prop :=
  forall rt registry q w r,
    q_region q = Some r -> r ∉ region_codes.*1 ->
    exists resp w',
      get_news rt registry q w = (inr resp, w') /\ r_articles resp = [].

(** The sentence on [total] as the specification words it: when more
    articles match than the limit, [total] is the limit. *)
Definition total_is_limit_as_stated : Prop :=
  forall rt registry q w resp w',
    get_news rt registry q w = (inr resp, w') ->
    q_limit q < Z.of_nat (length (matching q (cache_articles (news_cache w')))) ->
    Z.of_nat (r_total resp) = q_limit q.

Definition query_region (r : str) : news_query :=
  {| q_region := Some r; q_category := None; q_language := None;
     q_limit := 50; q_refresh := false |}.

Definition query_limit (limit : Z) : news_query :=
  {| q_region := None; q_category := None; q_language := None;
     q_limit := limit; q_refresh := false |}.

(** A cache filled half an hour ago with three articles. *)
Definition three_cached : World :=
  cached_world (at_time 12 30) [story_1; story_2; story_4] [].

(** An entry whose publication date cannot be built (month 13) and
    whose date of update can. *)
Definition bad_date_entry : entry :=
  {| published_parsed :=
       Some {| tm_year := 2024; tm_mon := 13; tm_mday := 1;
               tm_hour := 9; tm_min := 0; tm_sec := 0 |};
     updated_parsed := Some (sample_time 9 0);
     entry_summary := None; entry_description := None;
     media_content := []; enclosures := [];
     entry_title := Some (s2u "Neues Modell");
     entry_link := Some (s2u "https://b.example/1") |}.

(** ** The other handlers

    The handlers below read the tables [VEHICLES_DATA],
    [KNOWLEDGE_ARTICLES] and [GLOSSARY_DATA]; they are given the table
    as an argument. A number that is a [float] in the source is the
    rational number it stands for: the handlers only compare them. *)

(** [list.sort(key=..., reverse=...)], a stable sort: [before x y] tells
    that [x] may stay in front of [y]. For an ascending sort it compares
    the keys of [x] and [y], for [reverse=True] those of [y] and [x];
    elements with equal keys keep their order in both cases. *)
Fixpoint insert_by {A} (before : A -> A -> bool) (x : A) (l : list A)
  : list A :=
  match l with
  | [] => [x]
  | y :: l' => if before x y then x :: l else y :: insert_by before x l'
  end.

Definition sort_by {A} (before : A -> A -> bool) (l : list A) : list A :=
  foldr (insert_by before) [] l.

(** [HTTPException(status_code=..., detail=...)]. *)
Inductive http_error := HTTPException (status : Z) (detail : str).

Record vehicle := {
  v_id : str; v_brand : str; v_model : str; v_variant : str;
  v_price_chf : Z; v_range_wltp_km : Z;
  v_battery_kwh : Q; v_consumption_kwh_100km : Q; v_acceleration_0_100 : Q;
  v_top_speed_kmh : Z; v_charging_dc_kw : Z; v_charging_ac_kw : Q;
  v_cargo_liters : Z; v_seats : Z; v_drivetrain : str; v_year : Z;
  v_image_url : option str; v_category : str
}.

Record vehicle_query := {
  vq_brand : option str;
  vq_category : option str;
  vq_min_price : option Z;
  vq_max_price : option Z;
  vq_min_range : option Z;
  vq_sort_by : option str;
  vq_sort_order : option str
}.

(** The truth value of an optional integer parameter: [None] and [0]
    are false. *)
Definition truthy_int (p : option Z) : option Z :=
  match p with
  | Some 0%Z => None
  | _ => p
  end.

(** The sort keys that [get_vehicles] accepts, with [x.get(sort_by, 0)]
    for each. *)
Definition vehicle_key (name : str) : option (vehicle -> Q) :=
  if decide (name = s2u "price_chf") then
    Some (fun v => inject_Z (v_price_chf v))
  else if decide (name = s2u "range_wltp_km") then
    Some (fun v => inject_Z (v_range_wltp_km v))
  else if decide (name = s2u "battery_kwh") then Some v_battery_kwh
  else if decide (name = s2u "acceleration_0_100") then
    Some v_acceleration_0_100
  else None.

(** The five filters of [get_vehicles]. *)
Definition filter_vehicles (rt : PyRuntime) (q : vehicle_query)
    (data : list vehicle) : list vehicle :=
  let filtered := data in
  let filtered :=
    match truthy (vq_brand q) with
    | Some brand =>
        filter (fun v => lower rt (v_brand v) = lower rt brand) filtered
    | None => filtered
    end in
  let filtered :=
    match truthy (vq_category q) with
    | Some category =>
        filter (fun v => lower rt (v_category v) = lower rt category) filtered
    | None => filtered
    end in
  let filtered :=
    match truthy_int (vq_min_price q) with
    | Some min_price => filter (fun v => (min_price <= v_price_chf v)%Z) filtered
    | None => filtered
    end in
  let filtered :=
    match truthy_int (vq_max_price q) with
    | Some max_price => filter (fun v => (v_price_chf v <= max_price)%Z) filtered
    | None => filtered
    end in
  match truthy_int (vq_min_range q) with
  | Some min_range => filter (fun v => (min_range <= v_range_wltp_km v)%Z) filtered
  | None => filtered
  end.

(** [get_vehicles]. *)
Definition get_vehicles (rt : PyRuntime) (VEHICLES_DATA : list vehicle)
    (q : vehicle_query) : list vehicle :=
  let filtered := filter_vehicles rt q VEHICLES_DATA in
  match vq_sort_by q with
  | Some name =>
      match vehicle_key name with
      | Some key =>
          if bool_decide (vq_sort_order q = Some (s2u "desc"))
          then sort_by (fun x y => Qle_bool (key y) (key x)) filtered
          else sort_by (fun x y => Qle_bool (key x) (key y)) filtered
      | None => filtered
      end
  | None => filtered
  end.

(** [get_vehicle]: the first vehicle with the identifier, or 404. *)
Fixpoint get_vehicle (VEHICLES_DATA : list vehicle) (vehicle_id : str)
  : http_error + vehicle :=
  match VEHICLES_DATA with
  | [] => inl (HTTPException 404 (s2u "Vehicle not found"))
  | v :: rest =>
      if decide (v_id v = vehicle_id) then inr v
      else get_vehicle rest vehicle_id
  end.

(** [sorted] list of a set of strings: [list(set(...))] followed by
    [sort()]. The order in which the set is listed does not show in the
    result. *)
Definition sorted_set (xs : list str) : list str :=
  sort_by str_leb (elements (list_to_set xs : gset str)).

(** [get_brands] and [get_categories]. *)
Definition get_brands (VEHICLES_DATA : list vehicle) : list str :=
  sorted_set (v_brand <$> VEHICLES_DATA).

Definition get_categories (VEHICLES_DATA : list vehicle) : list str :=
  sorted_set (v_category <$> VEHICLES_DATA).

Record knowledge_article := {
  ka_id : str; ka_category : str; ka_title : str; ka_slug : str;
  ka_content : str; ka_summary : str; ka_keywords : list str; ka_order : Z
}.

(** [get_knowledge_articles]. *)
Definition get_knowledge_articles (KNOWLEDGE_ARTICLES : list knowledge_article)
    (category : option str) : list knowledge_article :=
  let articles :=
    match truthy category with
    | Some c => filter (fun a => ka_category a = c) KNOWLEDGE_ARTICLES
    | None => KNOWLEDGE_ARTICLES
    end in
  sort_by (fun x y => (ka_order x <=? ka_order y)%Z) articles.

(** [get_knowledge_article]: the first article with the slug, or 404. *)
Fixpoint get_knowledge_article (KNOWLEDGE_ARTICLES : list knowledge_article)
    (slug : str) : http_error + knowledge_article :=
  match KNOWLEDGE_ARTICLES with
  | [] => inl (HTTPException 404 (s2u "Article not found"))
  | a :: rest =>
      if decide (ka_slug a = slug) then inr a
      else get_knowledge_article rest slug
  end.

Record glossary_term := {
  g_term : str; g_definition : str; g_category : str
}.

(** [get_glossary]: the terms and their number. *)
Definition get_glossary (GLOSSARY_DATA : list glossary_term)
    (category : option str) : list glossary_term * nat :=
  let glossary :=
    match truthy category with
    | Some c => filter (fun g => g_category g = c) GLOSSARY_DATA
    | None => GLOSSARY_DATA
    end in
  let glossary := sort_by (fun x y => str_leb (g_term x) (g_term y)) glossary in
  (glossary, length glossary).

(** [str.replace(old, new)] for a non-empty [old], as in every call of
    the source: the occurrences are found from the left and do not
    overlap. [skip] counts the characters of an occurrence that are
    still to be passed over. *)
Fixpoint replace_from (old new : str) (skip : nat) (s : str) : str :=
  match s with
  | [] => []
  | c :: s' =>
      match skip with
      | S k => replace_from old new k s'
      | O =>
          if starts_with old s
          then new ++ replace_from old new (length old - 1) s'
          else c :: replace_from old new 0 s'
      end
  end.

Definition replace (old new s : str) : str := replace_from old new 0 s.

Record news_source := {
  src_name : str; src_url : str; src_language : str; src_region : str;
  src_region_group : str
}.

(** The response of [get_news_sources]. The languages are listed from a
    set, in no particular order. *)
Record sources_response := {
  s_sources : list news_source;
  s_total : nat;
  s_regions : list str;
  s_languages : gset str
}.

(** The address shown for a feed. *)
Definition display_url (u : str) : str :=
  replace (s2u "/rss") []
    (replace (s2u "/feed") [] (replace (s2u "/feed/") [] u)).

Definition sources_of (group : str * list feed_config) : list news_source :=
  map (fun f => {| src_name := feed_name f; src_url := display_url (feed_url f);
                   src_language := feed_lang f; src_region := feed_region f;
                   src_region_group := group.1 |}) group.2.

(** [get_news_sources], over the feed registry it reads. *)
Definition get_news_sources (registry : list (str * list feed_config))
  : sources_response :=
  let sources := concat (map sources_of registry) in
  {| s_sources := sources;
     s_total := length sources;
     s_regions := registry.*1;
     s_languages := list_to_set (feed_lang <$> all_feeds registry) |}.

(** The feeds of the registry in its order, each with the key of the
    group it is listed in. *)
Definition grouped_feeds (registry : list (str * list feed_config))
  : list (str * feed_config) :=
  concat (map (fun group => map (fun f => (group.1, f)) group.2) registry).

Record news_category := {
  cat_id : str; cat_name : str; cat_icon : str;
  cat_name_de : str; cat_name_en : str
}.

Definition category_entry (i : string) (n icon de : str) (en : string)
  : news_category :=
  {| cat_id := s2u i; cat_name := n; cat_icon := icon;
     cat_name_de := de; cat_name_en := s2u en |}.

(** [get_news_categories]; the icons are given by their code points, as
    they stand in the source file. *)
Definition get_news_categories : list news_category :=
  [ category_entry "vehicles" (s2u "Neue Fahrzeuge")
      [240; 376; 353; 8212]%N (s2u "Neue Fahrzeuge") "New Vehicles";
    category_entry "battery" (s2u "Batterie & Reichweite")
      [240; 376; 8221; 8249]%N (s2u "Batterie & Reichweite")
      "Battery & Range";
    category_entry "charging" (s2u "Laden & Infrastruktur")
      [226; 353; 161]%N (s2u "Laden & Infrastruktur")
      "Charging & Infrastructure";
    category_entry "policy"
      (s2u "Politik & F" ++ [195; 182]%N ++ s2u "rderung")
      [240; 376; 8220; 339]%N
      (s2u "Politik & F" ++ [195; 182]%N ++ s2u "rderung")
      "Policy & Subsidies";
    category_entry "market" (s2u "Markt & Wirtschaft")
      [240; 376; 8220; 352]%N (s2u "Markt & Wirtschaft") "Market & Economy";
    category_entry "technology" (s2u "Technologie & Updates")
      [240; 376; 8221; 167]%N (s2u "Technologie & Updates")
      "Technology & Updates";
    category_entry "infrastructure" (s2u "Netzwerk & Ausbau")
      [240; 376; 338]%N (s2u "Netzwerk & Ausbau") "Network & Expansion";
    category_entry "general" (s2u "Allgemein")
      [240; 376; 8220; 176]%N (s2u "Allgemein") "General" ].

(** * Properties *)

(** ** Strings *)

Lemma starts_with_spec (p s : str) :
  starts_with p s = true <-> exists post, s = p ++ post.
Proof.
  revert s. induction p as [|a p IH]; intros s; simpl.
  - split; [intros _; by exists s | done].
  - destruct s as [|b s].
    + split; [done | intros [post H]; discriminate H].
    + rewrite andb_true_iff, N.eqb_eq, IH. split.
      * intros [-> [post ->]]. by exists post.
      * intros [post H]. injection H as -> ->. split; [done | by exists post].
Qed.

Lemma str_in_spec (needle hay : str) :
  str_in needle hay = true <-> is_substring needle hay.
Proof.
  unfold is_substring. induction hay as [|c hay IH].
  - simpl. rewrite orb_false_r, starts_with_spec. split.
    + intros [post H]. by exists [], post.
    + intros (pre & post & H). destruct pre; [by exists post|discriminate H].
  - cbn [str_in]. rewrite orb_true_iff, starts_with_spec, IH. split.
    + intros [[post H] | (pre & post & H)].
      * by exists [], post.
      * exists (c :: pre), post. by rewrite H.
    + intros (pre & post & H). destruct pre as [|c' pre].
      * left. by exists post.
      * right. injection H as -> ->. by exists pre, post.
Qed.

Lemma str_leb_refl (a : str) : str_leb a a = true.
Proof.
  induction a as [|x a IH]; simpl; [done|].
  by rewrite N.eqb_refl, IH, orb_true_r.
Qed.

Lemma str_leb_total (a b : str) : str_leb a b = false -> str_leb b a = true.
Proof.
  revert b. induction a as [|x a IH]; intros [|y b]; simpl; try done.
  rewrite orb_false_iff, andb_false_iff, N.ltb_ge, N.eqb_neq.
  intros [Hle [Hne | Hab]].
  - assert ((y <? x)%N = true) as -> by (apply N.ltb_lt; lia). done.
  - rewrite (IH _ Hab), andb_true_r.
    destruct (N.eq_dec y x) as [->|Hne].
    + by rewrite N.eqb_refl, orb_true_r.
    + assert ((y <? x)%N = true) as -> by (apply N.ltb_lt; lia). done.
Qed.

Lemma str_leb_trans (a b c : str) :
  str_leb a b = true -> str_leb b c = true -> str_leb a c = true.
Proof.
  revert b c. induction a as [|x a IH]; intros [|y b] [|z c]; simpl; try done.
  rewrite !orb_true_iff, !andb_true_iff, !N.ltb_lt, !N.eqb_eq.
  intros [Hxy | [-> Hab]] [Hyz | [-> Hbc]].
  - left. lia.
  - by left.
  - by left.
  - right. split; [done | by eapply IH].
Qed.

Lemma str_leb_antisym (a b : str) :
  str_leb a b = true -> str_leb b a = true -> a = b.
Proof.
  revert b. induction a as [|x a IH]; intros [|y b]; simpl; try done.
  rewrite !orb_true_iff, !andb_true_iff, !N.ltb_lt, !N.eqb_eq.
  intros [Hxy | [-> Hab]] [Hyx | [Heq Hba]]; try lia.
  f_equal. by apply IH.
Qed.

Lemma str_le_nil (b : str) : str_le [] b.
Proof. done. Qed.

(** ** Text normalisation *)

Lemma tag_free_no_gt (o : str) : GT ∉ o -> tag_free o.
Proof.
  intros Hno pre body post -> _. exfalso. apply Hno.
  rewrite elem_of_app, elem_of_cons, elem_of_app, elem_of_cons. auto.
Qed.

Lemma tag_free_cons (c : char) (o : str) :
  c <> LT -> tag_free o -> tag_free (c :: o).
Proof.
  intros Hc Ho [|c' pre] body post Heq Hbody.
  - injection Heq as -> _. done.
  - injection Heq as -> Heq. by eapply Ho.
Qed.

Lemma tag_free_empty_tag (o : str) : tag_free o -> tag_free (LT :: GT :: o).
Proof.
  intros Ho [|c1 [|c2 pre]] body post Heq Hbody.
  - injection Heq as Heq. destruct body as [|b body]; [done|].
    injection Heq as <- _. exfalso. apply Hbody. left.
  - injection Heq as _ Heq. discriminate Heq.
  - injection Heq as _ _ Heq. by eapply Ho.
Qed.

Lemma strip_tags_from_tag_free (s : str) (pending : option str) :
  match pending with
  | None => True
  | Some buf => GT ∉ buf
  end ->
  tag_free (strip_tags_from pending s).
Proof.
  revert pending. induction s as [|c s IH]; intros [buf|] Hp; simpl.
  - apply tag_free_no_gt. rewrite elem_of_cons. by intros [?|?].
  - by intros [|??] ??? ?.
  - destruct (N.eqb_spec c GT) as [->|Hc].
    + destruct buf; [apply tag_free_empty_tag|]; by apply IH.
    + apply IH. rewrite elem_of_app, list_elem_of_singleton.
      intros [?|?]; [done | by apply Hc].
  - destruct (N.eqb_spec c LT) as [->|Hc].
    + apply IH. by apply not_elem_of_nil.
    + apply tag_free_cons; [done | by apply IH].
Qed.

Lemma strip_tags_tag_free (s : str) : tag_free (strip_tags s).
Proof. by apply (strip_tags_from_tag_free s None). Qed.

Lemma collapse_from_only_spaces (b : bool) (s : str) :
  Forall (fun ch => is_space ch = true -> ch = SPACE) (collapse_from b s).
Proof.
  revert b. induction s as [|c s IH]; intros b; simpl; [done|].
  destruct (is_space c) eqn:Hc.
  - destruct b; [apply IH|]. constructor; [done | apply IH].
  - constructor; [|apply IH]. intros H. congruence.
Qed.

Lemma collapse_from_run_head (s : str) (ch : char) (rest : str) :
  collapse_from true s = ch :: rest -> is_space ch = false.
Proof.
  induction s as [|c s IH]; simpl; [done|].
  destruct (is_space c) eqn:Hc; [done|]. by intros [= <- _].
Qed.

Lemma collapse_from_no_double (b : bool) (s : str) (pre post : str) :
  collapse_from b s <> pre ++ SPACE :: SPACE :: post.
Proof.
  revert b pre. induction s as [|c s IH]; intros b pre; simpl.
  - by destruct pre.
  - destruct (is_space c) eqn:Hc.
    + destruct b; [apply IH|]. destruct pre as [|p pre].
      * intros [= H]. by apply collapse_from_run_head in H.
      * intros [= _ H]. by eapply IH.
    + destruct pre as [|p pre].
      * intros [= -> _]. done.
      * intros [= _ H]. by eapply IH.
Qed.

Lemma lstrip_suffix (s : str) : exists pre, s = pre ++ lstrip s.
Proof.
  induction s as [|c s [pre IH]]; simpl; [by exists []|].
  destruct (is_space c); [|by exists []].
  exists (c :: pre). simpl. by f_equal.
Qed.

Lemma lstrip_head (s : str) (ch : char) (rest : str) :
  lstrip s = ch :: rest -> is_space ch = false.
Proof.
  induction s as [|c s IH]; simpl; [done|].
  destruct (is_space c) eqn:Hc; [done|]. by intros [= <- _].
Qed.

Lemma lstrip_snoc (s : str) (x : char) :
  is_space x = false -> lstrip (s ++ [x]) = lstrip s ++ [x].
Proof.
  intros Hx. induction s as [|c s IH]; simpl; [by rewrite Hx|].
  by destruct (is_space c).
Qed.

Lemma rstrip_prefix (s : str) : exists post, s = rstrip s ++ post.
Proof.
  unfold rstrip. destruct (lstrip_suffix (rev s)) as [pre H].
  exists (rev pre). by rewrite <- rev_app_distr, <- H, rev_involutive.
Qed.

Lemma rstrip_last (s : str) (ch : char) (rest : str) :
  rstrip s = rest ++ [ch] -> is_space ch = false.
Proof.
  unfold rstrip. intros H. apply (f_equal (@rev N)) in H.
  rewrite rev_involutive, rev_app_distr in H. simpl in H.
  by apply lstrip_head in H.
Qed.

Lemma rstrip_cons (x : char) (s : str) :
  is_space x = false -> rstrip (x :: s) = x :: rstrip s.
Proof.
  intros Hx. unfold rstrip. simpl.
  by rewrite lstrip_snoc, rev_app_distr.
Qed.

Lemma strip_infix (s : str) : exists pre post, s = pre ++ strip s ++ post.
Proof.
  unfold strip. destruct (lstrip_suffix s) as [pre H].
  destruct (rstrip_prefix (lstrip s)) as [post H'].
  exists pre, post. by rewrite <- H', <- H.
Qed.

Lemma strip_collapse_single_spaced (s : str) :
  single_spaced (strip (collapse_ws s)).
Proof.
  destruct (strip_infix (collapse_ws s)) as (pre & post & Heq).
  repeat split.
  - pose proof (collapse_from_only_spaces false s) as H.
    fold (collapse_ws s) in H. rewrite Heq in H.
    by apply Forall_app in H as [_ [H _]%Forall_app].
  - intros pre' post' H. rewrite H in Heq.
    apply (collapse_from_no_double false s (pre ++ pre') (post' ++ post)).
    fold (collapse_ws s). rewrite Heq. by rewrite <- !app_assoc.
  - unfold strip. intros ch rest H.
    destruct (lstrip (collapse_ws s)) as [|x l] eqn:Hl; [done|].
    pose proof (lstrip_head _ _ _ Hl) as Hx.
    rewrite rstrip_cons in H by done. by injection H as <- _.
  - unfold strip. intros ch rest H. by apply rstrip_last in H.
Qed.

(** *** The steps of [clean_html] one by one *)

Lemma strip_tags_from_open (buf : str) (s : str) :
  GT ∉ s -> strip_tags_from (Some buf) s = LT :: buf ++ s.
Proof.
  revert buf. induction s as [|c s IH]; intros buf Hs; simpl.
  - by rewrite app_nil_r.
  - apply not_elem_of_cons in Hs as [Hc Hs].
    destruct (N.eqb_spec c GT) as [->|_]; [done|].
    rewrite IH by done. by rewrite <- app_assoc.
Qed.

Lemma strip_tags_from_close (buf body s : str) :
  GT ∉ body ->
  strip_tags_from (Some buf) (body ++ GT :: s)
  = match buf ++ body with
    | [] => LT :: GT :: strip_tags s
    | _ :: _ => strip_tags s
    end.
Proof.
  revert buf. induction body as [|c body IH]; intros buf Hb; simpl.
  - rewrite app_nil_r. by destruct buf.
  - apply not_elem_of_cons in Hb as [Hc Hb].
    destruct (N.eqb_spec c GT) as [->|_]; [done|].
    rewrite IH by done. by rewrite <- app_assoc.
Qed.

Lemma strip_tags_steps : strips_tags strip_tags.
Proof.
  unfold strips_tags, strip_tags. split; [done|]. split; [|split; [|split]].
  - intros c s Hc. simpl. by destruct (N.eqb_spec c LT).
  - intros body s Hne Hb. simpl. rewrite strip_tags_from_close by done.
    by destruct body.
  - done.
  - intros s Hs. simpl. by rewrite strip_tags_from_open.
Qed.

Lemma collapse_from_after_run (run s : str) :
  Forall (fun c => is_space c = true) run ->
  (forall c s', s = c :: s' -> is_space c = false) ->
  collapse_from true (run ++ s) = collapse_from false s.
Proof.
  intros Hrun Hs. induction Hrun as [|c run Hc _ IH]; simpl.
  - destruct s as [|c s]; [done|]. simpl. by rewrite (Hs c s eq_refl).
  - by rewrite Hc.
Qed.

Lemma collapse_ws_steps : collapses_white_space collapse_ws.
Proof.
  unfold collapses_white_space, collapse_ws. split; [done|]. split.
  - intros c s Hc. simpl. by rewrite Hc.
  - intros run s Hne Hrun Hs. destruct Hrun as [|c run Hc Hrun]; [done|].
    simpl. rewrite Hc. f_equal. by apply collapse_from_after_run.
Qed.

Lemma lstrip_spaces (l s : str) :
  Forall (fun c => is_space c = true) l -> lstrip (l ++ s) = lstrip s.
Proof.
  intros Hl. induction Hl as [|c l Hc _ IH]; simpl; [done|]. by rewrite Hc.
Qed.

Lemma lstrip_keeps (s : str) :
  (forall c s', s = c :: s' -> is_space c = false) -> lstrip s = s.
Proof.
  intros Hs. destruct s as [|c s]; [done|]. simpl. by rewrite (Hs c s eq_refl).
Qed.

Lemma strip_steps : trims strip.
Proof.
  intros l m r Hl Hr Hhead Hlast. unfold strip, rstrip.
  rewrite lstrip_spaces by done.
  destruct m as [|c m].
  - simpl. assert (lstrip r = []) as ->; [|done].
    rewrite <- (app_nil_r r). by rewrite lstrip_spaces.
  - rewrite (lstrip_keeps ((c :: m) ++ r)).
    2: { intros c' s' Heq. simpl in Heq. injection Heq as <- _. by eapply Hhead. }
    rewrite rev_app_distr, lstrip_spaces by by apply Forall_rev.
    rewrite lstrip_keeps; [apply rev_involutive|].
    intros c' s' Hrev. apply (Hlast c' (rev s')).
    rewrite <- (rev_involutive (c :: m)), Hrev. done.
Qed.

(** Each of the three descriptions fits one function only. *)
Lemma strips_tags_unique (f : str -> str) :
  strips_tags f -> forall s, f s = strip_tags s.
Proof.
  intros (F0 & F1 & F2 & F3 & F4).
  destruct strip_tags_steps as (G0 & G1 & G2 & G3 & G4).
  assert (forall n s, (length s <= n)%nat -> f s = strip_tags s) as Hn;
    [|intros s; by apply (Hn (length s))].
  induction n as [|n IH]; intros [|c s] Hlen; try by rewrite F0, G0.
  { simpl in Hlen. lia. }
  simpl in Hlen. destruct (decide (c = LT)) as [->|Hc].
  2: { rewrite F1, G1 by done. f_equal. apply IH. unfold char in *. lia. }
  destruct (decide (GT ∈ s)) as [Hin|Hout].
  2: { by rewrite F4, G4. }
  apply list_elem_of_split_l in Hin as (body & rest & -> & Hbody).
  rewrite length_app in Hlen. simpl in Hlen.
  destruct body as [|b body]; simpl in Hlen.
  - simpl. rewrite F3, G3. do 2 f_equal. apply IH. unfold char in *. lia.
  - rewrite F2, G2 by done. apply IH. unfold char in *. lia.
Qed.

Lemma leading_spaces (s : str) :
  exists run rest,
    s = run ++ rest
    /\ Forall (fun c => is_space c = true) run
    /\ (forall c s', rest = c :: s' -> is_space c = false).
Proof.
  induction s as [|c s (run & rest & -> & Hrun & Hrest)].
  - exists [], []. by repeat split.
  - destruct (is_space c) eqn:Hc.
    + exists (c :: run), rest. repeat split; [by constructor | done].
    + exists [], (c :: run ++ rest). repeat split; [done|].
      by intros ?? [= <- _].
Qed.

Lemma collapses_white_space_unique (f : str -> str) :
  collapses_white_space f -> forall s, f s = collapse_ws s.
Proof.
  intros (F0 & F1 & F2).
  destruct collapse_ws_steps as (G0 & G1 & G2).
  assert (forall n s, (length s <= n)%nat -> f s = collapse_ws s) as Hn;
    [|intros s; by apply (Hn (length s))].
  induction n as [|n IH]; intros [|c s] Hlen; try by rewrite F0, G0.
  { simpl in Hlen. lia. }
  simpl in Hlen. destruct (is_space c) eqn:Hc.
  2: { rewrite F1, G1 by done. f_equal. apply IH. unfold char in *. lia. }
  destruct (leading_spaces s) as (run & rest & -> & Hrun & Hrest).
  rewrite length_app in Hlen.
  change (c :: run ++ rest) with ((c :: run) ++ rest).
  rewrite F2, G2 by (done || by constructor). f_equal. apply IH. unfold char in *. lia.
Qed.

Lemma trailing_spaces (s : str) :
  exists rest run,
    s = rest ++ run
    /\ Forall (fun c => is_space c = true) run
    /\ (forall c s', rest = s' ++ [c] -> is_space c = false).
Proof.
  destruct (leading_spaces (rev s)) as (run & rest & Heq & Hrun & Hrest).
  exists (rev rest), (rev run). split; [|split].
  - by rewrite <- rev_app_distr, <- Heq, rev_involutive.
  - by apply Forall_rev.
  - intros c s' Hr. apply (Hrest c (rev s')).
    rewrite <- (rev_involutive rest), Hr, rev_app_distr. done.
Qed.

Lemma trims_unique (f : str -> str) : trims f -> forall s, f s = strip s.
Proof.
  intros F s.
  destruct (leading_spaces s) as (l & s1 & -> & Hl & Hhead).
  destruct (trailing_spaces s1) as (m & r & -> & Hr & Hlast).
  assert (forall c0 m', m = c0 :: m' -> is_space c0 = false) as Hm.
  { intros c0 m' ->. by apply (Hhead c0 (m' ++ r)). }
  transitivity m; [by apply F | symmetry; by apply strip_steps].
Qed.

(** *** Character references *)

Local Open Scope N_scope.

Lemma span_app (p : char -> bool) (n : nat) (a s : str) :
  Forall (fun c => p c = true) a -> (length a <= n)%nat ->
  (forall c s', s = c :: s' -> p c = false) ->
  span p n (a ++ s) = a.
Proof.
  intros Ha. revert n. induction Ha as [|c a Hc _ IH]; intros n Hn Hs; simpl.
  - destruct n as [|n]; [done|]. destruct s as [|c s]; [done|].
    simpl. by rewrite (Hs c s eq_refl).
  - destruct n as [|n]; [simpl in Hn; lia|]. simpl. rewrite Hc.
    f_equal. apply IH; [simpl in Hn; lia | done].
Qed.

Lemma span_full (p : char -> bool) (a s : str) :
  Forall (fun c => p c = true) a -> span p (length a) (a ++ s) = a.
Proof.
  intros Ha. induction Ha as [|c a Hc _ IH]; simpl; [done|].
  by rewrite Hc, IH.
Qed.

Lemma span_prefix (p : char -> bool) (n : nat) (s : str) :
  s = span p n s ++ drop (length (span p n s)) s
  /\ Forall (fun c => p c = true) (span p n s).
Proof.
  revert s. induction n as [|n IH]; intros [|c s]; simpl; try done.
  destruct (p c) eqn:Hc; [|done]. destruct (IH s) as [Heq Hall].
  simpl. split; [by f_equal | by constructor].
Qed.

Lemma digit_not_semicolon (c : char) : is_digit c = true -> c <> SEMI.
Proof.
  unfold is_digit, SEMI. rewrite andb_true_iff, !N.leb_le. lia.
Qed.

Lemma hex_digit_not_semicolon (c : char) : is_hex_digit c = true -> c <> SEMI.
Proof.
  unfold is_hex_digit, is_digit, SEMI.
  rewrite !orb_true_iff, !andb_true_iff, !N.leb_le. lia.
Qed.

Lemma digit_not_x (c : char) :
  is_digit c = true -> (c =? 120) || (c =? 88) = false.
Proof.
  unfold is_digit. rewrite andb_true_iff, !N.leb_le, orb_false_iff, !N.eqb_neq.
  lia.
Qed.

Lemma digit_not_name_start (c : char) :
  is_digit c = true -> (c =? HASH) = false.
Proof.
  unfold is_digit, HASH. rewrite andb_true_iff, !N.leb_le, N.eqb_neq. lia.
Qed.

Lemma opt_semicolon_cases (rest : str) :
  opt_semicolon rest = [] \/ opt_semicolon rest = [SEMI].
Proof.
  destruct rest as [|c rest]; [by left|]. simpl.
  destruct (c =? SEMI); auto.
Qed.

Lemma opt_semicolon_prefix (rest : str) :
  rest = opt_semicolon rest ++ drop (length (opt_semicolon rest)) rest.
Proof.
  destruct rest as [|c rest]; [done|]. simpl.
  destruct (N.eqb_spec c SEMI) as [->|_]; done.
Qed.

Lemma rstrip_semicolons_tail (ds tail : str) :
  Forall (fun c => c <> SEMI) ds ->
  tail = [] \/ tail = [SEMI] ->
  rstrip_semicolons (ds ++ tail) = ds.
Proof.
  intros Hds Htail. unfold rstrip_semicolons.
  assert (skip_semicolons (rev ds) = rev ds) as Hkeep.
  { assert (forall l : str, Forall (fun c => c <> SEMI) l ->
              skip_semicolons l = l) as Hl.
    { intros [|c l] H; [done|]. apply Forall_cons in H as [Hc _]. simpl.
      by destruct (N.eqb_spec c SEMI). }
    apply Hl. by apply Forall_rev. }
  destruct Htail as [-> | ->].
  - by rewrite app_nil_r, Hkeep, rev_involutive.
  - rewrite rev_app_distr. simpl. by rewrite Hkeep, rev_involutive.
Qed.

Lemma charref_sub_skip (rt : PyRuntime) (a s : str) :
  charref_sub_from rt (length a) (a ++ s) = charref_sub_from rt 0 s.
Proof. induction a as [|c a IH]; [done | exact IH]. Qed.

Lemma charref_sub_no_amp (rt : PyRuntime) (s : str) :
  AMP ∉ s -> charref_sub_from rt 0 s = inr s.
Proof.
  induction s as [|c s IH]; intros Hs; simpl; [done|].
  apply not_elem_of_cons in Hs as [Hc Hs].
  destruct (N.eqb_spec c AMP) as [->|_]; [done|]. by rewrite IH.
Qed.

Lemma unescape_sub (rt : PyRuntime) (s : str) :
  unescape rt s = charref_sub_from rt 0 s.
Proof.
  unfold unescape. case_decide as Hs; [done|]. by rewrite charref_sub_no_amp.
Qed.

(** One step of the substitution at an [&] that starts a match. *)
Lemma charref_sub_at (rt : PyRuntime) (group rest : str) :
  charref_match (group ++ rest) = Some group ->
  charref_sub_from rt 0 (AMP :: group ++ rest)
  = match replace_charref rt group with
    | inl e => inl e
    | inr text => prepend text (charref_sub_from rt 0 rest)
    end.
Proof.
  intros Hm. cbn [charref_sub_from]. rewrite N.eqb_refl, Hm.
  by rewrite charref_sub_skip.
Qed.

Lemma int_decimal_accepts (rt : PyRuntime) (ds : str) :
  int_accepts rt (length ds) -> int_decimal rt ds = inr (int_of 10 ds).
Proof.
  unfold int_accepts, int_decimal. cbv zeta. intros H.
  destruct (Nat.ltb_spec 640 (length ds)); [|done].
  destruct (Nat.ltb_spec 0 (int_max_str_digits rt)); [|done].
  destruct (Nat.ltb_spec (int_max_str_digits rt) (length ds)); [lia | done].
Qed.

Lemma int_decimal_refuses (rt : PyRuntime) (ds : str) :
  ~ int_accepts rt (length ds) -> int_decimal rt ds = inl ValueError.
Proof.
  unfold int_accepts, int_decimal. cbv zeta. intros H.
  destruct (Nat.ltb_spec 640 (length ds)); [|lia].
  destruct (Nat.ltb_spec 0 (int_max_str_digits rt)); [|lia].
  destruct (Nat.ltb_spec (int_max_str_digits rt) (length ds)); [done | lia].
Qed.

(** The group of a decimal reference and what replaces it. *)
Lemma match_decimal_digits (ds s : str) :
  ds <> [] -> Forall (fun c => is_digit c = true) ds ->
  (forall c s', s = c :: s' -> is_digit c = false) ->
  charref_match (HASH :: ds ++ s) = Some (HASH :: ds ++ opt_semicolon s).
Proof.
  intros Hne Hds Hs. unfold charref_match, match_decimal.
  rewrite N.eqb_refl, span_app; [|done|rewrite length_app; lia|done].
  destruct ds as [|c ds]; [done|].
  by rewrite (drop_app_length (c :: ds) s).
Qed.

Lemma replace_decimal (rt : PyRuntime) (ds tail : str) :
  ds <> [] -> Forall (fun c => is_digit c = true) ds ->
  tail = [] \/ tail = [SEMI] ->
  replace_charref rt (HASH :: ds ++ tail)
  = match int_decimal rt ds with
    | inl e => inl e
    | inr num => inr (numeric_replacement num)
    end.
Proof.
  intros Hne Hds Htail. cbn [replace_charref]. rewrite N.eqb_refl.
  rewrite rstrip_semicolons_tail; [|by eapply Forall_impl; [exact Hds|apply digit_not_semicolon]|done].
  destruct Hds as [|c ds Hc Hds]; [done|]. simpl.
  by rewrite (digit_not_x c Hc).
Qed.

Lemma name_char_not_hash (c : char) : is_name_char c = true -> (c =? HASH) = false.
Proof.
  unfold is_name_char. rewrite negb_true_iff, !orb_false_iff. tauto.
Qed.

Lemma match_hex_digits (x : char) (hs s : str) :
  x = 120 \/ x = 88 ->
  hs <> [] -> Forall (fun c => is_hex_digit c = true) hs ->
  (forall c s', s = c :: s' -> is_hex_digit c = false) ->
  charref_match (HASH :: x :: hs ++ s) = Some (HASH :: x :: hs ++ opt_semicolon s).
Proof.
  intros Hx Hne Hhs Hs. unfold charref_match, match_decimal, match_hex.
  rewrite N.eqb_refl.
  assert (is_digit x = false) as Hnd by (by destruct Hx as [-> | ->]).
  assert ((x =? 120) || (x =? 88) = true) as Hxx by (by destruct Hx as [-> | ->]).
  cbn [length span]. rewrite Hnd, Hxx. cbn [andb].
  rewrite span_app; [|done|rewrite length_app; lia|done].
  destruct hs as [|c hs]; [done|].
  change (drop (S (length hs)) ((c :: hs) ++ s))
    with (drop (length hs) (hs ++ s)).
  by rewrite drop_app_length.
Qed.

Lemma replace_hex (rt : PyRuntime) (x : char) (hs tail : str) :
  x = 120 \/ x = 88 ->
  Forall (fun c => is_hex_digit c = true) hs ->
  tail = [] \/ tail = [SEMI] ->
  replace_charref rt (HASH :: x :: hs ++ tail)
  = inr (numeric_replacement (int_of 16 hs)).
Proof.
  intros Hx Hhs Htail. cbn [replace_charref]. rewrite N.eqb_refl.
  assert ((x =? 120) || (x =? 88) = true) as -> by (by destruct Hx as [-> | ->]).
  rewrite rstrip_semicolons_tail; [done| |done].
  eapply Forall_impl; [exact Hhs | apply hex_digit_not_semicolon].
Qed.

Lemma match_name (name s : str) :
  name <> [] -> (length name <= 32)%nat ->
  Forall (fun c => is_name_char c = true) name ->
  (forall c s', s = c :: s' -> is_name_char c = false) ->
  charref_match (name ++ s) = Some (name ++ opt_semicolon s).
Proof.
  intros Hne Hlen Hname Hs. unfold charref_match.
  destruct name as [|c name]; [done|].
  apply Forall_cons in Hname as [Hc Hname].
  pose proof (name_char_not_hash c Hc) as Hh.
  assert (match_decimal ((c :: name) ++ s) = None) as ->.
  { simpl. by rewrite Hh. }
  assert (match_hex ((c :: name) ++ s) = None) as ->.
  { simpl. rewrite Hh. by destruct (name ++ s). }
  unfold match_named.
  rewrite span_app; [|by constructor|done|done].
  by rewrite (drop_app_length (c :: name) s).
Qed.

Lemma replace_name (rt : PyRuntime) (name tail : str) :
  name <> [] -> Forall (fun c => is_name_char c = true) name ->
  replace_charref rt (name ++ tail)
  = inr (replace_named (html5 rt) (name ++ tail)).
Proof.
  intros Hne Hname. destruct name as [|c name]; [done|].
  apply Forall_cons in Hname as [Hc _]. simpl.
  by rewrite (name_char_not_hash c Hc).
Qed.

Lemma no_match (s : str) :
  (forall c s', s = c :: s' -> is_name_char c = false /\ c <> HASH) ->
  charref_match s = None.
Proof.
  intros Hs. destruct s as [|c s]; [done|].
  destruct (Hs c s eq_refl) as [Hn Hh].
  apply N.eqb_neq in Hh.
  unfold charref_match, match_decimal, match_hex, match_named.
  rewrite Hh. simpl. rewrite Hn. by destruct s.
Qed.

Lemma plain_number_replacement (num : N) :
  plain_number num -> numeric_replacement num = [num].
Proof.
  unfold plain_number, numeric_replacement. intros Hnum.
  assert (table_get invalid_charrefs num = None) as ->.
  { cbn [table_get invalid_charrefs].
    repeat (match goal with
            | |- context [N.eqb ?k num] =>
                destruct (N.eqb_spec k num) as [?|?]; [lia|]
            end).
    done. }
  assert ((((55296 <=? num) && (num <=? 57343)) || (1114111 <? num)) = false)
    as ->.
  { apply orb_false_iff. rewrite andb_false_iff, !N.leb_gt, N.ltb_ge. lia. }
  rewrite bool_decide_eq_false_2; [done|].
  unfold invalid_codepoints. intros H.
  repeat (apply elem_of_cons in H as [H|H]; [lia|]).
  by apply elem_of_nil in H.
Qed.

Lemma charref_table_replacement (num : N) (r : str) :
  (num, r) ∈ invalid_charrefs -> numeric_replacement num = r.
Proof.
  unfold invalid_charrefs. intros H.
  repeat (apply elem_of_cons in H as [[= -> ->]|H]; [by vm_compute|]).
  by apply elem_of_nil in H.
Qed.

Lemma no_character_replacement (num : N) :
  55296 <= num <= 57343 \/ 1114111 < num ->
  numeric_replacement num = [REPLACEMENT].
Proof.
  unfold numeric_replacement. intros Hnum.
  assert (table_get invalid_charrefs num = None) as ->.
  { cbn [table_get invalid_charrefs].
    repeat (match goal with
            | |- context [N.eqb ?k num] =>
                destruct (N.eqb_spec k num) as [?|?]; [lia|]
            end).
    done. }
  assert ((((55296 <=? num) && (num <=? 57343)) || (1114111 <? num)) = true)
    as ->; [|done].
  rewrite orb_true_iff, andb_true_iff, !N.leb_le, N.ltb_lt. lia.
Qed.

Lemma dropped_number_replacement (num : N) :
  num ∈ invalid_codepoints -> num ∉ invalid_charrefs.*1 ->
  numeric_replacement num = [].
Proof.
  unfold invalid_codepoints. intros H Hkeys.
  repeat (apply elem_of_cons in H as [->|H];
          [first [by vm_compute
                 |exfalso; apply Hkeys; apply (bool_decide_unpack _);
                  by vm_compute]|]).
  by apply elem_of_nil in H.
Qed.

Lemma longest_name_unknown (table : str -> option str) (s : str) (x : nat) :
  (forall y, (2 <= y <= x)%nat -> table (take y s) = None) ->
  longest_name table s x = AMP :: s.
Proof.
  induction x as [|x IH]; intros Hnone; [done|].
  destruct x as [|x]; [done|]. cbn [longest_name].
  rewrite Hnone by lia. apply IH. intros y Hy. apply Hnone. lia.
Qed.

Lemma unescape_steps (rt : PyRuntime) : decodes_references rt (unescape rt).
Proof.
  unfold decodes_references.
  split; [|split; [|split; [|split; [|split; [|split; [|split;
    [|split; [|split; [|split; [|split]]]]]]]]]].
  9: apply plain_number_replacement.
  9: apply charref_table_replacement.
  9: apply no_character_replacement.
  9: apply dropped_number_replacement.
  8: { intros name s Hne Hlen Hname Hnone. rewrite !unescape_sub.
       assert (1 <= length name)%nat as Hpos
         by (destruct name; [done | simpl; lia]).
       replace (AMP :: name ++ SEMI :: s) with (AMP :: (name ++ [SEMI]) ++ s)
         by (by rewrite <- app_assoc).
       rewrite charref_sub_at.
       - rewrite replace_name by done. unfold replace_named.
         pose proof (Hnone (length name + 1)%nat) as Hfull.
         rewrite take_ge in Hfull by (rewrite length_app; simpl; lia).
         unfold char in *. rewrite Hfull by lia.
         rewrite longest_name_unknown; [done|].
         intros y Hy. apply Hnone. rewrite length_app in Hy. simpl in Hy. lia.
       - rewrite <- app_assoc.
         apply (match_name name (SEMI :: s)); [done | done | done |].
         by intros ?? [= <- _]. }
  - intros s Hs. unfold unescape. by rewrite decide_False.
  - intros c s Hc. rewrite !unescape_sub. cbn [charref_sub_from].
    apply N.eqb_neq in Hc. rewrite Hc.
    by destruct (charref_sub_from rt 0 s).
  - intros s Hs. rewrite !unescape_sub. cbn [charref_sub_from].
    rewrite N.eqb_refl, (no_match s Hs).
    by destruct (charref_sub_from rt 0 s).
  - intros name v s Hne Hlen Hname Hv. rewrite !unescape_sub.
    replace (AMP :: name ++ SEMI :: s) with (AMP :: (name ++ [SEMI]) ++ s)
      by (by rewrite <- app_assoc).
    rewrite charref_sub_at.
    + rewrite replace_name by done. unfold replace_named, char in *.
      by rewrite Hv.
    + rewrite <- app_assoc.
      apply (match_name name (SEMI :: s)); [done | done | done |].
      by intros ?? [= <- _].
  - intros ds s Hne Hds Hacc. rewrite !unescape_sub.
    replace (AMP :: HASH :: ds ++ SEMI :: s)
      with (AMP :: (HASH :: ds ++ [SEMI]) ++ s)
      by (simpl; by rewrite <- app_assoc).
    rewrite charref_sub_at.
    + rewrite replace_decimal by (done || by right).
      by rewrite int_decimal_accepts.
    + simpl. rewrite <- app_assoc.
      apply (match_decimal_digits ds (SEMI :: s)); [done | done |].
      by intros ?? [= <- _].
  - intros x hs s Hx Hne Hhs. rewrite !unescape_sub.
    replace (AMP :: HASH :: x :: hs ++ SEMI :: s)
      with (AMP :: (HASH :: x :: hs ++ [SEMI]) ++ s)
      by (simpl; by rewrite <- app_assoc).
    rewrite charref_sub_at.
    + by rewrite replace_hex by (done || by right).
    + simpl. rewrite <- app_assoc.
      apply (match_hex_digits x hs (SEMI :: s)); [done | done | done |].
      by intros ?? [= <- _].
  - intros ds s Hds Href Hs. rewrite unescape_sub.
    assert (ds <> []) as Hne.
    { intros ->. apply Href. left. simpl. lia. }
    pose proof (match_decimal_digits ds s Hne Hds Hs) as Hm.
    cbn [charref_sub_from]. unfold char in *. rewrite N.eqb_refl, Hm.
    rewrite replace_decimal by (done || apply opt_semicolon_cases).
    by rewrite int_decimal_refuses.
Qed.

(** A reference is replaced unless it is a decimal number that [int]
    refuses. *)
Lemma replace_charref_answers (rt : PyRuntime) (s group : str) :
  charref_match s = Some group ->
  (forall ds post, s = HASH :: ds ++ post ->
     Forall (fun c => is_digit c = true) ds -> int_accepts rt (length ds)) ->
  exists text, replace_charref rt group = inr text.
Proof.
  intros Hm Hacc. unfold charref_match in Hm.
  destruct (match_decimal s) as [g|] eqn:Hd.
  - injection Hm as ->. unfold match_decimal in Hd.
    destruct s as [|c s1]; [done|].
    destruct (N.eqb_spec c HASH) as [->|_]; [|done].
    destruct (span_prefix is_digit (length s1) s1) as [Heq Hall].
    destruct (span is_digit (length s1) s1) as [|d ds] eqn:Hspan; [done|].
    pose proof (replace_decimal rt (d :: ds)
                  (opt_semicolon (drop (length (d :: ds)) s1))
                  ltac:(done) Hall (opt_semicolon_cases _)) as Hrep.
    rewrite int_decimal_accepts in Hrep.
    2: { apply (Hacc (d :: ds) (drop (length (d :: ds)) s1)); [|done].
         simpl. f_equal. exact Heq. }
    injection Hd as <-. eexists. exact Hrep.
  - destruct (match_hex s) as [g|] eqn:Hh.
    + injection Hm as ->. unfold match_hex in Hh.
      destruct s as [|c [|x s2]]; [done | done |].
      destruct (N.eqb_spec c HASH) as [->|_]; [|done].
      destruct ((x =? 120) || (x =? 88)) eqn:Hx; [|done]. cbn [andb] in Hh.
      destruct (span is_hex_digit (length s2) s2) as [|h hs]; [done|].
      injection Hh as <-. cbn [replace_charref]. rewrite N.eqb_refl, Hx.
      by eexists.
    + unfold match_named in Hm.
      destruct (span_prefix is_name_char 32 s) as [_ Hall].
      destruct (span is_name_char 32 s) as [|c name]; [done|].
      pose proof (replace_name rt (c :: name)
                    (opt_semicolon (drop (length (c :: name)) s))
                    ltac:(done) Hall) as Hrep.
      injection Hm as <-. eexists. exact Hrep.
Qed.

Lemma convertible_tail (rt : PyRuntime) (c : char) (s : str) :
  convertible rt (c :: s) -> convertible rt s.
Proof.
  intros H pre ds post -> Hds. by apply (H (c :: pre) ds post).
Qed.

Lemma charref_sub_answers (rt : PyRuntime) (s : str) (skip : nat) :
  convertible rt s -> exists u, charref_sub_from rt skip s = inr u.
Proof.
  revert skip. induction s as [|c s IH]; intros skip Hconv; simpl.
  - by eexists.
  - pose proof (convertible_tail rt c s Hconv) as Htail.
    destruct skip as [|k]; [|by apply IH].
    destruct (N.eqb_spec c AMP) as [->|_].
    + destruct (charref_match s) as [group|] eqn:Hm.
      * destruct (replace_charref_answers rt s group Hm) as [text ->].
        { intros ds post -> Hds. by apply (Hconv [] ds post). }
        destruct (IH (length group) Htail) as [rest ->]. by eexists.
      * destruct (IH 0%nat Htail) as [rest ->]. by eexists.
    + destruct (IH 0%nat Htail) as [rest ->]. by eexists.
Qed.

Lemma unescape_answers (rt : PyRuntime) (s : str) :
  convertible rt s -> exists u, unescape rt s = inr u.
Proof. rewrite unescape_sub. apply charref_sub_answers. Qed.

Lemma convertible_no_amp (rt : PyRuntime) (s : str) :
  AMP ∉ s -> convertible rt s.
Proof.
  intros Hs pre ds post -> _. destruct Hs.
  apply elem_of_app. right. left.
Qed.

Lemma span_longest (p : char -> bool) (ds post : str) :
  Forall (fun c => p c = true) ds ->
  (length ds <= length (span p (length (ds ++ post)) (ds ++ post)))%nat.
Proof.
  intros Hds. induction Hds as [|c ds Hc _ IH]; simpl; [lia|].
  rewrite Hc. simpl. lia.
Qed.

Lemma int_accepts_fewer (rt : PyRuntime) (n m : nat) :
  (n <= m)%nat -> int_accepts rt m -> int_accepts rt n.
Proof. unfold int_accepts. lia. Qed.

Lemma int_decimal_inr (rt : PyRuntime) (ds : str) (num : N) :
  int_decimal rt ds = inr num -> int_accepts rt (length ds).
Proof.
  intros H. destruct (decide (int_accepts rt (length ds))) as [|Hno]; [done|].
  by rewrite int_decimal_refuses in H.
Qed.

Lemma group_split (front run s1 : str) :
  s1 = run ++ drop (length run) s1 ->
  front ++ s1
  = (front ++ run ++ opt_semicolon (drop (length run) s1))
    ++ drop (length (opt_semicolon (drop (length run) s1)))
         (drop (length run) s1).
Proof.
  intros Heq. rewrite <- !app_assoc, <- opt_semicolon_prefix.
  by rewrite <- Heq.
Qed.

(** The characters of a group: none of them is an [&]. *)
Lemma charref_match_group (s group : str) :
  charref_match s = Some group ->
  (AMP ∉ group) /\ exists rest, s = group ++ rest.
Proof.
  unfold charref_match. intros Hm.
  assert (forall tail, tail = [] \/ tail = [SEMI] -> AMP ∉ tail) as Htail.
  { intros tail [-> | ->]; apply (bool_decide_unpack _); by vm_compute. }
  destruct (match_decimal s) as [g|] eqn:Hd.
  - injection Hm as ->. unfold match_decimal in Hd.
    destruct s as [|c s1]; [done|].
    destruct (N.eqb_spec c HASH) as [->|_]; [|done].
    destruct (span_prefix is_digit (length s1) s1) as [Heq Hall].
    destruct (span is_digit (length s1) s1) as [|d ds] eqn:Hspan; [done|].
    injection Hd as <-. split.
    + intros Hin. apply elem_of_cons in Hin as [Hin|Hin]; [done|].
      apply (elem_of_app (d :: ds)) in Hin as [Hin|Hin].
      * eapply Forall_forall in Hall; [|exact Hin]. by vm_compute in Hall.
      * by apply (Htail _ (opt_semicolon_cases _)) in Hin.
    + eexists. exact (group_split [HASH] (d :: ds) s1 Heq).
  - destruct (match_hex s) as [g|] eqn:Hh.
    + injection Hm as ->. unfold match_hex in Hh.
      destruct s as [|c [|x s2]]; [done | done |].
      destruct (N.eqb_spec c HASH) as [->|_]; [|done].
      destruct ((x =? 120) || (x =? 88)) eqn:Hx; [|done]. cbn [andb] in Hh.
      destruct (span_prefix is_hex_digit (length s2) s2) as [Heq Hall].
      destruct (span is_hex_digit (length s2) s2) as [|h hs] eqn:Hspan; [done|].
      injection Hh as <-. split.
      * intros Hin. apply elem_of_cons in Hin as [Hin|Hin]; [done|].
        apply elem_of_cons in Hin as [Hin|Hin]; [by rewrite <- Hin in Hx|].
        apply (elem_of_app (h :: hs)) in Hin as [Hin|Hin].
        -- eapply Forall_forall in Hall; [|exact Hin]. by vm_compute in Hall.
        -- by apply (Htail _ (opt_semicolon_cases _)) in Hin.
      * eexists. exact (group_split [HASH; x] (h :: hs) s2 Heq).
    + unfold match_named in Hm.
      destruct (span_prefix is_name_char 32 s) as [Heq Hall].
      destruct (span is_name_char 32 s) as [|c name] eqn:Hspan; [done|].
      injection Hm as <-. split.
      * intros Hin. apply (elem_of_app (c :: name)) in Hin as [Hin|Hin].
        -- eapply Forall_forall in Hall; [|exact Hin]. by vm_compute in Hall.
        -- by apply (Htail _ (opt_semicolon_cases _)) in Hin.
      * eexists. exact (group_split [] (c :: name) s Heq).
Qed.

(** At an [&] that is followed by [#] and digits the decimal alternative
    matches, and the number is the whole run of digits. *)
Lemma decimal_reference_found (rt : PyRuntime) (ds post : str) :
  ds <> [] -> Forall (fun c => is_digit c = true) ds ->
  exists group run,
    charref_match (HASH :: ds ++ post) = Some group
    /\ (length ds <= length run)%nat
    /\ replace_charref rt group
       = match int_decimal rt run with
         | inl e => inl e
         | inr num => inr (numeric_replacement num)
         end.
Proof.
  intros Hne Hds. unfold charref_match, match_decimal. rewrite N.eqb_refl.
  pose proof (span_longest is_digit ds post Hds) as Hlong.
  destruct (span_prefix is_digit (length (ds ++ post)) (ds ++ post))
    as [_ Hall].
  destruct (span is_digit (length (ds ++ post)) (ds ++ post))
    as [|d run] eqn:Hspan.
  { destruct ds; [done | simpl in Hlong; lia]. }
  eexists _, (d :: run). split; [done|]. split; [done|].
  apply (replace_decimal rt (d :: run)); [done | done |].
  apply opt_semicolon_cases.
Qed.

Lemma charref_sub_convertible (rt : PyRuntime) (s : str) (skip : nat)
    (u : str) :
  charref_sub_from rt skip s = inr u -> AMP ∉ take skip s ->
  convertible rt s.
Proof.
  revert skip u. induction s as [|c s IH]; intros skip u Hsub Hskip.
  { intros [|??] ?? Heq; discriminate Heq. }
  assert (convertible rt s ->
          (c = AMP -> forall ds post, s = HASH :: ds ++ post ->
             Forall (fun c => is_digit c = true) ds ->
             int_accepts rt (length ds)) ->
          convertible rt (c :: s)) as Hcons.
  { intros Htail Hhere [|c' pre] ds post Heq Hds.
    - injection Heq as -> ->. by eapply Hhere.
    - injection Heq as _ ->. by eapply Htail. }
  simpl in Hsub. destruct skip as [|k].
  - assert (forall group, charref_match s = Some group ->
              forall text, replace_charref rt group = inr text ->
              forall ds post, s = HASH :: ds ++ post ->
              Forall (fun c => is_digit c = true) ds ->
              int_accepts rt (length ds)) as Hdec.
    { intros group Hm text Hrep ds post -> Hds.
      destruct ds as [|d ds]; [left; simpl; lia|].
      destruct (decimal_reference_found rt (d :: ds) post ltac:(done) Hds)
        as (g & run & Hg & Hlen & Hrun).
      assert (Some g = Some group) as [= <-] by (rewrite <- Hg; exact Hm).
      rewrite Hrun in Hrep.
      destruct (int_decimal rt run) as [|num] eqn:Hint; [done|].
      eapply int_accepts_fewer; [exact Hlen|]. by eapply int_decimal_inr. }
    destruct (N.eqb_spec c AMP) as [->|Hc].
    + destruct (charref_match s) as [group|] eqn:Hm.
      * destruct (replace_charref rt group) as [|text] eqn:Hrep; [done|].
        destruct (charref_sub_from rt (length group) s) as [|rest] eqn:Hrest;
          [done|].
        destruct (charref_match_group s group Hm) as [Hamp [tail ->]].
        apply Hcons.
        -- eapply IH; [exact Hrest|]. by rewrite take_app_length.
        -- intros _. by eapply Hdec.
      * destruct (charref_sub_from rt 0 s) as [|rest] eqn:Hrest; [done|].
        apply Hcons.
        -- eapply IH; [exact Hrest|]. rewrite take_0. apply not_elem_of_nil.
        -- intros _ ds post -> Hds.
           destruct ds as [|d ds]; [left; simpl; lia|].
           destruct (decimal_reference_found rt (d :: ds) post ltac:(done) Hds)
             as (g & run & Hg & _).
           assert (Some g = None) as Hno by (rewrite <- Hg; exact Hm).
           done.
    + destruct (charref_sub_from rt 0 s) as [|rest] eqn:Hrest; [done|].
      apply Hcons; [|done].
      eapply IH; [exact Hrest|]. rewrite take_0. apply not_elem_of_nil.
  - simpl in Hskip. apply not_elem_of_cons in Hskip as [Hc Hskip].
    apply Hcons; [by eapply IH | done].
Qed.

Lemma unescape_convertible (rt : PyRuntime) (s u : str) :
  unescape rt s = inr u -> convertible rt s.
Proof.
  rewrite unescape_sub. intros Hu.
  eapply charref_sub_convertible; [exact Hu|].
  rewrite take_0. apply not_elem_of_nil.
Qed.

Lemma charref_sub_raises (rt : PyRuntime) (s : str) (skip : nat) (e : exn) :
  charref_sub_from rt skip s = inl e -> e = ValueError.
Proof.
  revert skip. induction s as [|c s IH]; intros skip; simpl; [done|].
  destruct skip as [|k]; [|apply IH].
  destruct (if c =? AMP then charref_match s else None) as [group|].
  - destruct (replace_charref rt group) as [e'|text] eqn:Hrep.
    + intros [= <-]. revert Hrep. unfold replace_charref.
      destruct group as [|g [|x s2]]; try done;
        destruct (g =? HASH); try done.
      destruct ((x =? 120) || (x =? 88)); [done|].
      unfold int_decimal. cbv zeta.
      by destruct (_ && _); [intros [= <-]|].
    + destruct (charref_sub_from rt (length group) s) eqn:Hrest; [|done].
      intros [= <-]. by eapply IH.
  - destruct (charref_sub_from rt 0 s) eqn:Hrest; [|done].
    intros [= <-]. by eapply IH.
Qed.

Local Open Scope Z_scope.

(** *** The whole of [clean_html] *)

Lemma cap_long (clean : str) :
  (500 < length clean)%nat ->
  cap clean = take 500 clean ++ s2u "..." /\ length (cap clean) = 503%nat.
Proof.
  intros Hlong. unfold cap. apply Nat.ltb_lt in Hlong as Hb. rewrite Hb.
  split; [done|]. rewrite length_app, length_take.
  change (length ELLIPSIS) with 3%nat. lia.
Qed.

Lemma cap_short (clean : str) : (length clean <= 500)%nat -> cap clean = clean.
Proof. intros Hshort. unfold cap. apply Nat.ltb_ge in Hshort. by rewrite Hshort. Qed.

Lemma cap_length (clean : str) : (length (cap clean) <= 503)%nat.
Proof.
  destruct (Nat.ltb_spec 500 (length clean)) as [Hlong|Hshort].
  - destruct (cap_long clean Hlong) as [_ ->]. lia.
  - rewrite cap_short by done. lia.
Qed.

Lemma clean_html_steps (rt : PyRuntime) (t : str) :
  t <> [] ->
  clean_html rt (Some t)
  = match unescape rt (strip_tags t) with
    | inl e => inl e
    | inr decoded => inr (cap (strip (collapse_ws decoded)))
    end.
Proof.
  intros Ht. destruct t as [|c t]; [done|].
  unfold clean_html, cleaned. by destruct (unescape rt _).
Qed.

Lemma clean_html_length (rt : PyRuntime) (text : option str) (out : str) :
  clean_html rt text = inr out -> (length out <= 503)%nat.
Proof.
  destruct text as [[|c t]|]; try (intros [= <-]; simpl; lia).
  rewrite clean_html_steps by done.
  destruct (unescape rt _); [done|]. intros [= <-]. apply cap_length.
Qed.

(** C6, as the code has it. [clean_html] returns the empty string for
    a missing or empty text. Any other text goes through four steps:
    the tags are removed, the character references are decoded, every
    run of white space becomes one space and both ends are trimmed.
    The removal of the tags, the joining of the white space and the
    trimming are pinned down: no other function fits what is said of
    each. When more than 500 characters remain the first 500 are
    returned followed by ["..."], 503 characters in all, and else they
    are returned as they are. The call answers exactly when no
    decimal reference left after the removal of the tags has more
    digits than [int] converts, and raises [ValueError] otherwise. *)
Theorem clean_html_spec (rt : PyRuntime) :
  clean_html rt None = inr [] /\ clean_html rt (Some []) = inr []
  /\ strips_tags strip_tags
  /\ (forall f, strips_tags f -> forall s, f s = strip_tags s)
  /\ decodes_references rt (unescape rt)
  /\ collapses_white_space collapse_ws
  /\ (forall f, collapses_white_space f -> forall s, f s = collapse_ws s)
  /\ trims strip
  /\ (forall f, trims f -> forall s, f s = strip s)
  /\ (forall t, t <> [] ->
        clean_html rt (Some t)
        = match unescape rt (strip_tags t) with
          | inl e => inl e
          | inr decoded => inr (cap (strip (collapse_ws decoded)))
          end)
  /\ (forall clean,
        ((500 < length clean)%nat ->
           cap clean = take 500 clean ++ s2u "..."
           /\ length (cap clean) = 503%nat)
        /\ ((length clean <= 500)%nat -> cap clean = clean))
  /\ (forall text out, clean_html rt text = inr out ->
        (length out <= 503)%nat)
  /\ (forall t, (exists out, clean_html rt (Some t) = inr out)
                <-> convertible rt (strip_tags t))
  /\ (forall t e, clean_html rt (Some t) = inl e -> e = ValueError).
Proof.
  split; [done|]. split; [done|].
  split; [apply strip_tags_steps|]. split; [apply strips_tags_unique|].
  split; [apply unescape_steps|].
  split; [apply collapse_ws_steps|].
  split; [apply collapses_white_space_unique|].
  split; [apply strip_steps|]. split; [apply trims_unique|].
  split; [apply clean_html_steps|].
  split; [intros clean; split; [apply cap_long | apply cap_short]|].
  split; [apply clean_html_length|].
  split.
  - intros [|c t].
    { split; [|by eexists]. intros _ [|??] ?? Heq; discriminate Heq. }
    rewrite clean_html_steps by done. split.
    + intros [out Hout].
      destruct (unescape rt (strip_tags (c :: t))) as [|u] eqn:Hu; [done|].
      by eapply unescape_convertible.
    + intros Hconv. destruct (unescape_answers rt _ Hconv) as [u ->].
      by eexists.
  - intros [|c t] e; [done|]. rewrite clean_html_steps by done.
    destruct (unescape rt (strip_tags (c :: t))) as [e'|u] eqn:Hu; [|done].
    intros [= <-]. rewrite unescape_sub in Hu. by eapply charref_sub_raises.
Qed.

Lemma clean_html_long_sample :
  exists out,
    clean_html (sample_runtime []) (Some (repeat 97%N 600)) = inr out
    /\ length out = 503%nat
    /\ exists front, out = front ++ s2u "...".
Proof.
  pose proof (clean_html_spec (sample_runtime []))
    as (_ & _ & _ & _ & _ & _ & _ & _ & _ & Hsteps & Hcap & _).
  specialize (Hsteps (repeat 97%N 600) ltac:(done)).
  assert (unescape (sample_runtime []) (strip_tags (repeat 97%N 600))
          = inr (repeat 97%N 600)) as Hu by (by vm_compute).
  rewrite Hu in Hsteps.
  assert (strip (collapse_ws (repeat 97%N 600)) = repeat 97%N 600) as Hc
    by (by vm_compute).
  rewrite Hc in Hsteps.
  destruct (Hcap (repeat 97%N 600)) as [Hlong _].
  destruct Hlong as [Heq Hlen]; [vm_compute; lia|].
  eexists. split; [exact Hsteps|]. split; [exact Hlen|].
  eexists. exact Heq.
Defined.

(** A text with tags, references of the three kinds and runs of white
    space. *)
Lemma clean_html_decoding_sample :
  clean_html (sample_runtime [])
    (Some (s2u "<p>Tom &amp;  Jerry&#8211;<b>neu</b> &lt;5 &#x20AC;</p> "))
  = inr (s2u "Tom & Jerry" ++ [8211%N] ++ s2u "neu <5 " ++ [8364%N]).
Proof. by vm_compute. Qed.

(** The sentence as worded fails for a text that holds a decimal
    reference of 4301 digits: [int] refuses the number and the call
    raises [ValueError]. *)
Lemma long_reference_raises :
  clean_html (sample_runtime []) (Some long_reference) = inl ValueError
  /\ ~ clean_html_answers_as_stated.
Proof.
  assert (clean_html (sample_runtime []) (Some long_reference)
          = inl ValueError) as Hraise by (by vm_compute).
  split; [done|]. intros Hclaim.
  destruct (Hclaim (sample_runtime []) long_reference) as [out Hout].
  by rewrite Hraise in Hout.
Qed.

(** ** Categorisation *)

Lemma any_keyword_in_spec (keywords : list str) (text : str) :
  any_keyword_in keywords text = true
  <-> exists kw, kw ∈ keywords /\ is_substring kw text.
Proof.
  unfold any_keyword_in. induction keywords as [|k ks IH]; simpl.
  - split; [done | intros (kw & H & _); by apply elem_of_nil in H].
  - rewrite orb_true_iff, IH, str_in_spec. split.
    + intros [H | (kw & Hin & H)].
      * exists k. split; [left | done].
      * exists kw. split; [by right | done].
    + intros (kw & Hin & H). apply elem_of_cons in Hin as [-> | Hin].
      * by left.
      * right. by exists kw.
Qed.

Lemma matching_categories_spec (table : list (str * list str))
    (text cat : str) :
  cat ∈ matching_categories table text
  <-> exists keywords, (cat, keywords) ∈ table
                       /\ any_keyword_in keywords text = true.
Proof.
  induction table as [|[c kws] table IH]; simpl.
  - split; [intros H; by apply elem_of_nil in H|].
    intros (kws & H & _). by apply elem_of_nil in H.
  - destruct (any_keyword_in kws text) eqn:Hany.
    + rewrite elem_of_cons, IH. split.
      * intros [-> | (k & Hin & Hk)].
        -- exists kws. split; [left | done].
        -- exists k. split; [by right | done].
      * intros (k & Hin & Hk). apply elem_of_cons in Hin as [[= -> ->] | Hin].
        -- by left.
        -- right. by exists k.
    + rewrite IH. split.
      * intros (k & Hin & Hk). exists k. split; [by right | done].
      * intros (k & Hin & Hk). apply elem_of_cons in Hin as [[= -> ->] | Hin].
        -- congruence.
        -- by exists k.
Qed.

(** The names of the categories are distinct, as the keys of a
    dictionary are, and none of them is the fallback label. *)
Lemma NEWS_CATEGORIES_keys : NoDup (GENERAL :: NEWS_CATEGORIES.*1).
Proof. apply (bool_decide_unpack _). by vm_compute. Qed.

Lemma NEWS_CATEGORIES_functional (cat : str) (k1 k2 : list str) :
  (cat, k1) ∈ NEWS_CATEGORIES -> (cat, k2) ∈ NEWS_CATEGORIES -> k1 = k2.
Proof.
  pose proof NEWS_CATEGORIES_keys as Hnd. apply NoDup_cons in Hnd as [_ Hnd].
  intros H1 H2.
  apply list_elem_of_lookup in H1 as [i Hi], H2 as [j Hj].
  assert (i = j) as ->; [|congruence].
  eapply NoDup_lookup; [exact Hnd| |];
    rewrite list_lookup_fmap; [by rewrite Hi | by rewrite Hj].
Qed.

Lemma NEWS_CATEGORIES_not_general (keywords : list str) :
  (GENERAL, keywords) ∉ NEWS_CATEGORIES.
Proof.
  pose proof NEWS_CATEGORIES_keys as Hnd. apply NoDup_cons in Hnd as [Hg _].
  intros H. apply Hg. apply list_elem_of_fmap. by exists (GENERAL, keywords).
Qed.

(** C7, as the code has it. [categorize_article] lists a category
    exactly when one of its keywords occurs in the lowered text
    [title + " " + summary], title and summary with one space between
    them, so that no keyword is found across the two; several
    categories can be listed together; the answer is the single label
    [general] exactly when no keyword of any category occurs, it is
    never empty, and two empty strings give [general]. *)
Theorem categorize_article_spec (rt : PyRuntime) (title summary : str) :
  let text := lower rt (title ++ [SPACE] ++ summary) in
  let result := categorize_article rt title summary in
  (forall cat keywords, (cat, keywords) ∈ NEWS_CATEGORIES ->
     cat ∈ result <-> exists kw, kw ∈ keywords /\ is_substring kw text)
  /\ (forall label, label ∈ result ->
        label = GENERAL \/ exists keywords, (label, keywords) ∈ NEWS_CATEGORIES)
  /\ (GENERAL ∈ result <->
        forall cat keywords kw, (cat, keywords) ∈ NEWS_CATEGORIES ->
          kw ∈ keywords -> ~ is_substring kw text)
  /\ (GENERAL ∈ result -> result = [GENERAL])
  /\ result <> []
  /\ categorize_article rt [] [] = [GENERAL]
  /\ categorize_article rt (s2u "Tesla Model 3 charging network") []
     = [s2u "vehicles"; s2u "charging"; s2u "infrastructure"].
Proof.
  intros text result.
  assert (forall cat, cat ∈ matching_categories NEWS_CATEGORIES text <->
            exists keywords, (cat, keywords) ∈ NEWS_CATEGORIES /\
              exists kw, kw ∈ keywords /\ is_substring kw text) as Hm.
  { intros cat. rewrite matching_categories_spec.
    by setoid_rewrite any_keyword_in_spec. }
  assert (result = match matching_categories NEWS_CATEGORIES text with
                   | [] => [GENERAL]
                   | categories => categories
                   end) as Hres by reflexivity.
  destruct (matching_categories NEWS_CATEGORIES text) as [|c0 cs] eqn:Hmc.
  - (* no category matches *)
    assert (forall cat keywords kw, (cat, keywords) ∈ NEWS_CATEGORIES ->
              kw ∈ keywords -> ~ is_substring kw text) as Hnone.
    { intros cat kws kw Hin Hkw Hsub.
      assert (cat ∈ @nil str) as H by (apply Hm; eauto).
      by apply elem_of_nil in H. }
    rewrite Hres. split; [|split; [|split; [|split; [|split; [|split]]]]].
    + intros cat kws Hin. split.
      * intros H. apply list_elem_of_singleton in H as ->.
        by apply NEWS_CATEGORIES_not_general in Hin.
      * intros (kw & Hkw & Hsub). by destruct (Hnone _ _ _ Hin Hkw).
    + intros label H. left. by apply list_elem_of_singleton in H.
    + split; [done|]. intros _. by apply list_elem_of_singleton.
    + done.
    + done.
    + by vm_compute.
    + by vm_compute.
  - (* at least one category matches *)
    assert (GENERAL ∉ c0 :: cs) as Hgen.
    { intros H. apply Hm in H as (kws & Hin & _).
      by apply NEWS_CATEGORIES_not_general in Hin. }
    rewrite Hres. split; [|split; [|split; [|split; [|split; [|split]]]]].
    + intros cat kws Hin. split.
      * intros H. apply Hm in H as (kws' & Hin' & Hex).
        by rewrite (NEWS_CATEGORIES_functional _ _ _ Hin Hin').
      * intros Hex. apply Hm. eauto.
    + intros label H. right. apply Hm in H as (kws & Hin & _). eauto.
    + split; [done|]. intros Hnone. exfalso.
      assert (c0 ∈ c0 :: cs) as H by left.
      apply Hm in H as (kws & Hin & kw & Hkw & Hsub).
      by apply (Hnone _ _ _ Hin Hkw).
    + done.
    + done.
    + by vm_compute.
    + by vm_compute.
Qed.

(** The sentence as worded fails for the title [Drive] and the summary
    [very far]: the keyword [ev] of the category [vehicles] occurs in
    the two joined without a space, and the answer is [general]. *)
Lemma joined_words_not_matched :
  categorize_article (sample_runtime []) (s2u "Drive") (s2u "very far")
  = [GENERAL]
  /\ is_substring (s2u "ev")
       (lower (sample_runtime []) (s2u "Drive" ++ s2u "very far"))
  /\ ~ keywords_in_joined_text_as_stated.
Proof.
  assert (is_substring (s2u "ev")
            (lower (sample_runtime []) (s2u "Drive" ++ s2u "very far")))
    as Hsub by (by exists (s2u "driv"), (s2u "ery far")).
  split; [by vm_compute|]. split; [done|]. intros Hclaim.
  destruct (Hclaim (sample_runtime []) (s2u "Drive") (s2u "very far")
              (s2u "vehicles")
              (map s2u ["fahrzeug"; "vehicle"; "auto"; "car"; "model";
                        "modell"; "ev"; "elektroauto"; "automobil";
                        "vozilo"]%string)) as [_ Hin]; [left|].
  assert (s2u "vehicles"
            ∈ categorize_article (sample_runtime []) (s2u "Drive")
                (s2u "very far")) as Hcat.
  { apply Hin. exists (s2u "ev"). split; [|done].
    apply (bool_decide_unpack _). by vm_compute. }
  vm_compute in Hcat. by apply list_elem_of_singleton in Hcat.
Qed.

(** ** Identifiers *)

Lemma utf8_char_ok (c : char) :
  (c < 1114112)%N -> is_surrogate c = false ->
  exists bytes, utf8_char c = inr bytes.
Proof.
  intros Hc Hs. unfold utf8_char. rewrite Hs.
  assert ((c <? 1114112)%N = true) as -> by by apply N.ltb_lt.
  repeat case_match; eauto.
Qed.

Lemma utf8_char_error (c : char) (e : exn) :
  utf8_char c = inl e ->
  e = UnicodeEncodeError /\ ~ ((c < 1114112)%N /\ is_surrogate c = false).
Proof.
  unfold utf8_char.
  destruct (N.ltb_spec c 128); [done|].
  destruct (N.ltb_spec c 2048); [done|].
  destruct (N.ltb_spec c 65536).
  - destruct (is_surrogate c) eqn:Hs; [|done].
    intros [= <-]. split; [done|]. intros [_ ?]. congruence.
  - destruct (N.ltb_spec c 1114112); [done|].
    intros [= <-]. split; [done|]. intros [? _]. lia.
Qed.

Lemma encode_ok (s : str) : encodable s -> exists bytes, encode s = inr bytes.
Proof.
  induction 1 as [|c s [Hc Hs] _ [rest IH]]; simpl; [by eexists|].
  destruct (utf8_char_ok c Hc Hs) as [bs ->]. rewrite IH. by eexists.
Qed.

Lemma encode_error (s : str) (e : exn) :
  encode s = inl e -> e = UnicodeEncodeError /\ ~ encodable s.
Proof.
  revert e. induction s as [|c s IH]; intros e; simpl; [done|].
  destruct (utf8_char c) as [e1|bs] eqn:Hc.
  - intros [= <-]. apply utf8_char_error in Hc as [-> Hc].
    split; [done|]. intros H. by apply Forall_cons in H as [? _].
  - destruct (encode s) as [e2|rest]; [|done].
    intros [= <-]. destruct (IH e2 eq_refl) as [-> Hs].
    split; [done|]. intros H. by apply Forall_cons in H as [_ ?].
Qed.

Lemma utf8_char_inr (c : char) (bytes : list N) :
  utf8_char c = inr bytes -> (c < 1114112)%N /\ is_surrogate c = false.
Proof.
  unfold utf8_char, is_surrogate.
  destruct (N.ltb_spec c 128).
  { intros _. split; [lia|]. apply andb_false_iff. left. apply N.leb_gt. lia. }
  destruct (N.ltb_spec c 2048).
  { intros _. split; [lia|]. apply andb_false_iff. left. apply N.leb_gt. lia. }
  destruct (N.ltb_spec c 65536).
  { destruct (_ && _); [done|]. intros _. split; [lia | done]. }
  destruct (N.ltb_spec c 1114112); [|done].
  intros _. split; [lia|]. apply andb_false_iff. right. apply N.leb_gt. lia.
Qed.

Lemma encode_inr_encodable (s : str) (bytes : list N) :
  encode s = inr bytes -> encodable s.
Proof.
  revert bytes. induction s as [|c s IH]; intros bytes; simpl; [constructor|].
  destruct (utf8_char c) as [e|bs] eqn:Hc; [done|].
  destruct (encode s) as [e|rest]; [done|]. intros _.
  constructor; [by eapply utf8_char_inr | by eapply IH].
Qed.

Lemma bytes_of_range (w : N) : Forall (fun b => (b < 256)%N) (MD5.bytes_of w).
Proof. unfold MD5.bytes_of. repeat constructor; by apply N.mod_lt. Qed.

Lemma digest_length (msg : list N) : length (MD5.digest msg) = 16%nat.
Proof. unfold MD5.digest. cbv zeta. by rewrite !length_app. Qed.

Lemma digest_range (msg : list N) :
  Forall (fun b => (b < 256)%N) (MD5.digest msg).
Proof.
  unfold MD5.digest. cbv zeta. rewrite !Forall_app.
  repeat split; apply bytes_of_range.
Qed.

Lemma hex_digit_ok (d : N) : (d < 16)%N -> is_hex_char (hex_digit d).
Proof.
  intros Hd. unfold hex_digit, is_hex_char.
  destruct (N.ltb_spec d 10); lia.
Qed.

Lemma hexdigest_length (bytes : list N) :
  length (hexdigest bytes) = (2 * length bytes)%nat.
Proof.
  unfold hexdigest. induction bytes as [|b bytes IH]; simpl; [done|].
  rewrite IH. lia.
Qed.

Lemma hexdigest_hex (bytes : list N) :
  Forall (fun b => (b < 256)%N) bytes -> Forall is_hex_char (hexdigest bytes).
Proof.
  unfold hexdigest. induction 1 as [|b bytes Hb _ IH]; simpl; [done|].
  constructor; [|constructor; [|done]]; apply hex_digit_ok.
  - apply N.Div0.div_lt_upper_bound. lia.
  - by apply N.mod_lt.
Qed.

Lemma article_id_shape (bytes : list N) :
  let ident := take 12 (hexdigest (MD5.digest bytes)) in
  length ident = 12%nat /\ Forall is_hex_char ident.
Proof.
  split.
  - rewrite length_take, hexdigest_length, digest_length. lia.
  - apply Forall_take, hexdigest_hex, digest_range.
Qed.

Lemma generate_article_id_ok (link : str) :
  encodable link -> exists ident, generate_article_id link = inr ident.
Proof.
  intros Henc. unfold generate_article_id.
  destruct (encode_ok link Henc) as [bytes ->]. by eexists.
Qed.

Example generate_article_id_electrek :
  generate_article_id (s2u "https://electrek.co/feed/")
  = inr (s2u "eb4a59d41e28").
Proof. by vm_compute. Qed.

Example md5_test_vectors :
  hexdigest (MD5.digest []) = s2u "d41d8cd98f00b204e9800998ecf8427e"
  /\ hexdigest (MD5.digest (s2u "abc"))
     = s2u "900150983cd24fb0d6963f7d28e17f72"
  /\ hexdigest (MD5.digest (repeat 120%N 70))
     = s2u "7d56c0f83fd1e320d60ea2f13dfdeedd".
Proof. by vm_compute. Qed.

(** C8. [generate_article_id] is a function of the link alone: equal
    links give equal results. For a link that can be encoded it returns
    the first 12 characters of the hexadecimal MD5 digest of the UTF-8
    bytes of the link, 12 characters from [0-9a-f]; whenever it returns
    an identifier, the identifier has that shape. *)
Theorem generate_article_id_spec (link : str) :
  (forall link', link' = link ->
     generate_article_id link' = generate_article_id link)
  /\ (encodable link ->
        exists bytes ident,
          encode link = inr bytes
          /\ generate_article_id link = inr ident
          /\ ident = take 12 (hexdigest (MD5.digest bytes))
          /\ length ident = 12%nat
          /\ Forall is_hex_char ident)
  /\ (forall ident, generate_article_id link = inr ident ->
        length ident = 12%nat /\ Forall is_hex_char ident)
  /\ (forall e, generate_article_id link = inl e -> ~ encodable link).
Proof.
  unfold generate_article_id. split; [by intros ? ->|]. split; [|split].
  - intros Henc. destruct (encode_ok link Henc) as [bytes Hb].
    exists bytes, (take 12 (hexdigest (MD5.digest bytes))).
    rewrite Hb. destruct (article_id_shape bytes). done.
  - intros ident. destruct (encode link) as [e|bytes]; [done|].
    intros [= <-]. apply article_id_shape.
  - intros e. destruct (encode link) as [e'|bytes] eqn:He; [|done].
    intros _. by apply encode_error in He as [_ ?].
Qed.

Lemma generate_article_id_sample :
  exists ident,
    generate_article_id (s2u "https://electrek.co/feed/") = inr ident
    /\ length ident = 12%nat /\ Forall is_hex_char ident.
Proof.
  pose proof (generate_article_id_spec (s2u "https://electrek.co/feed/"))
    as (_ & Hok & _).
  destruct Hok as (bytes & ident & _ & Hid & _ & Hlen & Hhex).
  - apply (bool_decide_unpack _). by vm_compute.
  - by exists ident.
Defined.

(** ** Sorting and de-duplication *)

#[local] Instance not_older_trans : Transitive not_older.
Proof. intros a b c Hab Hbc. unfold not_older, str_le in *. by eapply str_leb_trans. Qed.

Lemma not_older_refl (a : article) : not_older a a.
Proof. apply str_leb_refl. Qed.

Lemma insert_desc_perm (x : article) (l : list article) :
  insert_desc x l ≡ₚ x :: l.
Proof.
  induction l as [|y l IH]; simpl; [done|].
  destruct (str_leb (sort_key y) (sort_key x)); [done|].
  rewrite IH. apply perm_swap.
Qed.

Lemma sort_desc_perm (l : list article) : sort_desc l ≡ₚ l.
Proof.
  induction l as [|x l IH]; simpl; [done|].
  fold (sort_desc l). by rewrite insert_desc_perm, IH.
Qed.

Lemma insert_desc_sorted (x : article) (l : list article) :
  StronglySorted not_older l -> StronglySorted not_older (insert_desc x l).
Proof.
  induction 1 as [|y l Hl IH Hy]; simpl.
  - by repeat constructor.
  - destruct (str_leb (sort_key y) (sort_key x)) eqn:Hyx.
    + constructor; [by constructor|]. constructor; [done|].
      eapply Forall_impl; [exact Hy|]. intros z Hz.
      by transitivity y.
    + constructor; [done|]. rewrite insert_desc_perm.
      constructor; [|done]. by apply str_leb_total.
Qed.

Lemma sort_desc_sorted (l : list article) :
  StronglySorted not_older (sort_desc l).
Proof.
  induction l as [|x l IH]; simpl; [constructor|].
  by apply insert_desc_sorted.
Qed.

Lemma dedup_from_elem (rt : PyRuntime) (seen : gset str)
    (l : list article) (a : article) :
  a ∈ dedup_from rt seen l -> a ∈ l /\ title_key rt a ∉ seen.
Proof.
  revert seen. induction l as [|x l IH]; intros seen; simpl.
  - intros H. by apply elem_of_nil in H.
  - destruct (decide (title_key rt x ∈ seen)) as [Hin|Hnot].
    + intros H. apply IH in H as [? ?]. split; [by right | done].
    + intros H. apply elem_of_cons in H as [-> | H].
      * split; [left | done].
      * apply IH in H as [? Hk]. split; [by right|].
        intros Hs. apply Hk, elem_of_union. by right.
Qed.

Lemma dedup_from_NoDup (rt : PyRuntime) (seen : gset str) (l : list article) :
  NoDup (title_key rt <$> dedup_from rt seen l).
Proof.
  revert seen. induction l as [|x l IH]; intros seen; simpl.
  - constructor.
  - destruct (decide (title_key rt x ∈ seen)) as [Hin|Hnot]; [apply IH|].
    rewrite fmap_cons. constructor; [|apply IH].
    intros H. apply list_elem_of_fmap in H as (k & Hk & Hin).
    apply dedup_from_elem in Hin as [_ Hin]. set_solver.
Qed.

Lemma dedup_from_sorted (rt : PyRuntime) (seen : gset str)
    (l : list article) :
  StronglySorted not_older l ->
  StronglySorted not_older (dedup_from rt seen l).
Proof.
  intros Hl. revert seen.
  induction Hl as [|x l Hl IH Hx]; intros seen; simpl; [constructor|].
  destruct (decide (title_key rt x ∈ seen)); [apply IH|].
  constructor; [apply IH|].
  apply Forall_forall. intros k Hk. apply dedup_from_elem in Hk as [Hk _].
  by eapply Forall_forall in Hx.
Qed.

Lemma dedup_from_keeps_newest (rt : PyRuntime) (seen : gset str)
    (l : list article) (a : article) :
  StronglySorted not_older l -> a ∈ l ->
  title_key rt a ∈ seen
  \/ exists k, k ∈ dedup_from rt seen l
               /\ title_key rt k = title_key rt a /\ not_older k a.
Proof.
  intros Hl. revert seen.
  induction Hl as [|x l Hl IH Hx]; intros seen Ha; simpl.
  - by apply elem_of_nil in Ha.
  - destruct (decide (title_key rt x ∈ seen)) as [Hin|Hnot].
    + apply elem_of_cons in Ha as [-> | Ha]; [by left | by apply IH].
    + apply elem_of_cons in Ha as [-> | Ha].
      * right. exists x. split; [left|]. split; [done | apply not_older_refl].
      * destruct (IH ({[title_key rt x]} ∪ seen) Ha) as [Hk | (k & Hk & Heq & Hle)].
        -- apply elem_of_union in Hk as [Hk | Hk]; [|by left].
           apply elem_of_singleton in Hk. right. exists x.
           split; [left|]. split; [done|]. by eapply Forall_forall in Hx.
        -- right. exists k. split; [by right | done].
Qed.

Lemma descending_Sorted (l : list article) :
  descending l <-> Sorted not_older l.
Proof.
  split.
  - induction l as [|x l IH]; intros Hd; constructor.
    + apply IH. intros i a b Ha Hb. by apply (Hd (S i) a b).
    + destruct l as [|y l]; constructor. by apply (Hd 0%nat x y).
  - induction 1 as [|x l Hl IH Hx]; intros i a b Ha Hb.
    + done.
    + destruct i as [|i]; [|by apply (IH i)].
      simpl in Ha, Hb. injection Ha as <-.
      destruct l as [|y l]; [done|]. injection Hb as <-.
      by inversion Hx.
Qed.

Lemma descending_StronglySorted (l : list article) :
  descending l <-> StronglySorted not_older l.
Proof.
  rewrite descending_Sorted. split.
  - apply Sorted_StronglySorted. apply _.
  - apply StronglySorted_Sorted.
Qed.

Lemma StronglySorted_lookup_lt (l : list article) (i j : nat) (a b : article) :
  StronglySorted not_older l -> (i < j)%nat ->
  l !! i = Some a -> l !! j = Some b -> not_older a b.
Proof.
  intros Hl. revert i j.
  induction Hl as [|x l Hl IH Hx]; intros i j Hij Ha Hb; [done|].
  destruct j as [|j]; [lia|]. simpl in Hb.
  destruct i as [|i].
  - injection Ha as <-. eapply Forall_forall in Hx; [exact Hx|].
    by eapply list_elem_of_lookup_2.
  - simpl in Ha. apply (IH i j); [lia | done | done].
Qed.

Lemma merge_articles_descending (rt : PyRuntime) (l : list article) :
  descending (merge_articles rt l).
Proof.
  apply descending_StronglySorted, dedup_from_sorted, sort_desc_sorted.
Qed.

Lemma fetch_all_feeds_result (rt : PyRuntime)
    (registry : list (str * list feed_config)) (w : World) :
  exists w',
    fetch_all_feeds rt registry w = (inr (merge_articles rt (collected rt registry w)), w').
Proof.
  unfold fetch_all_feeds, collected.
  destruct (gather _ _) as [results w1]. by exists w1.
Qed.

(** C4. The list returned by [fetch_all_feeds] is in descending order of
    [published]: every article is at least as recent as its successor,
    and as every article after it. An article without a [published]
    value has the least key. The order comes from the sort and the
    de-duplication keeps it. *)
Theorem aggregate_descending (rt : PyRuntime)
    (registry : list (str * list feed_config)) (w : World) :
  exists res w',
    fetch_all_feeds rt registry w = (inr res, w')
    /\ descending res
    /\ (forall i j a b, (i < j)%nat ->
          res !! i = Some a -> res !! j = Some b ->
          str_le (default [] (published b)) (default [] (published a)))
    /\ (forall a b, published a = None \/ published a = Some [] ->
          not_older b a)
    /\ (forall l, descending (sort_desc l) /\ sort_desc l ≡ₚ l)
    /\ (forall seen l, descending l -> descending (dedup_from rt seen l)).
Proof.
  destruct (fetch_all_feeds_result rt registry w) as [w' Hres].
  exists (merge_articles rt (collected rt registry w)), w'.
  split; [done|]. split; [apply merge_articles_descending|]. split; [|split; [|split]].
  - intros i j a b Hij Ha Hb.
    pose proof (merge_articles_descending rt (collected rt registry w)) as Hd.
    apply descending_StronglySorted in Hd.
    apply (StronglySorted_lookup_lt _ _ _ _ _ Hd Hij Ha Hb).
  - intros a b Ha. unfold not_older, sort_key.
    destruct Ha as [-> | ->]; apply str_le_nil.
  - intros l. split; [|apply sort_desc_perm].
    apply descending_StronglySorted, sort_desc_sorted.
  - intros seen l Hd. apply descending_StronglySorted, dedup_from_sorted.
    by apply descending_StronglySorted.
Qed.

Lemma merge_articles_pair (rt : PyRuntime) (a b : article) :
  title a = title b -> str_lt (sort_key b) (sort_key a) ->
  merge_articles rt [a; b] = [a] /\ merge_articles rt [b; a] = [a].
Proof.
  intros Ht Hlt. unfold str_lt in Hlt.
  pose proof (str_leb_total _ _ Hlt) as Hle.
  assert (title_key rt b = title_key rt a) as Hk
    by (unfold title_key; by rewrite Ht).
  assert (dedup_from rt ∅ [a; b] = [a]) as Hd.
  { simpl. rewrite decide_False by apply not_elem_of_empty.
    rewrite Hk, decide_True; [done|].
    apply elem_of_union. left. by apply elem_of_singleton. }
  unfold merge_articles, sort_desc. simpl. by rewrite Hle, Hlt.
Qed.

Lemma NoDup_fmap_same {A B} (f : A -> B) (l : list A) (x y : A) :
  NoDup (f <$> l) -> x ∈ l -> y ∈ l -> f x = f y -> x = y.
Proof.
  intros Hnd Hx Hy Hf.
  apply list_elem_of_lookup in Hx as [i Hi], Hy as [j Hj].
  assert (i = j) as ->; [|congruence].
  eapply NoDup_lookup; [exact Hnd| |];
    rewrite list_lookup_fmap; [by rewrite Hi | by rewrite Hj, Hf].
Qed.

Lemma fetch_all_feeds_two (rt : PyRuntime) (g : str) (A B : feed_config)
    (w w1 w2 : World) (la lb : list article) :
  fetch_single_feed rt A (count_pass w) = (inr la, w1) ->
  fetch_single_feed rt B w1 = (inr lb, w2) ->
  fetch_all_feeds rt [(g, [A; B])] w = (inr (merge_articles rt (la ++ lb)), w2).
Proof.
  intros HA HB. unfold fetch_all_feeds, all_feeds. simpl.
  rewrite HA, HB. simpl. by rewrite app_nil_r.
Qed.

(** C3. In the list returned by [fetch_all_feeds] no two articles have
    the same title key (the lowered title cut to 50 characters). Every
    article of the result was collected from a feed, and every collected
    article has in the result the one article with its title key, which
    is at least as recent. For two feeds that yield one article each,
    with the same title and different times, the result is the more
    recent article alone, whichever feed it comes from. *)
Theorem aggregate_title_keys (rt : PyRuntime) :
  (forall registry w,
     let input := collected rt registry w in
     exists res w',
       fetch_all_feeds rt registry w = (inr res, w')
       /\ NoDup (title_key rt <$> res)
       /\ (forall k, k ∈ res -> k ∈ input)
       /\ (forall a, a ∈ input ->
             exists k, k ∈ res /\ title_key rt k = title_key rt a
                       /\ not_older k a)
       /\ (forall a k, a ∈ input -> k ∈ res ->
             title_key rt a = title_key rt k -> not_older k a))
  /\ (forall g A B a b w w1 w2,
        fetch_single_feed rt A (count_pass w) = (inr [a], w1) ->
        fetch_single_feed rt B w1 = (inr [b], w2) ->
        title a = title b ->
        (str_lt (sort_key b) (sort_key a) ->
           fetch_all_feeds rt [(g, [A; B])] w = (inr [a], w2))
        /\ (str_lt (sort_key a) (sort_key b) ->
              fetch_all_feeds rt [(g, [A; B])] w = (inr [b], w2))).
Proof.
  split.
  - intros registry w input.
    destruct (fetch_all_feeds_result rt registry w) as [w' Hres].
    fold input in Hres. exists (merge_articles rt input), w'.
    assert (forall a, a ∈ input ->
              exists k, k ∈ merge_articles rt input
                        /\ title_key rt k = title_key rt a /\ not_older k a)
      as Hnewest.
    { intros a Ha. unfold merge_articles.
      destruct (dedup_from_keeps_newest rt ∅ (sort_desc input) a)
        as [Hs | Hk]; [apply sort_desc_sorted | | | done].
      - by rewrite sort_desc_perm.
      - by apply not_elem_of_empty in Hs. }
    split; [done|]. split; [apply dedup_from_NoDup|]. split; [|split; [done|]].
    + intros k Hk. apply dedup_from_elem in Hk as [Hk _].
      by rewrite sort_desc_perm in Hk.
    + intros a k Ha Hk Heq. destruct (Hnewest a Ha) as (k' & Hk' & Heq' & Hle).
      assert (k' = k) as <-; [|done].
      apply (NoDup_fmap_same (title_key rt) (merge_articles rt input));
        [apply dedup_from_NoDup | done | done | congruence].
  - intros g A B a b w w1 w2 HA HB Ht.
    rewrite (fetch_all_feeds_two rt g A B w w1 w2 [a] [b] HA HB). simpl.
    split; intros Hlt.
    + by destruct (merge_articles_pair rt a b Ht Hlt) as [-> _].
    + by destruct (merge_articles_pair rt b a (eq_sym Ht) Hlt) as [_ ->].
Qed.

Lemma aggregate_twice_told :
  exists w',
    fetch_all_feeds twice_told [(s2u "g", [feed_a; feed_b])] twice_told_world
    = (inr [told_a], w').
Proof.
  destruct (aggregate_title_keys twice_told) as [_ Hpair].
  set (ra := fetch_single_feed twice_told feed_a (count_pass twice_told_world)).
  set (rb := fetch_single_feed twice_told feed_b ra.2).
  assert (ra.1 = inr [told_a]) as Ha by (by vm_compute).
  assert (rb.1 = inr [told_b]) as Hb by (by vm_compute).
  assert (ra = (inr [told_a], ra.2)) as HA
    by (rewrite <- Ha; apply surjective_pairing).
  assert (rb = (inr [told_b], rb.2)) as HB
    by (rewrite <- Hb; apply surjective_pairing).
  destruct (Hpair (s2u "g") feed_a feed_b told_a told_b twice_told_world
              ra.2 rb.2 HA HB eq_refl) as [Hnewer _].
  exists rb.2. apply Hnewer. by vm_compute.
Defined.

(** ** The single-feed fetcher *)

Lemma only_ticked_refl (w : World) : only_ticked w w.
Proof. by repeat split. Qed.

Lemma only_ticked_tick (w : World) : only_ticked w (tick w).
Proof. by repeat split. Qed.

Lemma only_ticked_trans (w1 w2 w3 : World) :
  only_ticked w1 w2 -> only_ticked w2 w3 -> only_ticked w1 w3.
Proof.
  unfold only_ticked. intros (?&?&?&?&?&?) (?&?&?&?&?&?).
  repeat split; congruence.
Qed.

Lemma try_datetime_total (t : struct_time) (w : World) :
  exists d w',
    try_except (lift (datetime_of t)) (fun _ => now) w = (inr d, w')
    /\ only_ticked w w'
    /\ (forall d0, datetime_of t = inr d0 -> d = d0)
    /\ (forall e, datetime_of t = inl e -> d = clock w (ticks w)).
Proof.
  unfold try_except, lift, now. destruct (datetime_of t) as [e|d0].
  - eexists _, _. split; [done|]. split; [apply only_ticked_tick|]. by split.
  - eexists _, _. split; [done|]. split; [apply only_ticked_refl|].
    split; [by intros ? [= ->] | done].
Qed.

(** The date of an entry never fails: a date that cannot be built is
    replaced by the reading of the clock. *)
Lemma resolve_pub_date_total (e : entry) (w : World) :
  exists d w', resolve_pub_date e w = (inr d, w') /\ only_ticked w w'.
Proof.
  unfold resolve_pub_date.
  destruct (published_parsed e) as [t|].
  { destruct (try_datetime_total t w) as (d & w' & H & Hw & _). eauto. }
  destruct (updated_parsed e) as [t|].
  { destruct (try_datetime_total t w) as (d & w' & H & Hw & _). eauto. }
  eexists _, _. split; [done | apply only_ticked_tick].
Qed.

Lemma process_entry_ok (rt : PyRuntime) (cfg : feed_config) (e : entry)
    (w : World) :
  raises_nothing rt e ->
  exists a w',
    process_entry rt cfg e w = (inr a, w')
    /\ only_ticked w w' /\ url a = link_of e /\ article_of_feed rt cfg a
    /\ generate_article_id (link_of e) = inr (article_id a).
Proof.
  intros ([s Hs] & [t Ht] & Henc). unfold process_entry, mbind, M_bind.
  destruct (resolve_pub_date_total e w) as (d & w' & -> & Hw).
  destruct (generate_article_id_ok (link_of e) Henc) as [ident Hid].
  unfold link_of in *. unfold lift. rewrite Hs, Ht, Hid.
  eexists _, w'. split; [done|]. split; [done|]. by repeat split.
Qed.

Lemma process_entry_raises (rt : PyRuntime) (cfg : feed_config) (e : entry)
    (w : World) :
  ~ raises_nothing rt e ->
  exists ex w',
    process_entry rt cfg e w = (inl ex, w')
    /\ only_ticked w w'.
Proof.
  intros Hbad. unfold process_entry, mbind, M_bind.
  destruct (resolve_pub_date_total e w) as (d & w' & -> & Hw).
  unfold lift.
  destruct (entry_summary_text rt e) as [ex|s] eqn:Hs; [by exists ex, w'|].
  destruct (clean_html rt (Some (title_of e))) as [ex|t] eqn:Ht;
    [by exists ex, w'|].
  destruct (generate_article_id (default [] (entry_link e))) as [ex|ident]
    eqn:Hid; [by exists ex, w'|].
  destruct Hbad. split; [by exists s|]. split; [by exists t|].
  unfold generate_article_id in Hid. unfold link_of.
  destruct (encode (default [] (entry_link e))) as [ex|bytes] eqn:He; [done|].
  by eapply encode_inr_encodable.
Qed.

Lemma process_entries_all_ok (rt : PyRuntime) (cfg : feed_config)
    (entries : list entry) (acc : list article) (w : World) :
  Forall (raises_nothing rt) entries ->
  exists arts w',
    process_entries rt cfg entries acc w = (None, acc ++ arts, w')
    /\ only_ticked w w'
    /\ Forall2 (fun e a => url a = link_of e) entries arts.
Proof.
  intros Hall. revert acc w.
  induction Hall as [|e entries He _ IH]; intros acc w; simpl.
  - exists [], w. rewrite app_nil_r. split; [done|].
    split; [apply only_ticked_refl | constructor].
  - destruct (process_entry_ok rt cfg e w He) as (a & w1 & -> & Hw1 & Hu & _).
    destruct (IH (acc ++ [a]) w1) as (arts & w2 & -> & Hw2 & Hf).
    exists (a :: arts), w2. rewrite <- app_assoc. split; [done|].
    split; [by eapply only_ticked_trans | by constructor].
Qed.

Lemma process_entries_stops (rt : PyRuntime) (cfg : feed_config)
    (pre : list entry) (bad : entry) (post : list entry)
    (acc : list article) (w : World) :
  Forall (raises_nothing rt) pre ->
  ~ raises_nothing rt bad ->
  exists ex arts w',
    process_entries rt cfg (pre ++ bad :: post) acc w
    = (Some ex, acc ++ arts, w')
    /\ only_ticked w w'
    /\ Forall2 (fun e a => url a = link_of e) pre arts.
Proof.
  intros Hpre Hbad. revert acc w.
  induction Hpre as [|e pre He _ IH]; intros acc w; simpl.
  - destruct (process_entry_raises rt cfg bad w Hbad) as (ex & w1 & -> & Hw1).
    exists ex, [], w1. rewrite app_nil_r. split; [done|].
    split; [done | constructor].
  - destruct (process_entry_ok rt cfg e w He) as (a & w1 & -> & Hw1 & Hu & _).
    destruct (IH (acc ++ [a]) w1) as (ex & arts & w2 & -> & Hw2 & Hf).
    exists ex, (a :: arts), w2. rewrite <- app_assoc. split; [done|].
    split; [by eapply only_ticked_trans | by constructor].
Qed.

Lemma process_entries_frame (rt : PyRuntime) (cfg : feed_config)
    (entries : list entry) (acc : list article) (w : World) :
  exists raised arts w',
    process_entries rt cfg entries acc w = (raised, acc ++ arts, w')
    /\ only_ticked w w'
    /\ Forall (article_of_feed rt cfg) arts.
Proof.
  revert acc w. induction entries as [|e entries IH]; intros acc w; simpl.
  - exists None, [], w. rewrite app_nil_r. split; [done|].
    split; [apply only_ticked_refl | constructor].
  - destruct (decide (raises_nothing rt e)) as [He|He].
    + destruct (process_entry_ok rt cfg e w He)
        as (a & w1 & -> & Hw1 & _ & Ha & _).
      destruct (IH (acc ++ [a]) w1) as (r & arts & w2 & -> & Hw2 & Hf).
      exists r, (a :: arts), w2. rewrite <- app_assoc. split; [done|].
      split; [by eapply only_ticked_trans | by constructor].
    + destruct (process_entry_raises rt cfg e w He) as (ex & w1 & -> & Hw1).
      exists (Some ex), [], w1. rewrite app_nil_r.
      split; [done|]. split; [done | constructor].
Qed.

Lemma fetched_after (cfg : feed_config) (w w1 w2 : World) (n : str) :
  w1 = log_call (feed_url cfg) w -> only_ticked w1 w2 ->
  fetched cfg w w2
  /\ fetched cfg w (log_warning n w2).
Proof.
  intros -> (?&?&?&?&?&?). unfold fetched. simpl in *. repeat split; congruence.
Qed.

Lemma fetch_single_feed_total (rt : PyRuntime) (cfg : feed_config)
    (w : World) :
  exists arts w',
    fetch_single_feed rt cfg w = (inr arts, w')
    /\ Forall (article_of_feed rt cfg) arts
    /\ fetched cfg w w'.
Proof.
  unfold fetch_single_feed, http_get.
  set (w1 := log_call (feed_url cfg) w).
  assert (forall n, fetched cfg w w1 /\ fetched cfg w (log_warning n w1)) as Hw1.
  { intros n. apply (fetched_after cfg w w1 w1 n eq_refl (only_ticked_refl w1)). }
  destruct (net w (feed_url cfg)) as [e|resp].
  { eexists _, _. split; [done|]. split; [constructor | apply Hw1]. }
  destruct (status_code resp =? 200).
  2: { eexists _, _. split; [done|]. split; [constructor | by apply (Hw1 [])]. }
  destruct (feedparser_parse rt (text resp)) as [e|entries].
  { eexists _, _. split; [done|]. split; [constructor | apply Hw1]. }
  destruct (process_entries_frame rt cfg (take 10 entries) [] w1)
    as (r & arts & w2 & -> & Hw2 & Hf). simpl.
  destruct (fetched_after cfg w w1 w2 (feed_name cfg) eq_refl Hw2).
  destruct r; eexists _, _; (split; [done|]); by split.
Qed.

Lemma fetch_single_feed_loop (rt : PyRuntime) (cfg : feed_config)
    (w : World) (resp : response) (entries : list entry) :
  net w (feed_url cfg) = inr resp -> status_code resp = 200 ->
  feedparser_parse rt (text resp) = inr entries ->
  (fetch_single_feed rt cfg w).1
  = inr (process_entries rt cfg (take 10 entries) []
           (log_call (feed_url cfg) w)).1.2.
Proof.
  intros Hnet Hst Hparse. unfold fetch_single_feed, http_get.
  rewrite Hnet, Hst, Hparse. simpl.
  by destruct (process_entries _ _ _ _ _) as [[[e|] arts] w2].
Qed.

Lemma bad_date_uses_clock (rt : PyRuntime) (cfg : feed_config) (e : entry)
    (t : struct_time) (w : World) :
  published_parsed e = Some t -> datetime_of t = inl ValueError ->
  raises_nothing rt e ->
  exists a w',
    process_entry rt cfg e w = (inr a, w')
    /\ published a = Some (isoformat (clock w (ticks w))).
Proof.
  intros Hp Ht ([s Hs] & [ti Hti] & Henc).
  unfold process_entry, mbind, M_bind, resolve_pub_date.
  rewrite Hp. unfold try_except, lift at 1. rewrite Ht. unfold now.
  destruct (generate_article_id_ok (link_of e) Henc) as [ident Hid].
  unfold link_of in *. unfold lift. rewrite Hs, Hti, Hid. by eexists _, _.
Qed.

(** C5, as the code has it. A date that cannot be built does not end
    the processing of its entry: the entry gets the time of the fetch.
    Anything else that is raised while an entry is processed (by the
    cleaning of its summary or title, or by the encoding of its link)
    ends the loop over the entries: when none of the first ten entries
    raises, the fetcher returns one article per entry, in order; when
    one of them does, it returns the articles of the entries before
    that one and nothing of the entries after it. *)
Theorem entry_errors (rt : PyRuntime) (cfg : feed_config) (w : World)
    (resp : response) (entries : list entry) :
  net w (feed_url cfg) = inr resp -> status_code resp = 200 ->
  feedparser_parse rt (text resp) = inr entries ->
  (forall e t w0,
     published_parsed e = Some t -> datetime_of t = inl ValueError ->
     raises_nothing rt e ->
     exists a w1,
       process_entry rt cfg e w0 = (inr a, w1)
       /\ published a = Some (isoformat (clock w0 (ticks w0))))
  /\ (Forall (raises_nothing rt) (take 10 entries) ->
      exists arts,
        (fetch_single_feed rt cfg w).1 = inr arts
        /\ Forall2 (fun e a => url a = link_of e) (take 10 entries) arts)
  /\ (forall pre bad post,
        take 10 entries = pre ++ bad :: post ->
        Forall (raises_nothing rt) pre ->
        ~ raises_nothing rt bad ->
        exists arts,
          (fetch_single_feed rt cfg w).1 = inr arts
          /\ Forall2 (fun e a => url a = link_of e) pre arts).
Proof.
  intros Hnet Hst Hparse.
  rewrite (fetch_single_feed_loop rt cfg w resp entries Hnet Hst Hparse).
  split; [|split].
  - intros e t w0. apply bad_date_uses_clock.
  - intros Hall.
    destruct (process_entries_all_ok rt cfg (take 10 entries) []
                (log_call (feed_url cfg) w) Hall)
      as (arts & w2 & -> & _ & Hf).
    by exists arts.
  - intros pre bad post -> Hpre Hbad.
    destruct (process_entries_stops rt cfg pre bad post []
                (log_call (feed_url cfg) w) Hpre Hbad)
      as (ex & arts & w2 & -> & _ & Hf).
    by exists arts.
Qed.

Lemma entry_errors_one_bad_entry :
  (fetch_single_feed one_bad_entry feed_b only_b_world).1 = inr [story_1].
Proof.
  destruct (entry_errors one_bad_entry feed_b only_b_world
              {| status_code := 200; text := s2u "body-b" |}
              [ sample_entry "Neues Modell" (s2u "https://b.example/1")
                  (Some (sample_time 12 0));
                titled_entry long_reference (s2u "https://b.example/x")
                  (Some (sample_time 11 0));
                sample_entry "Tesla senkt Preise" (s2u "https://b.example/2")
                  (Some (sample_time 10 0)) ])
    as (_ & _ & Hstop); [by vm_compute | done | by vm_compute |].
  destruct (Hstop
              [sample_entry "Neues Modell" (s2u "https://b.example/1")
                 (Some (sample_time 12 0))]
              (titled_entry long_reference (s2u "https://b.example/x")
                 (Some (sample_time 11 0)))
              [sample_entry "Tesla senkt Preise" (s2u "https://b.example/2")
                 (Some (sample_time 10 0))])
    as (arts & Harts & Hf).
  - done.
  - apply (bool_decide_unpack _). by vm_compute.
  - apply (bool_decide_unpack _). by vm_compute.
  - by vm_compute.
Defined.

(** The sentence as worded fails: in the feed [one_bad_entry] the third
    entry raises nothing, the second one raises [ValueError] when its
    title is cleaned, and the fetcher returns the article of the first
    entry only. *)
Lemma later_entry_lost :
  clean_html one_bad_entry (Some long_reference) = inl ValueError
  /\ (fetch_single_feed one_bad_entry feed_b only_b_world).1 = inr [story_1]
  /\ ~ entries_independent_as_stated.
Proof.
  assert ((fetch_single_feed one_bad_entry feed_b only_b_world).1
          = inr [story_1]) as Hres by (by vm_compute).
  split; [by vm_compute|]. split; [done|]. intros Hclaim.
  destruct (Hclaim one_bad_entry feed_b only_b_world
              {| status_code := 200; text := s2u "body-b" |}
              [ sample_entry "Neues Modell" (s2u "https://b.example/1")
                  (Some (sample_time 12 0));
                titled_entry long_reference (s2u "https://b.example/x")
                  (Some (sample_time 11 0));
                sample_entry "Tesla senkt Preise" (s2u "https://b.example/2")
                  (Some (sample_time 10 0)) ]
              (sample_entry "Tesla senkt Preise" (s2u "https://b.example/2")
                 (Some (sample_time 10 0))))
    as (arts & a & Harts & Ha & Hurl).
  - by vm_compute.
  - done.
  - by vm_compute.
  - simpl. do 2 right. left.
  - apply (bool_decide_unpack _). by vm_compute.
  - rewrite Hres in Harts. injection Harts as <-.
    apply list_elem_of_singleton in Ha as ->. by vm_compute in Hurl.
Qed.

(** ** Failing feeds *)

Lemma dedup_from_fresh (rt : PyRuntime) (seen : gset str) (l : list article) :
  NoDup (title_key rt <$> l) ->
  (forall a, a ∈ l -> title_key rt a ∉ seen) ->
  dedup_from rt seen l = l.
Proof.
  revert seen. induction l as [|x l IH]; intros seen Hnd Hseen; simpl; [done|].
  rewrite fmap_cons in Hnd. apply NoDup_cons in Hnd as [Hx Hnd].
  rewrite decide_False by (apply Hseen; left).
  f_equal. apply IH; [done|]. intros a Ha Hin.
  apply elem_of_union in Hin as [Hin | Hin].
  - apply elem_of_singleton in Hin. apply Hx.
    apply list_elem_of_fmap. by exists a.
  - apply (Hseen a); [by right | done].
Qed.

Lemma merge_articles_distinct (rt : PyRuntime) (l : list article) :
  NoDup (title_key rt <$> l) ->
  merge_articles rt l = sort_desc l.
Proof.
  intros Hnd. unfold merge_articles. apply dedup_from_fresh.
  - by rewrite sort_desc_perm.
  - intros a _. apply not_elem_of_empty.
Qed.

(** C2, as the code has it. [fetch_single_feed] always returns a list.
    The list is empty when the request fails (a timeout included), when
    the status is not 200 and when the parser raises. When the first of
    two feeds fails, [fetch_all_feeds] returns the articles of the
    second one sorted and de-duplicated: all of them, in descending
    order, when their title keys are distinct. *)
Theorem fetch_failure_isolated (rt : PyRuntime) :
  (forall cfg w, exists arts w', fetch_single_feed rt cfg w = (inr arts, w'))
  /\ (forall cfg w e,
        net w (feed_url cfg) = inl e ->
        (fetch_single_feed rt cfg w).1 = inr [])
  /\ (forall cfg w resp,
        net w (feed_url cfg) = inr resp -> status_code resp <> 200 ->
        (fetch_single_feed rt cfg w).1 = inr [])
  /\ (forall cfg w resp e,
        net w (feed_url cfg) = inr resp ->
        feedparser_parse rt (text resp) = inl e ->
        (fetch_single_feed rt cfg w).1 = inr [])
  /\ (forall g A B w e,
        net w (feed_url A) = inl e ->
        exists arts,
          (fetch_single_feed rt B
             (fetch_single_feed rt A (count_pass w)).2).1 = inr arts
          /\ (fetch_all_feeds rt [(g, [A; B])] w).1
             = inr (merge_articles rt arts)
          /\ (NoDup (title_key rt <$> arts) ->
                merge_articles rt arts = sort_desc arts
                /\ sort_desc arts ≡ₚ arts
                /\ descending (sort_desc arts))).
Proof.
  split; [|split; [|split; [|split]]].
  - intros cfg w.
    destruct (fetch_single_feed_total rt cfg w) as (arts & w' & H & _). eauto.
  - intros cfg w e Hnet. unfold fetch_single_feed, http_get. by rewrite Hnet.
  - intros cfg w resp Hnet Hst. unfold fetch_single_feed, http_get.
    rewrite Hnet. apply Z.eqb_neq in Hst. by rewrite Hst.
  - intros cfg w resp e Hnet Hparse. unfold fetch_single_feed, http_get.
    rewrite Hnet, Hparse. by destruct (status_code resp =? 200).
  - intros g A B w e Hnet.
    assert ((fetch_single_feed rt A (count_pass w)).1 = inr []) as HA.
    { unfold fetch_single_feed, http_get. simpl. by rewrite Hnet. }
    destruct (fetch_single_feed rt A (count_pass w)) as [ra w1] eqn:EA.
    simpl in HA. subst ra. simpl.
    destruct (fetch_single_feed_total rt B w1) as (arts & w2 & EB & _).
    exists arts. rewrite EB. split; [done|].
    rewrite (fetch_all_feeds_two rt g A B w w1 w2 [] arts EA EB).
    split; [done|]. intros Hnd.
    split; [by apply merge_articles_distinct|].
    split; [apply sort_desc_perm|].
    apply descending_StronglySorted, sort_desc_sorted.
Qed.

Lemma fetch_failure_three_stories :
  (fetch_all_feeds three_stories [(s2u "g", [feed_a; feed_b])]
     only_b_world).1 = inr [story_1; story_2; story_4].
Proof.
  destruct (fetch_failure_isolated three_stories) as (_ & _ & _ & _ & Hiso).
  destruct (Hiso (s2u "g") feed_a feed_b only_b_world TransportError)
    as (arts & HB & Hall & Hdistinct); [by vm_compute|].
  vm_compute in HB. injection HB as <-.
  destruct Hdistinct as (Hm & _).
  { apply (bool_decide_unpack _). by vm_compute. }
  rewrite Hall, Hm. by vm_compute.
Defined.

(** The sentence as worded fails: the first feed times out, the second
    one yields three articles of which two have the same title, and
    the result holds two articles. *)
Lemma repeated_title_dropped :
  net only_b_world (feed_url feed_a) = inl TransportError
  /\ (fetch_single_feed repeated_story feed_b
        (fetch_single_feed repeated_story feed_a
           (count_pass only_b_world)).2).1
     = inr [story_1; story_2; story_3]
  /\ (fetch_all_feeds repeated_story [(s2u "g", [feed_a; feed_b])]
        only_b_world).1 = inr [story_1; story_2]
  /\ ~ failing_source_as_stated.
Proof.
  assert ((fetch_all_feeds repeated_story [(s2u "g", [feed_a; feed_b])]
             only_b_world).1 = inr [story_1; story_2]) as Hres
    by (by vm_compute).
  split; [by vm_compute|]. split; [by vm_compute|]. split; [done|].
  intros Hclaim.
  destruct (Hclaim repeated_story (s2u "g") feed_a feed_b only_b_world
              TransportError [story_1; story_2; story_3])
    as (res & Hr & Hperm); [by vm_compute | by vm_compute | done |].
  rewrite Hres in Hr. injection Hr as <-.
  apply Permutation_length in Hperm. discriminate Hperm.
Qed.

(** ** The cache and the handlers *)

Lemma gather_fetch_frame (rt : PyRuntime) (feeds : list feed_config)
    (w : World) :
  exists results w',
    gather (map (fetch_single_feed rt) feeds) w = (results, w')
    /\ news_cache w' = news_cache w /\ clock w' = clock w /\ net w' = net w
    /\ passes w' = passes w
    /\ client_calls w' = client_calls w ++ map feed_url feeds
    /\ Forall (fun a => exists cfg, cfg ∈ feeds /\ article_of_feed rt cfg a)
              (combine_results results).
Proof.
  revert w. induction feeds as [|cfg feeds IH]; intros w; simpl.
  - exists [], w. rewrite app_nil_r. by repeat split.
  - destruct (fetch_single_feed_total rt cfg w)
      as (arts & w1 & -> & Harts & Hc & Hk & Hn & Hp & Hr).
    destruct (IH w1) as (rs & w2 & -> & Hc2 & Hk2 & Hn2 & Hp2 & Hr2 & Hf).
    exists (inr arts :: rs), w2. split; [done|].
    repeat split; try congruence.
    + rewrite Hr2, Hr, <- app_assoc. done.
    + simpl. apply Forall_app. split.
      * eapply Forall_impl; [exact Harts|]. intros a Ha.
        exists cfg. split; [left | done].
      * eapply Forall_impl; [exact Hf|]. intros a (c & Hin & Ha).
        exists c. split; [by right | done].
Qed.

Lemma fetch_all_feeds_frame (rt : PyRuntime)
    (registry : list (str * list feed_config)) (w : World) :
  exists fresh w',
    fetch_all_feeds rt registry w = (inr fresh, w')
    /\ fresh = merge_articles rt (collected rt registry w)
    /\ news_cache w' = news_cache w /\ clock w' = clock w /\ net w' = net w
    /\ passes w' = S (passes w)
    /\ client_calls w' = client_calls w ++ map feed_url (all_feeds registry)
    /\ Forall (fun a => exists cfg, cfg ∈ all_feeds registry
                                    /\ article_of_feed rt cfg a) fresh.
Proof.
  unfold fetch_all_feeds, collected.
  destruct (gather_fetch_frame rt (all_feeds registry) (count_pass w))
    as (rs & w' & -> & Hc & Hk & Hn & Hp & Hr & Hf).
  eexists _, w'. split; [done|]. split; [done|].
  repeat split; try done.
  apply Forall_forall. intros a Ha.
  apply dedup_from_elem in Ha as [Ha _]. rewrite sort_desc_perm in Ha.
  by eapply Forall_forall in Hf.
Qed.

Lemma refill_spec (rt : PyRuntime)
    (registry : list (str * list feed_config)) (w : World) :
  exists fresh w1 w',
    fetch_all_feeds rt registry w = (inr fresh, w1)
    /\ refill rt registry w = (inr tt, w')
    /\ news_cache w'
       = {| cache_articles := fresh;
            last_updated := Some (clock w1 (ticks w1));
            cache_duration := cache_duration (news_cache w) |}
    /\ clock w' = clock w /\ net w' = net w
    /\ passes w' = S (passes w)
    /\ client_calls w' = client_calls w ++ map feed_url (all_feeds registry)
    /\ cache_from_feeds rt registry (news_cache w').
Proof.
  destruct (fetch_all_feeds_frame rt registry w)
    as (fresh & w1 & Hf & _ & Hc & Hk & Hn & Hp & Hr & Hall).
  exists fresh, w1. eexists. split; [done|].
  unfold refill, mbind, M_bind. rewrite Hf. simpl.
  split; [done|]. simpl. rewrite Hc. by repeat split.
Qed.

Lemma cache_valid_spec (refresh : bool) (w : World) :
  cache_valid refresh w =
  match last_updated (news_cache w) with
  | None => (inr false, w)
  | Some t =>
      (inr (bool_decide (timedelta_between (clock w (ticks w)) t
                         < cache_duration (news_cache w))
            && bool_decide (0 < length (cache_articles (news_cache w)))%nat
            && negb refresh), tick w)
  end.
Proof.
  unfold cache_valid, mbind, M_bind, get_cache.
  by destruct (last_updated (news_cache w)).
Qed.

(** The end of [get_news], once the cache has been settled in [w1]. *)
Lemma get_news_tail (rt : PyRuntime)
    (registry : list (str * list feed_config)) (q : news_query)
    (w w1 : World) :
  get_or_refresh rt registry (q_refresh q) w
  = (inr (cache_articles (news_cache w1)), w1) ->
  exists resp w',
    get_news rt registry q w = (inr resp, w')
    /\ r_articles resp = select_articles q (cache_articles (news_cache w1))
    /\ r_total resp = length (r_articles resp)
    /\ news_cache w' = news_cache w1 /\ passes w' = passes w1
    /\ client_calls w' = client_calls w1 /\ clock w' = clock w1 /\ net w' = net w1.
Proof.
  intros Hg. unfold get_news, mbind, M_bind. rewrite Hg.
  unfold cache_age, mbind, M_bind, get_cache, now.
  destruct (last_updated (news_cache w1)); simpl; eexists _, _;
    (split; [done|]); by repeat split.
Qed.

Lemma get_or_refresh_hit (rt : PyRuntime)
    (registry : list (str * list feed_config)) (w : World) (t : datetime) :
  last_updated (news_cache w) = Some t ->
  timedelta_between (clock w (ticks w)) t < cache_duration (news_cache w) ->
  cache_articles (news_cache w) <> [] ->
  get_or_refresh rt registry false w
  = (inr (cache_articles (news_cache w)), tick w).
Proof.
  intros Ht Hfresh Hne. unfold get_or_refresh, mbind, M_bind.
  rewrite cache_valid_spec, Ht.
  rewrite bool_decide_eq_true_2 by done.
  rewrite bool_decide_eq_true_2
    by (destruct (cache_articles (news_cache w)); [done | simpl; lia]).
  done.
Qed.

Lemma cache_valid_ticks (refresh : bool) (w : World) :
  only_ticked w (cache_valid refresh w).2.
Proof.
  rewrite cache_valid_spec.
  destruct (last_updated (news_cache w));
    [apply only_ticked_tick | apply only_ticked_refl].
Qed.

Lemma get_or_refresh_miss (rt : PyRuntime)
    (registry : list (str * list feed_config)) (refresh : bool) (w : World) :
  (cache_valid refresh w).1 = inr false ->
  exists fresh w1 w',
    fetch_all_feeds rt registry (cache_valid refresh w).2 = (inr fresh, w1)
    /\ get_or_refresh rt registry refresh w
       = (inr (cache_articles (news_cache w')), w')
    /\ news_cache w'
       = {| cache_articles := fresh;
            last_updated := Some (clock w1 (ticks w1));
            cache_duration := cache_duration (news_cache w) |}
    /\ clock w' = clock w /\ net w' = net w
    /\ passes w' = S (passes w)
    /\ client_calls w' = client_calls w ++ map feed_url (all_feeds registry)
    /\ cache_from_feeds rt registry (news_cache w').
Proof.
  intros Hv. unfold get_or_refresh, mbind, M_bind.
  destruct (cache_valid refresh w) as [v w0] eqn:Hcv. simpl in Hv. subst v.
  assert (only_ticked w w0) as (Hc0 & Hk0 & Hn0 & Hr0 & Hp0 & _).
  { pose proof (cache_valid_ticks refresh w) as Ht. by rewrite Hcv in Ht. }
  destruct (refill_spec rt registry w0)
    as (fresh & w1 & w' & Hf & -> & Hc & Hk & Hn & Hp & Hr & Hall).
  exists fresh, w1, w'. simpl. split; [done|]. split; [reflexivity|].
  split; [by rewrite Hc, Hc0|].
  repeat split; [congruence | congruence | congruence | congruence | done].
Qed.

Lemma slice_to_all {A} (limit : Z) (l : list A) :
  Z.of_nat (length l) <= limit -> slice_to limit l = l.
Proof.
  intros Hl. unfold slice_to.
  assert ((0 <=? limit) = true) as -> by (apply Z.leb_le; lia).
  apply take_ge. lia.
Qed.

Lemma select_articles_plain (q : news_query) (l : list article) :
  q_region q = None -> q_category q = None -> q_language q = None ->
  Z.of_nat (length l) <= q_limit q ->
  select_articles q l = l.
Proof.
  intros Hr Hc Hl Hlim.
  unfold select_articles, filter_category, filter_language, filter_region.
  rewrite Hr, Hc, Hl. simpl. by apply slice_to_all.
Qed.

(** C1, as the code has it. When the cache was filled less than an hour
    before the request, holds at least one article and no refresh is
    asked for, [get_news] answers from the stored articles (all of them
    for a query without filters whose limit they do not exceed), leaves
    the cache as it is and issues no request. When an hour or more has
    passed it runs [fetch_all_feeds] once and stores the result with the
    time read after the run. *)
Theorem cache_freshness (rt : PyRuntime)
    (registry : list (str * list feed_config)) (q : news_query)
    (w : World) (t : datetime) :
  last_updated (news_cache w) = Some t ->
  cache_duration (news_cache w) = HOUR ->
  (timedelta_between (clock w (ticks w)) t < HOUR ->
   cache_articles (news_cache w) <> [] -> q_refresh q = false ->
   exists resp w',
     get_news rt registry q w = (inr resp, w')
     /\ (get_or_refresh rt registry (q_refresh q) w).1
        = inr (cache_articles (news_cache w))
     /\ r_articles resp = select_articles q (cache_articles (news_cache w))
     /\ (q_region q = None -> q_category q = None -> q_language q = None ->
         Z.of_nat (length (cache_articles (news_cache w))) <= q_limit q ->
         r_articles resp = cache_articles (news_cache w))
     /\ news_cache w' = news_cache w
     /\ passes w' = passes w /\ client_calls w' = client_calls w)
  /\ (HOUR <= timedelta_between (clock w (ticks w)) t ->
      exists resp w' fresh w1,
        get_news rt registry q w = (inr resp, w')
        /\ fetch_all_feeds rt registry (tick w) = (inr fresh, w1)
        /\ news_cache w'
           = {| cache_articles := fresh;
                last_updated := Some (clock w1 (ticks w1));
                cache_duration := HOUR |}
        /\ r_articles resp = select_articles q fresh
        /\ passes w' = S (passes w)
        /\ client_calls w' = client_calls w ++ map feed_url (all_feeds registry)).
Proof.
  intros Ht Hdur. split.
  - intros Hfresh Hne Hq. rewrite <- Hdur in Hfresh.
    pose proof (get_or_refresh_hit rt registry w t Ht Hfresh Hne) as Hhit.
    rewrite <- Hq in Hhit.
    destruct (get_news_tail rt registry q w (tick w) Hhit)
      as (resp & w' & Hg & Hsel & _ & Hc & Hp & Hr & _).
    exists resp, w'. simpl in *. rewrite Hhit.
    repeat split; try done.
    intros. rewrite Hsel. by apply select_articles_plain.
  - intros Hold.
    assert (cache_valid (q_refresh q) w = (inr false, tick w)) as Hcv.
    { rewrite cache_valid_spec, Ht, Hdur.
      rewrite bool_decide_eq_false_2 by lia. done. }
    destruct (get_or_refresh_miss rt registry (q_refresh q) w)
      as (fresh & w1 & w0 & Hf & Hg & Hc & _ & _ & Hp & Hr & _);
      [by rewrite Hcv|].
    rewrite Hcv in Hf. simpl in Hf.
    destruct (get_news_tail rt registry q w w0 Hg)
      as (resp & w' & Hn & Hsel & _ & Hc' & Hp' & Hr' & _).
    exists resp, w', fresh, w1. rewrite Hc in Hsel. simpl in Hsel.
    rewrite Hdur in Hc.
    repeat split; [done | done | congruence | done | congruence | congruence].
Qed.

Lemma cache_freshness_sample :
  (exists resp w',
     get_news twice_told two_feeds plain_query
       (cached_world (at_time 12 30) [told_a] []) = (inr resp, w')
     /\ r_articles resp = [told_a]
     /\ passes w' = 0%nat /\ client_calls w' = [])
  /\ (exists resp w',
        get_news twice_told two_feeds plain_query
          (cached_world (at_time 11 59) [told_b] []) = (inr resp, w')
        /\ passes w' = 1%nat
        /\ client_calls w' = [feed_url feed_a; feed_url feed_b]).
Proof.
  split.
  - destruct (cache_freshness twice_told two_feeds plain_query
                (cached_world (at_time 12 30) [told_a] []) (at_time 12 30))
      as [Hhit _]; [done | done |].
    destruct Hhit as (resp & w' & Hg & _ & _ & Hall & _ & Hp & Hr);
      [by vm_compute | done | done |].
    exists resp, w'. split; [done|]. split; [|by split].
    apply Hall; [done | done | done | by vm_compute].
  - destruct (cache_freshness twice_told two_feeds plain_query
                (cached_world (at_time 11 59) [told_b] []) (at_time 11 59))
      as [_ Hmiss]; [done | done |].
    destruct Hmiss as (resp & w' & fresh & w1 & Hg & _ & _ & _ & Hp & Hr);
      [by vm_compute|].
    by exists resp, w'.
Defined.

(** The sentence as worded fails for a cache that holds no article. A
    request in a world where every feed times out fills the cache with
    the empty list; the next request finds a cache filled less than an
    hour ago and runs [fetch_all_feeds] again. *)
Lemma empty_cache_fetched_again :
  let first := get_news (sample_runtime []) two_feeds plain_query silent_world in
  let second := get_news (sample_runtime []) two_feeds plain_query first.2 in
  news_cache first.2
  = {| cache_articles := []; last_updated := Some sample_now;
       cache_duration := HOUR |}
  /\ timedelta_between (clock first.2 (ticks first.2)) sample_now = 0
  /\ passes first.2 = 1%nat
  /\ passes second.2 = 2%nat
  /\ client_calls second.2
     = [feed_url feed_a; feed_url feed_b; feed_url feed_a; feed_url feed_b]
  /\ ~ cache_hit_as_stated.
Proof.
  intros first second.
  assert (passes second.2 = 2%nat) as Hp2 by (by vm_compute).
  split; [by vm_compute|]. split; [by vm_compute|]. split; [by vm_compute|].
  split; [done|]. split; [by vm_compute|].
  intros Hclaim.
  destruct (Hclaim (sample_runtime []) two_feeds plain_query first.2 sample_now)
    as (resp & w' & Hg & _ & Hp & _);
    [by vm_compute | by vm_compute | by vm_compute | done |].
  fold second in Hg. rewrite Hg in Hp2. simpl in Hp2. rewrite Hp in Hp2.
  by vm_compute in Hp2.
Qed.

Lemma categorize_article_labels (rt : PyRuntime) (title summary label : str) :
  label ∈ categorize_article rt title summary ->
  label ∈ GENERAL :: NEWS_CATEGORIES.*1.
Proof.
  unfold categorize_article.
  destruct (matching_categories NEWS_CATEGORIES _) as [|c cs] eqn:Hm.
  - intros H. apply list_elem_of_singleton in H as ->. left.
  - rewrite <- Hm. intros H.
    apply matching_categories_spec in H as (kws & Hin & _).
    right. apply list_elem_of_fmap. by exists (label, kws).
Qed.

Lemma dict_get_unknown (d : list (str * list str)) (key : str) :
  key ∉ d.*1 -> dict_get d key = [].
Proof.
  induction d as [|[k v] d IH]; simpl; [done|].
  intros Hk. apply not_elem_of_cons in Hk as [Hne Hk].
  rewrite decide_False by done. by apply IH.
Qed.

Lemma get_or_refresh_total (rt : PyRuntime)
    (registry : list (str * list feed_config)) (refresh : bool) (w : World) :
  exists w1,
    get_or_refresh rt registry refresh w
    = (inr (cache_articles (news_cache w1)), w1)
    /\ (cache_from_feeds rt registry (news_cache w) ->
        cache_from_feeds rt registry (news_cache w1)).
Proof.
  destruct (cache_valid refresh w) as [v w0] eqn:Hcv.
  pose proof (cache_valid_ticks refresh w) as Ht. rewrite Hcv in Ht.
  destruct Ht as (Hc & _). cbn [snd] in Hc.
  destruct v as [e|[|]].
  - pose proof (f_equal fst Hcv) as Hv. rewrite cache_valid_spec in Hv.
    by destruct (last_updated (news_cache w)).
  - exists w0. unfold get_or_refresh, mbind, M_bind. rewrite Hcv.
    split; [done | by rewrite Hc].
  - destruct (get_or_refresh_miss rt registry refresh w)
      as (fresh & w1 & w' & _ & Hg & _ & _ & _ & _ & _ & Hall);
      [by rewrite Hcv|].
    exists w'. by split.
Qed.

Lemma get_news_total (rt : PyRuntime)
    (registry : list (str * list feed_config)) (q : news_query) (w : World) :
  exists resp w',
    get_news rt registry q w = (inr resp, w')
    /\ r_articles resp
       = slice_to (q_limit q) (matching q (cache_articles (news_cache w')))
    /\ r_total resp = length (r_articles resp)
    /\ (cache_from_feeds rt registry (news_cache w) ->
        cache_from_feeds rt registry (news_cache w')).
Proof.
  destruct (get_or_refresh_total rt registry (q_refresh q) w) as (w1 & Hg & Hinv).
  destruct (get_news_tail rt registry q w w1 Hg)
    as (resp & w' & Hn & Hsel & Htot & Hc & _).
  exists resp, w'. rewrite Hc. by repeat split.
Qed.

Lemma matching_elem (q : news_query) (l : list article) (a : article) :
  a ∈ matching q l ->
  a ∈ l
  /\ (forall r, truthy (q_region q) = Some r ->
        region a ∈ dict_get region_codes r)
  /\ (forall lang, truthy (q_language q) = Some lang -> language a = lang)
  /\ (forall c, truthy (q_category q) = Some c -> c ∈ categories a).
Proof.
  unfold matching, filter_category, filter_language, filter_region.
  intros H.
  assert (a ∈ match truthy (q_language q) with
              | Some lang => filter (fun a => language a = lang)
                               match truthy (q_region q) with
                               | Some r => filter (fun a => region a ∈ dict_get region_codes r) l
                               | None => l
                               end
              | None => match truthy (q_region q) with
                        | Some r => filter (fun a => region a ∈ dict_get region_codes r) l
                        | None => l
                        end
              end
          /\ forall c, truthy (q_category q) = Some c -> c ∈ categories a)
    as [H1 Hcat].
  { destruct (truthy (q_category q)) as [c|]; [|done].
    apply list_elem_of_filter in H as [Hc H]. split; [done|].
    by intros ? [= <-]. }
  assert (a ∈ match truthy (q_region q) with
              | Some r => filter (fun a => region a ∈ dict_get region_codes r) l
              | None => l
              end
          /\ forall lang, truthy (q_language q) = Some lang -> language a = lang)
    as [H2 Hlang].
  { destruct (truthy (q_language q)) as [lang|]; [|done].
    apply list_elem_of_filter in H1 as [Hl H1]. split; [done|].
    by intros ? [= <-]. }
  assert (a ∈ l /\ forall r, truthy (q_region q) = Some r ->
                      region a ∈ dict_get region_codes r) as [H3 Hreg].
  { destruct (truthy (q_region q)) as [r|]; [|done].
    apply list_elem_of_filter in H2 as [Hr H2]. split; [done|].
    by intros ? [= <-]. }
  done.
Qed.

Lemma truthy_nonempty (s : str) : s <> [] -> truthy (Some s) = Some s.
Proof. by destruct s. Qed.

Lemma slice_to_nil {A} (limit : Z) : slice_to limit (@nil A) = [].
Proof. unfold slice_to. destruct (0 <=? limit); apply take_nil. Qed.

(** C9, as the code has it. [get_news] always answers. A region that is
    not empty and not one of [swiss], [german], [international] and
    [balkan] has no allowed codes and the answer holds no article; the
    same holds for a category that is not empty and is no label of the
    categoriser, and for a language that is not empty and is the
    language of no feed, when the cache holds articles built from the
    feeds. The empty value of a parameter switches its filter off: the
    answer holds what the other two filters and the limit leave of the
    cache, and the first articles of the cache up to the limit when all
    three are empty. *)
Theorem unknown_filter_values (rt : PyRuntime)
    (registry : list (str * list feed_config)) (q : news_query) (w : World) :
  cache_from_feeds rt registry (news_cache w) ->
  exists resp w',
    get_news rt registry q w = (inr resp, w')
    /\ r_total resp = length (r_articles resp)
    /\ cache_from_feeds rt registry (news_cache w')
    /\ (forall r, q_region q = Some r -> r <> [] -> r ∉ region_codes.*1 ->
          dict_get region_codes r = []
          /\ r_articles resp = [] /\ r_total resp = 0%nat)
    /\ (forall c, q_category q = Some c -> c <> [] ->
          c ∉ GENERAL :: NEWS_CATEGORIES.*1 ->
          r_articles resp = [] /\ r_total resp = 0%nat)
    /\ (forall lang, q_language q = Some lang -> lang <> [] ->
          lang ∉ feed_lang <$> all_feeds registry ->
          r_articles resp = [] /\ r_total resp = 0%nat)
    /\ (q_region q = Some [] ->
        r_articles resp
        = slice_to (q_limit q)
            (filter_category (q_category q)
               (filter_language (q_language q)
                  (cache_articles (news_cache w')))))
    /\ (q_language q = Some [] ->
        r_articles resp
        = slice_to (q_limit q)
            (filter_category (q_category q)
               (filter_region (q_region q)
                  (cache_articles (news_cache w')))))
    /\ (q_category q = Some [] ->
        r_articles resp
        = slice_to (q_limit q)
            (filter_language (q_language q)
               (filter_region (q_region q)
                  (cache_articles (news_cache w')))))
    /\ (q_region q = Some [] -> q_language q = Some [] ->
        q_category q = Some [] ->
        r_articles resp
        = slice_to (q_limit q) (cache_articles (news_cache w'))).
Proof.
  intros Hinv.
  destruct (get_news_total rt registry q w) as (resp & w' & Hg & Hsel & Htot & Hkeep).
  specialize (Hkeep Hinv). exists resp, w'.
  assert (matching q (cache_articles (news_cache w')) = [] ->
          r_articles resp = [] /\ r_total resp = 0%nat) as Hnone.
  { intros Hm. rewrite Hm, slice_to_nil in Hsel. by rewrite Htot, Hsel. }
  split; [done|]. split; [done|]. split; [done|].
  split; [|split; [|split; [|split; [|split; [|split]]]]].
  4: { intros Hr. rewrite Hsel. unfold matching. by rewrite Hr. }
  4: { intros Hl. rewrite Hsel. unfold matching. by rewrite Hl. }
  4: { intros Hc. rewrite Hsel. unfold matching. by rewrite Hc. }
  4: { intros Hr Hl Hc. rewrite Hsel. unfold matching.
       by rewrite Hr, Hl, Hc. }
  - intros r Hr Hne Hunknown.
    pose proof (dict_get_unknown region_codes r Hunknown) as Hd.
    split; [done|]. apply Hnone, elem_of_nil_inv. intros a Ha.
    apply matching_elem in Ha as (_ & Hreg & _).
    specialize (Hreg r). rewrite Hr, truthy_nonempty, Hd in Hreg by done.
    specialize (Hreg eq_refl). by apply elem_of_nil in Hreg.
  - intros c Hc Hne Hunknown. apply Hnone, elem_of_nil_inv. intros a Ha.
    apply matching_elem in Ha as (Hin & _ & _ & Hcat).
    specialize (Hcat c). rewrite Hc, truthy_nonempty in Hcat by done.
    specialize (Hcat eq_refl).
    eapply Forall_forall in Hkeep as (cfg & _ & _ & _ & _ & Hcats); [|exact Hin].
    rewrite Hcats in Hcat. by apply categorize_article_labels in Hcat.
  - intros lang Hl Hne Hunknown. apply Hnone, elem_of_nil_inv. intros a Ha.
    apply matching_elem in Ha as (Hin & _ & Hlang & _).
    specialize (Hlang lang). rewrite Hl, truthy_nonempty in Hlang by done.
    specialize (Hlang eq_refl).
    eapply Forall_forall in Hkeep as (cfg & Hcfg & _ & Hcl & _); [|exact Hin].
    apply Hunknown. apply list_elem_of_fmap. exists cfg. split; [congruence | done].
Qed.

Lemma told_a_cache_from_feeds :
  cache_from_feeds twice_told two_feeds
    (news_cache (cached_world (at_time 12 30) [told_a] [])).
Proof.
  constructor; [|constructor].
  exists feed_a. split; [left|]. by vm_compute.
Qed.

Lemma unknown_region_sample :
  exists resp w',
    get_news twice_told two_feeds (query_region (s2u "mars"))
      (cached_world (at_time 12 30) [told_a] []) = (inr resp, w')
    /\ r_articles resp = [] /\ r_total resp = 0%nat.
Proof.
  destruct (unknown_filter_values twice_told two_feeds
              (query_region (s2u "mars"))
              (cached_world (at_time 12 30) [told_a] [])
              told_a_cache_from_feeds)
    as (resp & w' & Hg & _ & _ & Hregion & _).
  destruct (Hregion (s2u "mars")) as (_ & Harts & Htot).
  - done.
  - done.
  - apply (bool_decide_unpack _). by vm_compute.
  - by exists resp, w'.
Defined.

(** The sentence as worded fails for the empty region, which is outside
    the allow-list: [if region] takes it for no filter at all, and the
    answer holds the whole cache. *)
Lemma empty_region_not_filtered :
  ([] ∉ region_codes.*1)
  /\ (get_news twice_told two_feeds (query_region [])
        (cached_world (at_time 12 30) [told_a] [])).1
     = inr {| r_articles := [told_a]; r_total := 1;
              r_cache_age := 1800000123; r_sources_count := 2;
              r_filters := (Some [], None, None) |}
  /\ ~ unknown_region_as_stated.
Proof.
  assert ([] ∉ region_codes.*1) as Hout
    by (apply (bool_decide_unpack _); by vm_compute).
  split; [done|]. split; [by vm_compute|].
  intros Hclaim.
  destruct (Hclaim twice_told two_feeds (query_region [])
              (cached_world (at_time 12 30) [told_a] []) [] eq_refl Hout)
    as (resp & w' & Hg & Harts).
  apply (f_equal fst) in Hg. vm_compute in Hg.
  injection Hg as <-. discriminate Harts.
Qed.

(** ** The [total] of a response *)

Lemma slice_to_length {A} (limit : Z) (l : list A) :
  0 <= limit ->
  length (slice_to limit l) = Nat.min (Z.to_nat limit) (length l).
Proof.
  intros Hl. unfold slice_to.
  assert ((0 <=? limit) = true) as -> by by apply Z.leb_le.
  apply length_take.
Qed.

(** C10, as the code has it. The [total] of a response of [get_news] is
    the number of articles it returns: those of the cache that pass the
    filters, cut to the limit. When the limit is not negative and more
    articles match than it allows, [total] is the limit; when no more
    match than it allows, [total] is their number. *)
Theorem response_total (rt : PyRuntime)
    (registry : list (str * list feed_config)) (q : news_query) (w : World) :
  exists resp w',
    get_news rt registry q w = (inr resp, w')
    /\ r_total resp = length (r_articles resp)
    /\ r_articles resp
       = slice_to (q_limit q) (matching q (cache_articles (news_cache w')))
    /\ (0 <= q_limit q ->
        q_limit q < Z.of_nat (length (matching q (cache_articles (news_cache w')))) ->
        Z.of_nat (r_total resp) = q_limit q)
    /\ (Z.of_nat (length (matching q (cache_articles (news_cache w')))) <= q_limit q ->
        r_total resp = length (matching q (cache_articles (news_cache w')))).
Proof.
  destruct (get_news_total rt registry q w) as (resp & w' & Hg & Hsel & Htot & _).
  exists resp, w'. split; [done|]. split; [done|]. split; [done|].
  rewrite Htot, Hsel. split.
  - intros Hpos Hmore. rewrite slice_to_length by done. lia.
  - intros Hall. by rewrite slice_to_all.
Qed.

Lemma response_total_sample :
  exists resp w',
    get_news three_stories two_feeds (query_limit 2) three_cached
    = (inr resp, w')
    /\ r_total resp = 2%nat.
Proof.
  destruct (response_total three_stories two_feeds (query_limit 2) three_cached)
    as (resp & w' & Hg & _ & _ & Hcut & _).
  exists resp, w'. split; [done|].
  assert (news_cache w' = news_cache three_cached) as Hc.
  { apply (f_equal snd) in Hg. simpl in Hg. by rewrite <- Hg. }
  rewrite Hc in Hcut. apply Nat2Z.inj. apply Hcut; by vm_compute.
Defined.

(** The sentence as worded fails for a negative limit, which the slice
    counts from the end: with three matching articles and the limit -1
    the response holds two articles and [total] is 2. *)
Lemma negative_limit_total :
  (get_news three_stories two_feeds (query_limit (-1)) three_cached).1
  = inr {| r_articles := [story_1; story_2]; r_total := 2;
           r_cache_age := 1800000123; r_sources_count := 2;
           r_filters := (None, None, None) |}
  /\ length (matching (query_limit (-1))
               (cache_articles (news_cache three_cached))) = 3%nat
  /\ ~ total_is_limit_as_stated.
Proof.
  split; [by vm_compute|]. split; [by vm_compute|].
  intros Hclaim.
  destruct (get_news three_stories two_feeds (query_limit (-1)) three_cached)
    as [[e|resp] w'] eqn:Hg.
  { apply (f_equal fst) in Hg. by vm_compute in Hg. }
  assert (news_cache w' = news_cache three_cached) as Hc.
  { apply (f_equal snd) in Hg. simpl in Hg. by rewrite <- Hg. }
  specialize (Hclaim three_stories two_feeds (query_limit (-1)) three_cached
                resp w' Hg).
  rewrite Hc in Hclaim. simpl in Hclaim. lia.
Qed.

(** * Further properties of the news pipeline *)

(** ** The merge step *)

Lemma insert_desc_front (x : article) (l : list article) :
  Forall (not_older x) l -> insert_desc x l = x :: l.
Proof.
  intros Hx. destruct l as [|y l]; [done|]. simpl.
  apply Forall_cons in Hx as [Hy _]. unfold not_older, str_le in Hy.
  by rewrite Hy.
Qed.

Lemma sort_desc_sorted_id (l : list article) :
  StronglySorted not_older l -> sort_desc l = l.
Proof.
  induction 1 as [|x l Hl IH Hx]; [done|].
  unfold sort_desc in *. simpl. rewrite IH. by apply insert_desc_front.
Qed.

Lemma merge_articles_elem (rt : PyRuntime) (l : list article) (a : article) :
  a ∈ merge_articles rt l -> a ∈ l.
Proof.
  intros Ha. apply dedup_from_elem in Ha as [Ha _].
  by rewrite sort_desc_perm in Ha.
Qed.

Lemma dedup_from_length (rt : PyRuntime) (seen : gset str) (l : list article) :
  (length (dedup_from rt seen l) <= length l)%nat.
Proof.
  revert seen. induction l as [|x l IH]; intros seen; simpl; [done|].
  destruct (decide (title_key rt x ∈ seen)).
  - specialize (IH seen). lia.
  - specialize (IH ({[title_key rt x]} ∪ seen)). simpl. lia.
Qed.

Lemma merge_articles_length (rt : PyRuntime) (l : list article) :
  (length (merge_articles rt l) <= length l)%nat.
Proof.
  unfold merge_articles.
  pose proof (dedup_from_length rt ∅ (sort_desc l)) as H.
  by rewrite (Permutation_length (sort_desc_perm l)) in H.
Qed.

(** X1. Merging is idempotent: sorting and de-duplicating a list that
    was already merged returns it unchanged. The merge invents nothing:
    every article it returns was passed in, and it never returns more
    articles than it was given. *)
Theorem merge_articles_idempotent (rt : PyRuntime) (l : list article) :
  merge_articles rt (merge_articles rt l) = merge_articles rt l
  /\ (forall a, a ∈ merge_articles rt l -> a ∈ l)
  /\ (length (merge_articles rt l) <= length l)%nat.
Proof.
  split; [|split; [apply merge_articles_elem | apply merge_articles_length]].
  unfold merge_articles at 1.
  rewrite sort_desc_sorted_id
    by apply dedup_from_sorted, sort_desc_sorted.
  apply dedup_from_fresh.
  - apply dedup_from_NoDup.
  - intros a _. apply not_elem_of_empty.
Qed.

Lemma sort_desc_perm_unique (l1 l2 : list article) :
  l1 ≡ₚ l2 -> NoDup (sort_key <$> l1) -> sort_desc l1 = sort_desc l2.
Proof.
  intros Hperm Hnd.
  apply (StronglySorted_unique_strong not_older);
    [| apply sort_desc_sorted | apply sort_desc_sorted
     | by rewrite !sort_desc_perm].
  intros x1 x2 H1 H2 H12 H21.
  rewrite sort_desc_perm in H1. rewrite sort_desc_perm, <- Hperm in H2.
  apply (NoDup_fmap_same sort_key l1); [done | done | done |].
  by apply str_leb_antisym.
Qed.

(** X2. When no two collected articles have the same [published]
    string, the merged list does not depend on the order in which the
    articles were collected: any rearrangement of the input gives the
    same result. *)
Theorem merge_articles_order_independent (rt : PyRuntime)
    (l1 l2 : list article) :
  l1 ≡ₚ l2 -> NoDup (sort_key <$> l1) ->
  merge_articles rt l1 = merge_articles rt l2.
Proof.
  intros Hperm Hnd. unfold merge_articles.
  by rewrite (sort_desc_perm_unique l1 l2 Hperm Hnd).
Qed.

Lemma merge_articles_order_sample :
  merge_articles (sample_runtime []) [story_3; story_1; story_2]
  = merge_articles (sample_runtime []) [story_1; story_2; story_3].
Proof.
  apply merge_articles_order_independent.
  - rewrite (Permutation_cons_append [story_1; story_2] story_3). done.
  - apply (bool_decide_unpack _). by vm_compute.
Defined.

(** ** What the fetcher builds *)

Lemma matching_categories_sublist (table : list (str * list str)) (text : str) :
  matching_categories table text `sublist_of` table.*1.
Proof.
  induction table as [|[c kws] table IH]; simpl; [done|].
  destruct (any_keyword_in kws text).
  - by apply sublist_skip.
  - by apply sublist_cons.
Qed.

Lemma categorize_article_shape (rt : PyRuntime) (title summary : str) :
  categorize_article rt title summary = [GENERAL]
  \/ (categorize_article rt title summary <> []
      /\ categorize_article rt title summary `sublist_of` NEWS_CATEGORIES.*1).
Proof.
  unfold categorize_article.
  pose proof (matching_categories_sublist NEWS_CATEGORIES
                (lower rt (title ++ [SPACE] ++ summary))) as Hsub.
  destruct (matching_categories _ _) as [|c cs]; [by left | by right].
Qed.

Lemma digits_length (k : nat) (v : Z) : length (digits k v) = k.
Proof.
  revert v. induction k as [|k IH]; intros v; simpl; [done|].
  rewrite length_app, IH. simpl. lia.
Qed.

Lemma isoformat_length (d : datetime) :
  length (isoformat d) = if microsecond d =? 0 then 25%nat else 32%nat.
Proof.
  unfold isoformat. destruct (microsecond d =? 0);
    rewrite !length_app, !digits_length; reflexivity.
Qed.

Lemma process_entry_inv (rt : PyRuntime) (cfg : feed_config) (e : entry)
    (w w' : World) (a : article) :
  process_entry rt cfg e w = (inr a, w') ->
  exists d,
    resolve_pub_date e w = (inr d, w')
    /\ generate_article_id (link_of e) = inr (article_id a)
    /\ clean_html rt (Some (title_of e)) = inr (title a)
    /\ entry_summary_text rt e = inr (summary a)
    /\ url a = link_of e
    /\ published a = Some (isoformat d)
    /\ image_url a = entry_image e
    /\ article_of_feed rt cfg a.
Proof.
  unfold process_entry, mbind, M_bind.
  destruct (resolve_pub_date_total e w) as (d & w1 & -> & _).
  unfold lift, link_of.
  destruct (entry_summary_text rt e) as [ex|s]; [done|].
  destruct (clean_html rt (Some (title_of e))) as [ex|t]; [done|].
  destruct (generate_article_id (default [] (entry_link e))) as [ex|ident];
    [done|].
  intros [= <- <-]. exists d. by repeat split.
Qed.

Lemma process_entries_Forall (rt : PyRuntime) (cfg : feed_config)
    (P : article -> Prop) (entries : list entry) (acc : list article)
    (w : World) :
  (forall e w0 a w1, process_entry rt cfg e w0 = (inr a, w1) -> P a) ->
  Forall P acc ->
  Forall P (process_entries rt cfg entries acc w).1.2
  /\ (length (process_entries rt cfg entries acc w).1.2
      <= length acc + length entries)%nat.
Proof.
  intros HP. revert acc w.
  induction entries as [|e entries IH]; intros acc w Hacc; simpl.
  - split; [done | lia].
  - destruct (process_entry rt cfg e w) as [[ex|a] w1] eqn:He; simpl.
    + split; [done | lia].
    + destruct (IH (acc ++ [a]) w1) as [HF Hlen].
      { apply Forall_app. split; [done|]. constructor; [|done]. by eapply HP. }
      split; [done|]. rewrite length_app in Hlen. simpl in Hlen. lia.
Qed.

Lemma fetch_single_feed_Forall (rt : PyRuntime) (cfg : feed_config)
    (P : article -> Prop) (w : World) :
  (forall e w0 a w1, process_entry rt cfg e w0 = (inr a, w1) -> P a) ->
  exists arts w',
    fetch_single_feed rt cfg w = (inr arts, w')
    /\ Forall P arts /\ (length arts <= 10)%nat /\ fetched cfg w w'.
Proof.
  intros HP.
  destruct (fetch_single_feed_total rt cfg w) as (arts & w' & Hf & _ & Hw).
  exists arts, w'. split; [done|].
  assert (Forall P arts /\ (length arts <= 10)%nat) as [? ?]; [|done].
  revert Hf. unfold fetch_single_feed, http_get.
  destruct (net w (feed_url cfg)) as [ex|resp].
  { intros [= <- _]. split; [constructor | simpl; lia]. }
  destruct (status_code resp =? 200).
  2: { intros [= <- _]. split; [constructor | simpl; lia]. }
  destruct (feedparser_parse rt (text resp)) as [ex|entries].
  { intros [= <- _]. split; [constructor | simpl; lia]. }
  destruct (process_entries_Forall rt cfg P (take 10 entries) []
              (log_call (feed_url cfg) w) HP (Forall_nil_2 P))
    as [HF Hlen].
  rewrite length_take in Hlen. cbn [length] in Hlen.
  destruct (process_entries rt cfg (take 10 entries) []
              (log_call (feed_url cfg) w)) as [[[ex|] l] w2];
    cbn [fst snd] in *; intros [= <- _]; (split; [done | lia]).
Qed.

(** X3. Whatever a feed answers, [fetch_single_feed] returns at most ten
    articles, calls the client once, with the address of the feed, and
    leaves the cache and the count of aggregation passes as they were.
    The requests that the client sends while it follows redirects are
    its own and are not counted here. *)
Theorem fetch_single_feed_bounds (rt : PyRuntime) (cfg : feed_config)
    (w : World) :
  exists arts w',
    fetch_single_feed rt cfg w = (inr arts, w')
    /\ (length arts <= 10)%nat
    /\ client_calls w' = client_calls w ++ [feed_url cfg]
    /\ news_cache w' = news_cache w
    /\ passes w' = passes w.
Proof.
  destruct (fetch_single_feed_Forall rt cfg (fun _ => True) w)
    as (arts & w' & Hf & _ & Hlen & Hc & _ & _ & Hp & Hr); [done|].
  by exists arts, w'.
Qed.

(** X4. Every article that [fetch_single_feed] returns carries the
    name, language and region of its feed, an identifier of 12
    characters from [0-9a-f] that is the one computed from its link, a
    title and a summary of at most 503 characters, a [published] string
    that is the ISO form of a time (25 characters, or 32 with
    microseconds), and a list of categories that is not empty, has no
    repetition and is either [general] alone or a selection of the
    taxonomy in its order. *)
Theorem fetched_article_shape (rt : PyRuntime) (cfg : feed_config)
    (w : World) :
  exists arts w',
    fetch_single_feed rt cfg w = (inr arts, w')
    /\ Forall (fun a =>
         source a = feed_name cfg /\ language a = feed_lang cfg
         /\ region a = feed_region cfg
         /\ generate_article_id (url a) = inr (article_id a)
         /\ length (article_id a) = 12%nat
         /\ Forall is_hex_char (article_id a)
         /\ (length (title a) <= 503)%nat
         /\ (length (summary a) <= 503)%nat
         /\ (exists d, published a = Some (isoformat d)
                       /\ (length (isoformat d) = 25%nat
                           \/ length (isoformat d) = 32%nat))
         /\ categories a <> [] /\ NoDup (categories a)
         /\ (categories a = [GENERAL]
             \/ categories a `sublist_of` NEWS_CATEGORIES.*1)) arts.
Proof.
  destruct (fetch_single_feed_Forall rt cfg
              (fun a =>
         source a = feed_name cfg /\ language a = feed_lang cfg
         /\ region a = feed_region cfg
         /\ generate_article_id (url a) = inr (article_id a)
         /\ length (article_id a) = 12%nat
         /\ Forall is_hex_char (article_id a)
         /\ (length (title a) <= 503)%nat
         /\ (length (summary a) <= 503)%nat
         /\ (exists d, published a = Some (isoformat d)
                       /\ (length (isoformat d) = 25%nat
                           \/ length (isoformat d) = 32%nat))
         /\ categories a <> [] /\ NoDup (categories a)
         /\ (categories a = [GENERAL]
             \/ categories a `sublist_of` NEWS_CATEGORIES.*1)) w)
    as (arts & w' & Hf & HF & _); [|by exists arts, w'].
  intros e w0 a w1 He.
  apply process_entry_inv in He
    as (d & _ & Hid & Ht & Hs & Hu & Hp & _ & Hsrc & Hl & Hr & Hc).
  split; [done|]. split; [done|]. split; [done|].
  split; [by rewrite Hu|].
  assert (length (article_id a) = 12%nat /\ Forall is_hex_char (article_id a))
    as [Hlen Hhex].
  { unfold generate_article_id in Hid.
    destruct (encode (link_of e)) as [ex|bytes]; [done|].
    injection Hid as <-. apply article_id_shape. }
  split; [done|]. split; [done|].
  split; [by eapply clean_html_length|].
  split.
  { revert Hs. unfold entry_summary_text.
    destruct (entry_summary e); [apply clean_html_length|].
    destruct (entry_description e); [apply clean_html_length|].
    intros [= <-]. simpl. lia. }
  split.
  { exists d. split; [done|]. rewrite isoformat_length.
    destruct (microsecond d =? 0); auto. }
  rewrite Hc.
  pose proof NEWS_CATEGORIES_keys as Hkeys. apply NoDup_cons in Hkeys as [_ Hkeys].
  destruct (categorize_article_shape rt (title a) (summary a))
    as [-> | [Hne Hsub]].
  - split; [done|]. split; [|by left]. apply NoDup_singleton.
  - split; [done|]. split; [by eapply sublist_NoDup | by right].
Qed.

(** X5. The [published] value of an article is chosen in this order:
    the publication date of the entry when it has one, else its date of
    update, else the reading of the clock. A date that the [datetime]
    constructor refuses is replaced by the reading of the clock; in
    particular a refused publication date is not replaced by the date
    of update. The clock is read only in these fallback cases. *)
Theorem published_priority (rt : PyRuntime) (cfg : feed_config) (e : entry)
    (w w' : World) (a : article) :
  process_entry rt cfg e w = (inr a, w') ->
  let chosen :=
    match published_parsed e with
    | Some t => Some t
    | None => updated_parsed e
    end in
  match chosen with
  | Some t =>
      match datetime_of t with
      | inr d => published a = Some (isoformat d) /\ ticks w' = ticks w
      | inl _ =>
          published a = Some (isoformat (clock w (ticks w)))
          /\ ticks w' = S (ticks w)
      end
  | None =>
      published a = Some (isoformat (clock w (ticks w)))
      /\ ticks w' = S (ticks w)
  end.
Proof.
  intros He. apply process_entry_inv in He as (d & Hd & _ & _ & _ & _ & Hp & _).
  rewrite Hp. clear Hp. revert Hd. unfold resolve_pub_date.
  destruct (published_parsed e) as [t|]; [|destruct (updated_parsed e) as [t|]];
    cbv zeta; unfold try_except, lift, now;
    try destruct (datetime_of t); by intros [= <- <-].
Qed.

Lemma published_priority_bad_date :
  exists a w',
    process_entry (sample_runtime []) feed_b bad_date_entry silent_world
    = (inr a, w')
    /\ published a = Some (s2u "2024-05-01T13:00:00.000123+00:00").
Proof.
  destruct (process_entry (sample_runtime []) feed_b bad_date_entry silent_world)
    as [[ex|a] w'] eqn:He; [by vm_compute in He|].
  exists a, w'. split; [done|].
  by destruct (published_priority _ _ _ _ _ _ He) as [-> _].
Defined.

(** ** One aggregation pass *)

Lemma gather_fetch_length (rt : PyRuntime) (feeds : list feed_config)
    (w : World) :
  (length (combine_results (gather (map (fetch_single_feed rt) feeds) w).1)
   <= 10 * length feeds)%nat
  /\ ((forall cfg, cfg ∈ feeds -> exists e, net w (feed_url cfg) = inl e) ->
      combine_results (gather (map (fetch_single_feed rt) feeds) w).1 = []).
Proof.
  revert w. induction feeds as [|cfg feeds IH]; intros w; simpl.
  - split; [lia | done].
  - destruct (fetch_single_feed_Forall rt cfg (fun _ => True) w)
      as (arts & w1 & Hf & _ & Hlen & _ & _ & Hn & _); [done|].
    rewrite Hf. destruct (IH w1) as [IHlen IHfail].
    destruct (gather (map (fetch_single_feed rt) feeds) w1) as [rs w2].
    simpl in *. split.
    + rewrite length_app. lia.
    + intros Hall.
      assert (arts = []) as ->.
      { destruct (Hall cfg) as [ex Hex]; [left|].
        revert Hf. unfold fetch_single_feed, http_get. rewrite Hex.
        by intros [= <- _]. }
      simpl. apply IHfail. intros c Hc. rewrite Hn. apply Hall. by right.
Qed.

(** X6. One run of [fetch_all_feeds] counts as one pass, calls the
    client once for every feed of the registry, in the order of the
    registry, in which the tasks are started, and returns at most ten
    articles per feed: at most 160 for the sixteen feeds of
    [NEWS_FEEDS]. When every call fails it returns the empty list, not
    an error. The requests that the client sends while it follows
    redirects are its own and are not counted here. *)
Theorem fetch_all_feeds_bounds (rt : PyRuntime)
    (registry : list (str * list feed_config)) (w : World) :
  exists res w',
    fetch_all_feeds rt registry w = (inr res, w')
    /\ (length res <= 10 * length (all_feeds registry))%nat
    /\ (registry = NEWS_FEEDS -> (length res <= 160)%nat)
    /\ passes w' = S (passes w)
    /\ client_calls w' = client_calls w ++ map feed_url (all_feeds registry)
    /\ ((forall cfg, cfg ∈ all_feeds registry ->
           exists e, net w (feed_url cfg) = inl e) ->
        res = []).
Proof.
  destruct (fetch_all_feeds_frame rt registry w)
    as (res & w' & Hf & -> & _ & _ & _ & Hp & Hr & _).
  eexists _, w'. split; [done|].
  destruct (gather_fetch_length rt (all_feeds registry) (count_pass w))
    as [Hlen Hfail].
  assert (length (merge_articles rt (collected rt registry w))
          <= 10 * length (all_feeds registry))%nat as Hbound.
  { etrans; [apply merge_articles_length | exact Hlen]. }
  split; [done|]. split.
  { intros ->. change (length (all_feeds NEWS_FEEDS)) with 16%nat in Hbound. lia. }
  split; [done|]. split; [done|].
  intros Hall. unfold collected. by rewrite Hfail.
Qed.

(** ** The cache over several requests *)

(** The condition under which [get_news] answers from the cache. *)
Lemma cache_valid_true (refresh : bool) (w : World) :
  (cache_valid refresh w).1 = inr true
  <-> exists t,
        last_updated (news_cache w) = Some t
        /\ timedelta_between (clock w (ticks w)) t
           < cache_duration (news_cache w)
        /\ cache_articles (news_cache w) <> []
        /\ refresh = false.
Proof.
  rewrite cache_valid_spec.
  destruct (last_updated (news_cache w)) as [t|]; cbn [fst].
  - split.
    + intros H. apply (inj inr) in H. apply andb_prop in H as [H Hr].
      apply andb_prop in H as [Hfresh Hlen].
      apply bool_decide_eq_true in Hfresh, Hlen.
      exists t. split; [done|]. split; [done|]. split.
      * intros Hnil. rewrite Hnil in Hlen. simpl in Hlen. lia.
      * by destruct refresh.
    + intros (t' & [= <-] & Hfresh & Hne & ->).
      rewrite bool_decide_eq_true_2 by done.
      rewrite bool_decide_eq_true_2; [done|].
      destruct (cache_articles (news_cache w)); [done | simpl; lia].
  - split; [done | by intros (t & ? & _)].
Qed.

Lemma cache_valid_bool (refresh : bool) (w : World) :
  exists b, (cache_valid refresh w).1 = inr b.
Proof.
  rewrite cache_valid_spec.
  destruct (last_updated (news_cache w)); by eexists.
Qed.

(** X7. [get_news] runs at most one aggregation pass. It runs none
    exactly when the cache has been filled before, less than
    [cache_duration] has passed since, the cache holds at least one
    article and no refresh is asked for; in every other case, a forced
    refresh and a cache that was never filled included, it runs exactly
    one. After every request the cache carries the time of its last
    filling. *)
Theorem get_news_passes (rt : PyRuntime)
    (registry : list (str * list feed_config)) (q : news_query) (w : World) :
  let served :=
    exists t,
      last_updated (news_cache w) = Some t
      /\ timedelta_between (clock w (ticks w)) t
         < cache_duration (news_cache w)
      /\ cache_articles (news_cache w) <> []
      /\ q_refresh q = false in
  exists resp w',
    get_news rt registry q w = (inr resp, w')
    /\ (served -> passes w' = passes w /\ news_cache w' = news_cache w)
    /\ (~ served -> passes w' = S (passes w))
    /\ last_updated (news_cache w') <> None
    /\ cache_duration (news_cache w') = cache_duration (news_cache w).
Proof.
  intros served.
  destruct (cache_valid_bool (q_refresh q) w) as [[|] Hb].
  - assert served as Hs by by apply cache_valid_true.
    destruct Hs as (t & Ht & Hfresh & Hne & Hq).
    pose proof (get_or_refresh_hit rt registry w t Ht Hfresh Hne) as Hhit.
    rewrite <- Hq in Hhit.
    destruct (get_news_tail rt registry q w (tick w) Hhit)
      as (resp & w' & Hg & _ & _ & Hc & Hp & _).
    exists resp, w'. simpl in Hc, Hp. split; [done|].
    split; [done|]. split; [intros Hn; destruct Hn; by exists t|].
    rewrite Hc. split; [by rewrite Ht | done].
  - assert (~ served) as Hns.
    { intros Hs. apply cache_valid_true in Hs. congruence. }
    destruct (get_or_refresh_miss rt registry (q_refresh q) w Hb)
      as (fresh & w1 & w0 & _ & Hg & Hc & _ & _ & Hp & _).
    destruct (get_news_tail rt registry q w w0 Hg)
      as (resp & w' & Hn & _ & _ & Hc' & Hp' & _).
    exists resp, w'. split; [done|]. split; [done|].
    split; [intros _; congruence|].
    rewrite Hc', Hc. by split.
Qed.

(** X8. [refresh_news] always runs exactly one aggregation pass and
    stores its result: the count it returns is the number of stored
    articles and the time stamp is the ISO form of the stored time.
    A [GET /news] without the refresh flag that follows while the stored
    list is not empty and less than [cache_duration] has passed answers
    from that list without another pass. *)
Theorem refresh_news_spec (rt : PyRuntime)
    (registry : list (str * list feed_config)) (w : World) :
  exists n ts t w',
    refresh_news rt registry w = (inr (n, ts), w')
    /\ passes w' = S (passes w)
    /\ cache_articles (news_cache w') = merge_articles rt (collected rt registry w)
    /\ last_updated (news_cache w') = Some t
    /\ cache_duration (news_cache w') = cache_duration (news_cache w)
    /\ n = length (cache_articles (news_cache w'))
    /\ ts = isoformat t
    /\ (forall q,
          q_refresh q = false ->
          cache_articles (news_cache w') <> [] ->
          timedelta_between (clock w' (ticks w')) t
          < cache_duration (news_cache w') ->
          exists resp w'',
            get_news rt registry q w' = (inr resp, w'')
            /\ r_articles resp
               = select_articles q (cache_articles (news_cache w'))
            /\ passes w'' = passes w').
Proof.
  destruct (refill_spec rt registry w)
    as (fresh & w1 & w' & Hf & Hr & Hc & _ & _ & Hp & _).
  destruct (fetch_all_feeds_result rt registry w) as [w1' Hres].
  rewrite Hres in Hf. injection Hf as <- <-.
  eexists _, _, (clock w1' (ticks w1')), w'.
  split.
  { unfold refresh_news, mbind, M_bind. rewrite Hr.
    unfold get_cache, mret, M_ret. by rewrite Hc. }
  split; [done|]. rewrite Hc. cbn [cache_articles last_updated cache_duration].
  do 5 (split; [done|]).
  intros q Hq Hne Hfresh.
  assert (last_updated (news_cache w') = Some (clock w1' (ticks w1')))
    as Ht by by rewrite Hc.
  assert (timedelta_between (clock w' (ticks w')) (clock w1' (ticks w1'))
          < cache_duration (news_cache w')) as Hfresh' by by rewrite Hc.
  assert (cache_articles (news_cache w') <> []) as Hne' by by rewrite Hc.
  pose proof (get_or_refresh_hit rt registry w' _ Ht Hfresh' Hne') as Hhit.
  rewrite <- Hq in Hhit.
  destruct (get_news_tail rt registry q w' (tick w') Hhit)
    as (resp & w'' & Hg & Hsel & _ & _ & Hp' & _).
  exists resp, w''. split; [done|]. simpl in Hsel, Hp'.
  rewrite Hc in Hsel. by split.
Qed.

Lemma sublist_StronglySorted (l1 l2 : list article) :
  l1 `sublist_of` l2 ->
  StronglySorted not_older l2 -> StronglySorted not_older l1.
Proof.
  induction 1 as [|x l1 l2 Hsub IH|x l1 l2 Hsub IH]; intros Hs.
  - constructor.
  - apply StronglySorted_inv in Hs as [Hs Hx]. constructor; [by apply IH|].
    apply Forall_forall. intros y Hy.
    eapply Forall_forall in Hx; [exact Hx|]. by eapply elem_of_sublist.
  - apply StronglySorted_inv in Hs as [Hs _]. by apply IH.
Qed.

Lemma sublist_slice_to {A} (limit : Z) (l : list A) :
  slice_to limit l `sublist_of` l.
Proof. unfold slice_to. destruct (0 <=? limit); apply sublist_take. Qed.

Lemma matching_sublist (q : news_query) (l : list article) :
  matching q l `sublist_of` l.
Proof.
  unfold matching, filter_category, filter_language, filter_region.
  destruct (truthy (q_category q)), (truthy (q_language q)),
    (truthy (q_region q));
    repeat (etrans; [apply sublist_filter|]); done.
Qed.

Lemma matching_complete (q : news_query) (l : list article) (a : article) :
  a ∈ l ->
  (forall r, truthy (q_region q) = Some r ->
     region a ∈ dict_get region_codes r) ->
  (forall lang, truthy (q_language q) = Some lang -> language a = lang) ->
  (forall c, truthy (q_category q) = Some c -> c ∈ categories a) ->
  a ∈ matching q l.
Proof.
  intros Ha Hr Hl Hc.
  unfold matching, filter_category, filter_language, filter_region.
  destruct (truthy (q_category q)) as [c|];
    [apply list_elem_of_filter; split; [by apply Hc|]|];
    (destruct (truthy (q_language q)) as [lang|];
      [apply list_elem_of_filter; split; [by apply Hl|]|]);
    (destruct (truthy (q_region q)) as [r|];
      [apply list_elem_of_filter; split; [by apply Hr|]|]); done.
Qed.

(** X9. The articles of a [GET /news] response are articles of the
    cache, in the order of the cache, so the response is in descending
    order of [published] and free of repeated title keys whenever the
    cache is. Each of them passes every filter that is set: its region
    is one of the codes of the region group, its language is the one
    asked for and the category asked for is among its categories. When
    the limit is at least the number of matching articles, every
    matching article of the cache is in the response. *)
Theorem get_news_selection (rt : PyRuntime)
    (registry : list (str * list feed_config)) (q : news_query) (w : World) :
  exists resp w',
    get_news rt registry q w = (inr resp, w')
    /\ r_articles resp `sublist_of` cache_articles (news_cache w')
    /\ (descending (cache_articles (news_cache w')) ->
        descending (r_articles resp))
    /\ (NoDup (title_key rt <$> cache_articles (news_cache w')) ->
        NoDup (title_key rt <$> r_articles resp))
    /\ (forall a, a ∈ r_articles resp ->
          (forall r, truthy (q_region q) = Some r ->
             region a ∈ dict_get region_codes r)
          /\ (forall lang, truthy (q_language q) = Some lang ->
                language a = lang)
          /\ (forall c, truthy (q_category q) = Some c -> c ∈ categories a))
    /\ (Z.of_nat (length (matching q (cache_articles (news_cache w'))))
        <= q_limit q ->
        forall a, a ∈ cache_articles (news_cache w') ->
          (forall r, truthy (q_region q) = Some r ->
             region a ∈ dict_get region_codes r) ->
          (forall lang, truthy (q_language q) = Some lang ->
             language a = lang) ->
          (forall c, truthy (q_category q) = Some c -> c ∈ categories a) ->
          a ∈ r_articles resp).
Proof.
  destruct (get_news_total rt registry q w) as (resp & w' & Hg & Hsel & _ & _).
  exists resp, w'. split; [done|]. rewrite Hsel.
  assert (slice_to (q_limit q) (matching q (cache_articles (news_cache w')))
          `sublist_of` cache_articles (news_cache w')) as Hsub.
  { etrans; [apply sublist_slice_to | apply matching_sublist]. }
  split; [done|]. split; [|split; [|split]].
  - rewrite !descending_StronglySorted. by apply sublist_StronglySorted.
  - intros Hnd. apply (sublist_NoDup _ _ Hnd). by apply fmap_sublist.
  - intros a Ha. eapply elem_of_sublist in Ha; [|apply sublist_slice_to].
    apply matching_elem in Ha as (_ & ? & ? & ?). done.
  - intros Hlim a Ha Hr Hl Hc. rewrite slice_to_all by done.
    by apply matching_complete.
Qed.

(** ** Text that is already clean *)

Lemma tag_free_tail (c : char) (o : str) : tag_free (c :: o) -> tag_free o.
Proof.
  intros Ho pre body post Heq Hbody.
  apply (Ho (c :: pre) body post); [by rewrite Heq | done].
Qed.

Lemma strip_tags_from_fixed (s : str) :
  (tag_free s -> strip_tags_from None s = s)
  /\ (forall buf, GT ∉ buf -> tag_free (LT :: buf ++ s) ->
        strip_tags_from (Some buf) s = LT :: buf ++ s).
Proof.
  induction s as [|c s [IHn IHs]]; simpl.
  - split; [done|]. intros buf _ _. by rewrite app_nil_r.
  - split.
    + intros Hfree. destruct (N.eqb_spec c LT) as [->|Hc].
      * by apply (IHs []); [apply not_elem_of_nil|].
      * f_equal. apply IHn. by eapply tag_free_tail.
    + intros buf Hbuf Hfree. destruct (N.eqb_spec c GT) as [->|Hc].
      * destruct buf as [|b buf].
        -- simpl. do 2 f_equal. apply IHn.
           by do 2 apply tag_free_tail in Hfree.
        -- by specialize (Hfree [] (b :: buf) s eq_refl Hbuf).
      * rewrite IHs.
        -- by rewrite <- app_assoc.
        -- rewrite elem_of_app, list_elem_of_singleton.
           intros [?|?]; [done | by apply Hc].
        -- by rewrite <- app_assoc.
Qed.

Lemma collapse_from_fixed (b : bool) (s : str) :
  Forall (fun ch => is_space ch = true -> ch = SPACE) s ->
  (forall pre post, s <> pre ++ SPACE :: SPACE :: post) ->
  (b = true -> forall ch rest, s = ch :: rest -> is_space ch = false) ->
  collapse_from b s = s.
Proof.
  revert b. induction s as [|c s IH]; intros b Hsp Hdbl Hhead; simpl; [done|].
  apply Forall_cons in Hsp as [Hc Hsp].
  assert (forall pre post, s <> pre ++ SPACE :: SPACE :: post) as Hdbl'.
  { intros pre post ->. by apply (Hdbl (c :: pre) post). }
  destruct (is_space c) eqn:Hcs.
  - destruct b.
    + by rewrite (Hhead eq_refl c s eq_refl) in Hcs.
    + rewrite (Hc eq_refl). f_equal. apply IH; [done | done |].
      intros _ ch rest ->. destruct (is_space ch) eqn:Hch; [|done].
      apply Forall_cons in Hsp as [Hch' _]. rewrite (Hch' Hch) in Hdbl.
      rewrite (Hc eq_refl) in Hdbl. by destruct (Hdbl [] rest).
  - f_equal. by apply IH.
Qed.

Lemma strip_fixed (s : str) :
  (forall ch rest, s = ch :: rest -> is_space ch = false) ->
  (forall ch rest, s = rest ++ [ch] -> is_space ch = false) ->
  strip s = s.
Proof.
  intros Hhead Hlast. unfold strip.
  assert (lstrip s = s) as ->.
  { destruct s as [|c s]; [done|]. simpl. by rewrite (Hhead c s eq_refl). }
  unfold rstrip.
  assert (lstrip (rev s) = rev s) as ->; [|apply rev_involutive].
  destruct (rev s) as [|c r] eqn:Hr; [done|]. simpl.
  assert (s = rev r ++ [c]) as Hs.
  { rewrite <- (rev_involutive s), Hr. done. }
  by rewrite (Hlast c (rev r) Hs).
Qed.

(** X10. [clean_html] returns unchanged every text that is already
    clean: a text with nothing of the shape of a tag, no [&], single
    spaces only, none of them at either end, and at most 500
    characters. The result of [clean_html] itself is such a text when
    it was not cut and holds neither [&] nor a tag, so that cleaning it
    again changes nothing. *)
Theorem clean_html_fixed (rt : PyRuntime) (r : str) :
  tag_free r -> AMP ∉ r -> single_spaced r -> (length r <= 500)%nat ->
  clean_html rt (Some r) = inr r
  /\ (forall t, clean_html rt (Some t) = inr r ->
        clean_html rt (Some r) = clean_html rt (Some t)).
Proof.
  intros Hfree Hamp (Hsp & Hdbl & Hhead & Hlast) Hlen.
  assert (clean_html rt (Some r) = inr r) as Hfix.
  { destruct r as [|c r']; [done|]. set (r := c :: r') in *.
    rewrite clean_html_steps by done. unfold strip_tags.
    rewrite (proj1 (strip_tags_from_fixed r) Hfree).
    unfold unescape. rewrite decide_False by done.
    unfold collapse_ws. rewrite collapse_from_fixed by done.
    rewrite strip_fixed by done. by rewrite cap_short. }
  split; [done|]. intros t Ht. by rewrite Ht.
Qed.

Lemma clean_html_fixed_sample :
  clean_html (sample_runtime []) (Some (s2u "Neues Modell < 50'000 CHF"))
  = inr (s2u "Neues Modell < 50'000 CHF").
Proof.
  apply clean_html_fixed.
  - apply tag_free_no_gt. apply (bool_decide_unpack _). by vm_compute.
  - apply (bool_decide_unpack _). by vm_compute.
  - change (s2u "Neues Modell < 50'000 CHF")
      with (strip (collapse_ws (s2u "Neues Modell < 50'000 CHF"))).
    apply strip_collapse_single_spaced.
  - vm_compute. lia.
Defined.

(** ** The ISO form of a time and the order of time *)

Lemma str_leb_app (a b x y : str) :
  length a = length b ->
  str_leb (a ++ x) (b ++ y)
  = if decide (a = b) then str_leb x y else str_leb a b.
Proof.
  revert b. induction a as [|c a IH]; intros [|d b] Hlen; try done.
  simpl in Hlen. injection Hlen as Hlen.
  cbn [str_leb app]. rewrite (IH b Hlen).
  destruct (N.ltb_spec c d) as [Hlt|Hge]; cbn [orb].
  - case_decide as Heq; [injection Heq as -> _; lia | done].
  - destruct (N.eqb_spec c d) as [->|Hne]; cbn [andb].
    + repeat case_decide; try done.
      * subst. done.
      * simplify_eq.
    + case_decide as Heq; [by injection Heq as -> _ | done].
Qed.

Lemma str_leb_sep (sep x y : str) :
  str_leb (sep ++ x) (sep ++ y) = str_leb x y.
Proof. rewrite str_leb_app by done. by rewrite decide_True. Qed.

Lemma digits_order (k : nat) (v v' : Z) :
  0 <= v < 10 ^ Z.of_nat k -> 0 <= v' < 10 ^ Z.of_nat k ->
  (digits k v = digits k v' <-> v = v')
  /\ str_leb (digits k v) (digits k v') = (v <=? v').
Proof.
  revert v v'. induction k as [|k IH]; intros v v' Hv Hv'.
  - simpl in *. assert (v = 0) by lia. assert (v' = 0) by lia. by subst.
  - rewrite Nat2Z.inj_succ, Z.pow_succ_r in Hv, Hv' by lia.
    destruct (IH (v / 10) (v' / 10)) as [IHeq IHle].
    { split; [apply Z.div_pos; lia | apply Z.div_lt_upper_bound; lia]. }
    { split; [apply Z.div_pos; lia | apply Z.div_lt_upper_bound; lia]. }
    pose proof (Z.mod_pos_bound v 10 ltac:(lia)) as Hm.
    pose proof (Z.mod_pos_bound v' 10 ltac:(lia)) as Hm'.
    pose proof (Z.div_mod v 10 ltac:(lia)) as Hdm.
    pose proof (Z.div_mod v' 10 ltac:(lia)) as Hdm'.
    cbn [digits]. split.
    + split; [|by intros ->]. intros Heq.
      apply app_inj_2 in Heq as [Hd Hl]; [|done].
      apply IHeq in Hd. injection Hl as Hl. lia.
    + rewrite str_leb_app by by rewrite !digits_length.
      destruct (decide (digits k (v / 10) = digits k (v' / 10))) as [Hd|Hd].
      * apply IHeq in Hd. simpl. rewrite andb_true_r.
        destruct (Z.leb_spec v v');
          [apply orb_true_iff | apply orb_false_iff];
          rewrite ?N.ltb_lt, ?N.eqb_eq, ?N.ltb_ge, ?N.eqb_neq; lia.
      * rewrite IHle. assert (v / 10 <> v' / 10) by (by rewrite <- IHeq).
        destruct (Z.leb_spec (v / 10) (v' / 10)), (Z.leb_spec v v'); lia.
Qed.

Lemma str_leb_field (k : nat) (v v' : Z) (x y : str) :
  0 <= v < 10 ^ Z.of_nat k -> 0 <= v' < 10 ^ Z.of_nat k ->
  str_leb (digits k v ++ x) (digits k v' ++ y)
  = (v <? v') || ((v =? v') && str_leb x y).
Proof.
  intros Hv Hv'. destruct (digits_order k v v' Hv Hv') as [Heq Hle].
  rewrite str_leb_app by by rewrite !digits_length.
  destruct (decide (digits k v = digits k v')) as [Hd|Hd].
  - apply Heq in Hd as ->. by rewrite Z.ltb_irrefl, Z.eqb_refl.
  - rewrite Hle. assert (v <> v') by (by rewrite <- Heq).
    destruct (Z.leb_spec v v'), (Z.ltb_spec v v'), (Z.eqb_spec v v');
      simpl; lia.
Qed.

Lemma dby_step (y : Z) :
  days_before_year (y + 1)
  = days_before_year y + (if is_leap y then 366 else 365).
Proof.
  unfold days_before_year, is_leap.
  replace (y + 1 - 1) with y by lia.
  destruct (Z.eqb_spec (y mod 4) 0), (Z.eqb_spec (y mod 100) 0),
    (Z.eqb_spec (y mod 400) 0); simpl;
    Z.to_euclidean_division_equations; lia.
Qed.

Lemma dby_mono (y1 y2 : Z) :
  y1 <= y2 -> days_before_year y1 <= days_before_year y2.
Proof.
  intros H. unfold days_before_year.
  Z.to_euclidean_division_equations. lia.
Qed.

Lemma dim_bounds (y m : Z) : 28 <= days_in_month y m <= 31.
Proof.
  unfold days_in_month.
  destruct (m =? 2); [destruct (is_leap y); lia|].
  destruct (_ || _); lia.
Qed.

Lemma dbm_step (y m : Z) :
  1 <= m ->
  days_before_month y (m + 1) = days_before_month y m + days_in_month y m.
Proof.
  intros Hm. unfold days_before_month.
  replace (Z.to_nat (m + 1 - 1)) with (S (Z.to_nat (m - 1))) by lia.
  cbn [days_before_month_from]. do 2 f_equal. lia.
Qed.

Lemma dbm_mono (y m1 m2 : Z) :
  1 <= m1 -> m1 < m2 ->
  days_before_month y m1 + days_in_month y m1 <= days_before_month y m2.
Proof.
  intros H1 H12.
  assert (exists k : nat, m2 = m1 + 1 + Z.of_nat k) as [k ->].
  { exists (Z.to_nat (m2 - m1 - 1)). lia. }
  clear H12. induction k as [|k IH].
  - rewrite Z.add_0_r, dbm_step by done. lia.
  - replace (m1 + 1 + Z.of_nat (S k)) with (m1 + 1 + Z.of_nat k + 1) by lia.
    rewrite dbm_step by lia.
    pose proof (dim_bounds y (m1 + 1 + Z.of_nat k)). lia.
Qed.

Lemma dbm_year (y : Z) :
  days_before_month y 13 = if is_leap y then 366 else 365.
Proof.
  unfold days_before_month. change (Z.to_nat (13 - 1)) with 12%nat.
  cbn [days_before_month_from]. unfold days_in_month.
  change (Z.of_nat 1) with 1. change (Z.of_nat 2) with 2.
  change (Z.of_nat 3) with 3. change (Z.of_nat 4) with 4.
  change (Z.of_nat 5) with 5. change (Z.of_nat 6) with 6.
  change (Z.of_nat 7) with 7. change (Z.of_nat 8) with 8.
  change (Z.of_nat 9) with 9. change (Z.of_nat 10) with 10.
  change (Z.of_nat 11) with 11. change (Z.of_nat 12) with 12.
  cbn [Z.eqb Pos.eqb orb].
  destruct (is_leap y); reflexivity.
Qed.

Lemma valid_datetime_ranges (d : datetime) :
  valid_datetime d = true ->
  1 <= year d <= 9999 /\ 1 <= month d <= 12
  /\ 1 <= day d <= days_in_month (year d) (month d)
  /\ 0 <= hour d <= 23 /\ 0 <= minute d <= 59 /\ 0 <= second d <= 59
  /\ 0 <= microsecond d <= 999999.
Proof.
  unfold valid_datetime. rewrite !andb_true_iff, !Z.leb_le. tauto.
Qed.

Lemma dbm_nonneg (y m : Z) : 1 <= m -> 0 <= days_before_month y m.
Proof.
  intros Hm. destruct (Z.eq_dec m 1) as [->|Hne]; [done|].
  pose proof (dbm_mono y 1 m ltac:(lia) ltac:(lia)) as H.
  pose proof (dim_bounds y 1). change (days_before_month y 1) with 0 in H.
  lia.
Qed.

(** An earlier date has the smaller ordinal. *)
Lemma ymd2ord_lt (y1 m1 d1 y2 m2 d2 : Z) :
  1 <= m1 <= 12 -> 1 <= d1 <= days_in_month y1 m1 ->
  1 <= m2 <= 12 -> 1 <= d2 <= days_in_month y2 m2 ->
  y1 < y2 \/ (y1 = y2 /\ (m1 < m2 \/ (m1 = m2 /\ d1 < d2))) ->
  ymd2ord y1 m1 d1 < ymd2ord y2 m2 d2.
Proof.
  intros Hm1 Hd1 Hm2 Hd2 Hlt. unfold ymd2ord.
  destruct Hlt as [Hy | [-> [Hm | [-> Hd]]]].
  - pose proof (dbm_mono y1 m1 13 ltac:(lia) ltac:(lia)) as H1.
    rewrite dbm_year in H1. pose proof (dby_step y1) as H2.
    pose proof (dby_mono (y1 + 1) y2 ltac:(lia)) as H3.
    pose proof (dbm_nonneg y2 m2 ltac:(lia)). lia.
  - pose proof (dbm_mono y2 m1 m2 ltac:(lia) Hm). lia.
  - lia.
Qed.

Lemma isoformat_leb (d1 d2 : datetime) :
  valid_datetime d1 = true -> valid_datetime d2 = true ->
  str_leb (isoformat d1) (isoformat d2)
  = (year d1 <? year d2) || ((year d1 =? year d2) &&
    ((month d1 <? month d2) || ((month d1 =? month d2) &&
    ((day d1 <? day d2) || ((day d1 =? day d2) &&
    ((hour d1 <? hour d2) || ((hour d1 =? hour d2) &&
    ((minute d1 <? minute d2) || ((minute d1 =? minute d2) &&
    ((second d1 <? second d2) || ((second d1 =? second d2) &&
    (microsecond d1 <=? microsecond d2)))))))))))).
Proof.
  intros H1 H2.
  apply valid_datetime_ranges in H1 as (Hy1 & Hm1 & Hd1 & Hh1 & Hi1 & Hs1 & Hu1).
  apply valid_datetime_ranges in H2 as (Hy2 & Hm2 & Hd2 & Hh2 & Hi2 & Hs2 & Hu2).
  pose proof (dim_bounds (year d1) (month d1)).
  pose proof (dim_bounds (year d2) (month d2)).
  unfold isoformat.
  rewrite str_leb_field by (change (10 ^ Z.of_nat 4) with 10000; lia).
  rewrite str_leb_sep.
  rewrite str_leb_field by (change (10 ^ Z.of_nat 2) with 100; lia).
  rewrite str_leb_sep.
  rewrite str_leb_field by (change (10 ^ Z.of_nat 2) with 100; lia).
  rewrite str_leb_sep.
  rewrite str_leb_field by (change (10 ^ Z.of_nat 2) with 100; lia).
  rewrite str_leb_sep.
  rewrite str_leb_field by (change (10 ^ Z.of_nat 2) with 100; lia).
  rewrite str_leb_sep.
  rewrite str_leb_field by (change (10 ^ Z.of_nat 2) with 100; lia).
  assert (str_leb
            ((if microsecond d1 =? 0 then []
              else s2u "." ++ digits 6 (microsecond d1)) ++ s2u "+00:00")
            ((if microsecond d2 =? 0 then []
              else s2u "." ++ digits 6 (microsecond d2)) ++ s2u "+00:00")
          = (microsecond d1 <=? microsecond d2)) as ->; [|done].
  destruct (Z.eqb_spec (microsecond d1) 0) as [E1|E1],
    (Z.eqb_spec (microsecond d2) 0) as [E2|E2].
  - rewrite E1, E2. apply str_leb_refl.
  - rewrite E1. cbn [app]. symmetry. apply Z.leb_le. lia.
  - rewrite E2. cbn [app]. symmetry. apply Z.leb_gt. lia.
  - rewrite <- !app_assoc, str_leb_sep.
    rewrite str_leb_field by (change (10 ^ Z.of_nat 6) with 1000000; lia).
    rewrite str_leb_refl, andb_true_r.
    destruct (Z.ltb_spec (microsecond d1) (microsecond d2)),
      (Z.eqb_spec (microsecond d1) (microsecond d2)),
      (Z.leb_spec (microsecond d1) (microsecond d2)); simpl; lia.
Qed.

(** X11. For times that the [datetime] constructor accepts, the order
    of the ISO strings is the order of time: one string is at most
    another exactly when its time is not later, and two times with the
    same string are the same time. Sorting the articles by their
    [published] strings therefore sorts them by time. *)
Theorem isoformat_order (d1 d2 : datetime) :
  valid_datetime d1 = true -> valid_datetime d2 = true ->
  (str_le (isoformat d1) (isoformat d2) <-> to_micros d1 <= to_micros d2)
  /\ (isoformat d1 = isoformat d2 -> d1 = d2)
  /\ (forall a b,
        published a = Some (isoformat d1) ->
        published b = Some (isoformat d2) ->
        not_older a b <-> to_micros d2 <= to_micros d1).
Proof.
  intros H1 H2.
  assert (forall e1 e2, valid_datetime e1 = true -> valid_datetime e2 = true ->
            (str_le (isoformat e1) (isoformat e2)
             <-> to_micros e1 <= to_micros e2)) as Hord.
  { clear. intros d1 d2 H1 H2. unfold str_le.
    rewrite (isoformat_leb d1 d2 H1 H2).
    apply valid_datetime_ranges in H1 as (Hy1 & Hm1 & Hd1 & Hh1 & Hi1 & Hs1 & Hu1).
    apply valid_datetime_ranges in H2 as (Hy2 & Hm2 & Hd2 & Hh2 & Hi2 & Hs2 & Hu2).
    unfold to_micros.
    pose proof (ymd2ord_lt (year d1) (month d1) (day d1)
                  (year d2) (month d2) (day d2) Hm1 Hd1 Hm2 Hd2) as Hlt.
    pose proof (ymd2ord_lt (year d2) (month d2) (day d2)
                  (year d1) (month d1) (day d1) Hm2 Hd2 Hm1 Hd1) as Hgt.
    repeat first [rewrite orb_true_iff | rewrite andb_true_iff].
    rewrite !Z.ltb_lt, !Z.eqb_eq, !Z.leb_le.
    split.
    - intros [Hy | [Hy [Hm | [Hm [Hd | [Hd Hrest]]]]]].
      + specialize (Hlt ltac:(lia)). lia.
      + specialize (Hlt ltac:(lia)). lia.
      + specialize (Hlt ltac:(lia)). lia.
      + rewrite Hy, Hm, Hd. lia.
    - intros Hle.
      destruct (Z.lt_trichotomy (year d1) (year d2)) as [?|[Hy|?]];
        [by left | | specialize (Hgt ltac:(lia)); lia].
      right. split; [done|].
      destruct (Z.lt_trichotomy (month d1) (month d2)) as [?|[Hm|?]];
        [by left | | specialize (Hgt ltac:(lia)); lia].
      right. split; [done|].
      destruct (Z.lt_trichotomy (day d1) (day d2)) as [?|[Hd|?]];
        [by left | | specialize (Hgt ltac:(lia)); lia].
      right. split; [done|]. rewrite Hy, Hm, Hd in Hle. lia. }
  split; [by apply Hord|]. split.
  - intros Heq.
    assert (to_micros d1 = to_micros d2) as Hm.
    { apply Z.le_antisymm; apply Hord; try done;
        unfold str_le; rewrite Heq; apply str_leb_refl. }
    pose proof (f_equal length Heq) as Hlen. rewrite !isoformat_length in Hlen.
    assert (str_leb (isoformat d1) (isoformat d2) = true) as L12
      by (rewrite Heq; apply str_leb_refl).
    assert (str_leb (isoformat d2) (isoformat d1) = true) as L21
      by (rewrite Heq; apply str_leb_refl).
    rewrite isoformat_leb in L12, L21 by done.
    repeat first [rewrite orb_true_iff in L12 | rewrite andb_true_iff in L12].
    repeat first [rewrite orb_true_iff in L21 | rewrite andb_true_iff in L21].
    rewrite !Z.ltb_lt, !Z.eqb_eq, !Z.leb_le in L12, L21.
    destruct d1, d2. simpl in *. f_equal; lia.
  - intros a b Ha Hb. unfold not_older, sort_key. rewrite Ha, Hb. simpl.
    by apply Hord.
Qed.

Lemma isoformat_order_sample :
  str_le (isoformat (at_time 11 50)) (isoformat sample_now)
  /\ ~ str_le (isoformat sample_now) (isoformat (at_time 11 50)).
Proof.
  destruct (isoformat_order (at_time 11 50) sample_now) as [H1 _];
    [done | done |].
  destruct (isoformat_order sample_now (at_time 11 50)) as [H2 _];
    [done | done |].
  split.
  - apply H1. by vm_compute.
  - intros H. apply H2 in H. by vm_compute in H.
Defined.

(** * The other handlers *)

(** ** Sorting *)

Section sort_by.
Context {A : Type} (before : A -> A -> bool).
Hypothesis before_total : forall x y, before x y = false -> before y x = true.
Hypothesis before_trans :
  forall x y z, before x y = true -> before y z = true -> before x z = true.

Lemma insert_by_perm (x : A) (l : list A) : insert_by before x l ≡ₚ x :: l.
Proof.
  induction l as [|y l IH]; simpl; [done|].
  destruct (before x y); [done|]. rewrite IH. apply perm_swap.
Qed.

Lemma sort_by_perm (l : list A) : sort_by before l ≡ₚ l.
Proof.
  induction l as [|x l IH]; simpl; [done|].
  fold (sort_by before l). by rewrite insert_by_perm, IH.
Qed.

Lemma insert_by_sorted (x : A) (l : list A) :
  StronglySorted (fun a b => before a b = true) l ->
  StronglySorted (fun a b => before a b = true) (insert_by before x l).
Proof.
  induction 1 as [|y l Hl IH Hy]; simpl.
  - by repeat constructor.
  - destruct (before x y) eqn:Hxy.
    + constructor; [by constructor|]. constructor; [done|].
      eapply Forall_impl; [exact Hy|]. intros z Hz. by eapply before_trans.
    + constructor; [done|]. rewrite insert_by_perm.
      constructor; [|done]. by apply before_total.
Qed.

Lemma sort_by_sorted (l : list A) :
  StronglySorted (fun a b => before a b = true) (sort_by before l).
Proof.
  induction l as [|x l IH]; simpl; [constructor|].
  by apply insert_by_sorted.
Qed.

Lemma sort_by_sorted_id (l : list A) :
  StronglySorted (fun a b => before a b = true) l -> sort_by before l = l.
Proof.
  induction 1 as [|x l Hl IH Hx]; [done|].
  unfold sort_by in *. simpl. rewrite IH.
  destruct l as [|y l]; [done|]. simpl.
  apply Forall_cons in Hx as [Hy _]. by rewrite Hy.
Qed.
End sort_by.

Lemma StronglySorted_weaken {A} (R1 R2 : A -> A -> Prop) (l : list A) :
  (forall x y, R1 x y -> R2 x y) ->
  StronglySorted R1 l -> StronglySorted R2 l.
Proof.
  intros HR. induction 1 as [|x l Hl IH Hx]; constructor; [done|].
  eapply Forall_impl; [exact Hx|]. intros y. apply HR.
Qed.

Lemma Qle_bool_total (x y : Q) : Qle_bool x y = false -> Qle_bool y x = true.
Proof.
  intros H. apply Qle_bool_iff. apply Qlt_le_weak, Qnot_le_lt.
  intros Hle. apply Qle_bool_iff in Hle. congruence.
Qed.

Lemma Qle_bool_trans (x y z : Q) :
  Qle_bool x y = true -> Qle_bool y z = true -> Qle_bool x z = true.
Proof. rewrite !Qle_bool_iff. apply Qle_trans. Qed.

(** ** Vehicles *)

Lemma filter_vehicles_elem (rt : PyRuntime) (q : vehicle_query)
    (data : list vehicle) (v : vehicle) :
  v ∈ filter_vehicles rt q data
  <-> v ∈ data
      /\ (forall b, truthy (vq_brand q) = Some b ->
            lower rt (v_brand v) = lower rt b)
      /\ (forall c, truthy (vq_category q) = Some c ->
            lower rt (v_category v) = lower rt c)
      /\ (forall p, truthy_int (vq_min_price q) = Some p ->
            (p <= v_price_chf v)%Z)
      /\ (forall p, truthy_int (vq_max_price q) = Some p ->
            (v_price_chf v <= p)%Z)
      /\ (forall r, truthy_int (vq_min_range q) = Some r ->
            (r <= v_range_wltp_km v)%Z).
Proof.
  unfold filter_vehicles. cbv zeta.
  destruct (truthy (vq_brand q)) as [b|], (truthy (vq_category q)) as [c|],
    (truthy_int (vq_min_price q)) as [p1|],
    (truthy_int (vq_max_price q)) as [p2|],
    (truthy_int (vq_min_range q)) as [r|];
    rewrite ?list_elem_of_filter; split;
    try (intros (?&?&?&?&?&?); repeat split; eauto; fail);
    intros H; repeat split; try (intros ? [= <-]); try done; tauto.
Qed.

(** X12. [get_vehicles] returns exactly the vehicles of the table that
    pass every filter that is set: brand and category are compared
    without regard to case, the prices and the range with the bounds
    given. A filter that is missing, empty or 0 does not filter: a
    maximal price of 0 returns every vehicle, not none. No vehicle is
    returned twice that is not twice in the table. *)
Theorem get_vehicles_filter (rt : PyRuntime) (data : list vehicle)
    (q : vehicle_query) :
  get_vehicles rt data q ≡ₚ filter_vehicles rt q data
  /\ filter_vehicles rt q data `sublist_of` data
  /\ (forall v,
        v ∈ get_vehicles rt data q
        <-> v ∈ data
            /\ (forall b, vq_brand q = Some b -> b <> [] ->
                  lower rt (v_brand v) = lower rt b)
            /\ (forall c, vq_category q = Some c -> c <> [] ->
                  lower rt (v_category v) = lower rt c)
            /\ (forall p, vq_min_price q = Some p -> p <> 0%Z ->
                  (p <= v_price_chf v)%Z)
            /\ (forall p, vq_max_price q = Some p -> p <> 0%Z ->
                  (v_price_chf v <= p)%Z)
            /\ (forall r, vq_min_range q = Some r -> r <> 0%Z ->
                  (r <= v_range_wltp_km v)%Z)).
Proof.
  assert (get_vehicles rt data q ≡ₚ filter_vehicles rt q data) as Hperm.
  { unfold get_vehicles. destruct (vq_sort_by q) as [name|]; [|done].
    destruct (vehicle_key name) as [key|]; [|done].
    destruct (bool_decide _); apply sort_by_perm. }
  split; [done|]. split.
  { unfold filter_vehicles. cbv zeta.
    destruct (truthy (vq_brand q)), (truthy (vq_category q)),
      (truthy_int (vq_min_price q)), (truthy_int (vq_max_price q)),
      (truthy_int (vq_min_range q));
      repeat (etrans; [apply sublist_filter|]); done. }
  intros v. rewrite Hperm, filter_vehicles_elem.
  assert (forall (p : option str) (P : str -> Prop),
            (forall b, truthy p = Some b -> P b)
            <-> (forall b, p = Some b -> b <> [] -> P b)) as Hs.
  { intros [[|c s]|] P; simpl; (split; intros H b Hb); try done.
    - by injection Hb as <-.
    - intros _. by apply H.
    - apply H; [done|]. by injection Hb as <-. }
  assert (forall (p : option Z) (P : Z -> Prop),
            (forall b, truthy_int p = Some b -> P b)
            <-> (forall b, p = Some b -> b <> 0%Z -> P b)) as Hi.
  { intros [[|n|n]|] P; simpl; (split; intros H b Hb); try done.
    - by injection Hb as <-.
    - intros _. by apply H.
    - apply H; [done|]. by injection Hb as <-.
    - intros _. by apply H.
    - apply H; [done|]. by injection Hb as <-. }
  by rewrite !Hs, !Hi.
Qed.

(** X13. When [sort_by] is one of [price_chf], [range_wltp_km],
    [battery_kwh] and [acceleration_0_100], the vehicles come in
    ascending order of that value, and in descending order when
    [sort_order] is [desc]; any other [sort_order] means ascending.
    With any other [sort_by], or none, they come in the order of the
    table. *)
Theorem get_vehicles_sorted (rt : PyRuntime) (data : list vehicle)
    (q : vehicle_query) :
  match vq_sort_by q ≫= vehicle_key with
  | Some key =>
      if decide (vq_sort_order q = Some (s2u "desc"))
      then StronglySorted (fun x y => (key y <= key x)%Q)
             (get_vehicles rt data q)
      else StronglySorted (fun x y => (key x <= key y)%Q)
             (get_vehicles rt data q)
  | None => get_vehicles rt data q = filter_vehicles rt q data
  end.
Proof.
  unfold get_vehicles. destruct (vq_sort_by q) as [name|]; simpl; [|done].
  destruct (vehicle_key name) as [key|]; [|done].
  destruct (decide (vq_sort_order q = Some (s2u "desc"))) as [Hd|Hd].
  - rewrite (bool_decide_eq_true_2 _ Hd).
    apply (StronglySorted_weaken
             (fun x y => Qle_bool (key y) (key x) = true)).
    { intros x y H. by apply Qle_bool_iff. }
    apply sort_by_sorted.
    + intros x y. apply Qle_bool_total.
    + intros x y z H1 H2. by eapply Qle_bool_trans.
  - rewrite (bool_decide_eq_false_2 _ Hd).
    apply (StronglySorted_weaken
             (fun x y => Qle_bool (key x) (key y) = true)).
    { intros x y H. by apply Qle_bool_iff. }
    apply sort_by_sorted.
    + intros x y. apply Qle_bool_total.
    + intros x y z. apply Qle_bool_trans.
Qed.

(** ** Look-ups *)

Lemma get_vehicle_spec (data : list vehicle) (vehicle_id : str) :
  match get_vehicle data vehicle_id with
  | inr v => v ∈ data /\ v_id v = vehicle_id
  | inl e => e = HTTPException 404 (s2u "Vehicle not found")
             /\ vehicle_id ∉ v_id <$> data
  end.
Proof.
  induction data as [|x data IH]; simpl.
  - split; [done | apply not_elem_of_nil].
  - destruct (decide (v_id x = vehicle_id)) as [Hx|Hx].
    + split; [left | done].
    + destruct (get_vehicle data vehicle_id) as [e|v].
      * destruct IH as [-> Hno]. split; [done|].
        apply not_elem_of_cons. by split.
      * destruct IH. split; [by right | done].
Qed.

Lemma get_vehicle_found (data : list vehicle) (v : vehicle) :
  NoDup (v_id <$> data) -> v ∈ data -> get_vehicle data (v_id v) = inr v.
Proof.
  induction data as [|x data IH]; intros Hnd Hv; simpl.
  - by apply elem_of_nil in Hv.
  - rewrite fmap_cons in Hnd. apply NoDup_cons in Hnd as [Hx Hnd].
    apply elem_of_cons in Hv as [-> | Hv].
    + by rewrite decide_True.
    + rewrite decide_False; [by apply IH|].
      intros Heq. apply Hx. rewrite Heq. by apply list_elem_of_fmap_2.
Qed.

Lemma get_knowledge_article_spec (data : list knowledge_article) (slug : str) :
  match get_knowledge_article data slug with
  | inr a => a ∈ data /\ ka_slug a = slug
  | inl e => e = HTTPException 404 (s2u "Article not found")
             /\ slug ∉ ka_slug <$> data
  end.
Proof.
  induction data as [|x data IH]; simpl.
  - split; [done | apply not_elem_of_nil].
  - destruct (decide (ka_slug x = slug)) as [Hx|Hx].
    + split; [left | done].
    + destruct (get_knowledge_article data slug) as [e|v].
      * destruct IH as [-> Hno]. split; [done|].
        apply not_elem_of_cons. by split.
      * destruct IH. split; [by right | done].
Qed.

Lemma get_knowledge_article_found (data : list knowledge_article)
    (a : knowledge_article) :
  NoDup (ka_slug <$> data) -> a ∈ data ->
  get_knowledge_article data (ka_slug a) = inr a.
Proof.
  induction data as [|x data IH]; intros Hnd Ha; simpl.
  - by apply elem_of_nil in Ha.
  - rewrite fmap_cons in Hnd. apply NoDup_cons in Hnd as [Hx Hnd].
    apply elem_of_cons in Ha as [-> | Ha].
    + by rewrite decide_True.
    + rewrite decide_False; [by apply IH|].
      intros Heq. apply Hx. rewrite Heq. by apply list_elem_of_fmap_2.
Qed.

(** X14. [get_vehicle] answers 404 exactly when no vehicle of the table
    has the identifier asked for; otherwise it returns a vehicle of the
    table with that identifier. When the identifiers of the table are
    distinct, asking for the identifier of a vehicle of the table
    returns that vehicle. [get_knowledge_article] does the same with
    the slugs of the articles. *)
Theorem lookups_by_key (vehicles : list vehicle)
    (articles : list knowledge_article) :
  (forall vehicle_id,
     match get_vehicle vehicles vehicle_id with
     | inr v => v ∈ vehicles /\ v_id v = vehicle_id
     | inl e => e = HTTPException 404 (s2u "Vehicle not found")
                /\ vehicle_id ∉ v_id <$> vehicles
     end)
  /\ (NoDup (v_id <$> vehicles) ->
      forall v, v ∈ vehicles -> get_vehicle vehicles (v_id v) = inr v)
  /\ (forall slug,
        match get_knowledge_article articles slug with
        | inr a => a ∈ articles /\ ka_slug a = slug
        | inl e => e = HTTPException 404 (s2u "Article not found")
                   /\ slug ∉ ka_slug <$> articles
        end)
  /\ (NoDup (ka_slug <$> articles) ->
      forall a, a ∈ articles ->
        get_knowledge_article articles (ka_slug a) = inr a).
Proof.
  split; [apply get_vehicle_spec|].
  split; [intros Hnd v; by apply get_vehicle_found|].
  split; [apply get_knowledge_article_spec|].
  intros Hnd a. by apply get_knowledge_article_found.
Qed.

(** ** Lists of brands and categories *)

Lemma sorted_set_spec (xs : list str) :
  StronglySorted (fun x y => str_le x y /\ x <> y) (sorted_set xs)
  /\ (forall x, x ∈ sorted_set xs <-> x ∈ xs).
Proof.
  unfold sorted_set.
  set (l := elements (list_to_set xs : gset str)).
  assert (NoDup (sort_by str_leb l)) as Hnd.
  { rewrite sort_by_perm. apply NoDup_elements. }
  assert (StronglySorted (fun a b => str_leb a b = true) (sort_by str_leb l))
    as Hs.
  { apply sort_by_sorted; [apply str_leb_total | apply str_leb_trans]. }
  split.
  - revert Hnd. induction Hs as [|x k Hk IH Hx]; intros Hnd; constructor.
    + apply IH. by apply NoDup_cons in Hnd as [_ ?].
    + apply NoDup_cons in Hnd as [Hx' _].
      apply Forall_forall. intros y Hy. split.
      * by eapply Forall_forall in Hx.
      * by intros ->.
  - intros x. rewrite sort_by_perm. unfold l.
    by rewrite elem_of_elements, elem_of_list_to_set.
Qed.

(** X15. [get_brands] lists every brand of the table once, in strictly
    ascending order of the strings, and nothing else; [get_categories]
    does the same for the categories of the vehicles. *)
Theorem brands_and_categories (data : list vehicle) :
  StronglySorted (fun x y => str_le x y /\ x <> y) (get_brands data)
  /\ (forall b, b ∈ get_brands data <-> exists v, v ∈ data /\ v_brand v = b)
  /\ StronglySorted (fun x y => str_le x y /\ x <> y) (get_categories data)
  /\ (forall c, c ∈ get_categories data
                <-> exists v, v ∈ data /\ v_category v = c).
Proof.
  unfold get_brands, get_categories.
  destruct (sorted_set_spec (v_brand <$> data)) as [Hb1 Hb2].
  destruct (sorted_set_spec (v_category <$> data)) as [Hc1 Hc2].
  split; [done|]. split; [|split; [done|]].
  - intros b. rewrite Hb2, list_elem_of_fmap. split.
    + intros (v & -> & Hv). by exists v.
    + intros (v & Hv & <-). by exists v.
  - intros c. rewrite Hc2, list_elem_of_fmap. split.
    + intros (v & -> & Hv). by exists v.
    + intros (v & Hv & <-). by exists v.
Qed.

(** ** Knowledge articles and glossary *)

Lemma Zleb_total (x y : Z) : (x <=? y)%Z = false -> (y <=? x)%Z = true.
Proof. rewrite Z.leb_gt, Z.leb_le. lia. Qed.

Lemma Zleb_trans (x y z : Z) :
  (x <=? y)%Z = true -> (y <=? z)%Z = true -> (x <=? z)%Z = true.
Proof. rewrite !Z.leb_le. lia. Qed.

(** X16. [get_knowledge_articles] returns the articles of the category
    asked for, each as often as it is in the table, in ascending order
    of [order]; without a category, or with the empty one, it returns
    all articles, and for a category that no article has it returns the
    empty list. [get_glossary] returns the terms of the category in
    ascending order of the term, and their number as [total]. *)
Theorem knowledge_listings (articles : list knowledge_article)
    (terms : list glossary_term) (category : option str) :
  let selected :=
    match category with
    | Some (c :: s) => filter (fun a => ka_category a = c :: s) articles
    | _ => articles
    end in
  let selected_terms :=
    match category with
    | Some (c :: s) => filter (fun g => g_category g = c :: s) terms
    | _ => terms
    end in
  get_knowledge_articles articles category ≡ₚ selected
  /\ StronglySorted (fun x y => (ka_order x <= ka_order y)%Z)
       (get_knowledge_articles articles category)
  /\ (forall c, category = Some c -> c <> [] ->
        c ∉ ka_category <$> articles ->
        get_knowledge_articles articles category = [])
  /\ (get_glossary terms category).1 ≡ₚ selected_terms
  /\ StronglySorted (fun x y => str_le (g_term x) (g_term y))
       (get_glossary terms category).1
  /\ (get_glossary terms category).2
     = length (get_glossary terms category).1
  /\ (get_glossary terms category).2 = length selected_terms.
Proof.
  intros selected selected_terms.
  assert (get_knowledge_articles articles category
          = sort_by (fun x y => (ka_order x <=? ka_order y)%Z) selected) as Hk.
  { unfold get_knowledge_articles, selected. by destruct category as [[|c s]|]. }
  assert ((get_glossary terms category).1
          = sort_by (fun x y => str_leb (g_term x) (g_term y)) selected_terms)
    as Hg.
  { unfold get_glossary, selected_terms. by destruct category as [[|c s]|]. }
  split; [rewrite Hk; apply sort_by_perm|]. split.
  { rewrite Hk.
    apply (StronglySorted_weaken
             (fun x y => (ka_order x <=? ka_order y)%Z = true)).
    { intros x y H. by apply Z.leb_le. }
    apply sort_by_sorted.
    - intros x y. apply Zleb_total.
    - intros x y z. apply Zleb_trans. }
  split.
  { intros c -> Hne Hno. rewrite Hk. unfold selected.
    destruct c as [|c s]; [done|].
    assert (filter (fun a => ka_category a = c :: s) articles = []) as ->; [|done].
    apply elem_of_nil_inv. intros a Ha.
    apply list_elem_of_filter in Ha as [Hc Ha].
    apply Hno. rewrite <- Hc. by apply list_elem_of_fmap_2. }
  split; [rewrite Hg; apply sort_by_perm|]. split.
  { rewrite Hg. apply sort_by_sorted.
    - intros x y. apply str_leb_total.
    - intros x y z. apply str_leb_trans. }
  split; [done|].
  change ((get_glossary terms category).2)
    with (length (get_glossary terms category).1).
  rewrite Hg. apply Permutation_length, sort_by_perm.
Qed.

(** ** The listing of the sources *)

Lemma replace_from_length (old : str) (k : nat) (s : str) :
  (length (replace_from old [] k s) <= length s)%nat.
Proof.
  revert k. induction s as [|c s IH]; intros k; simpl; [done|].
  destruct k as [|k].
  - destruct (starts_with old (c :: s)).
    + specialize (IH (length old - 1)%nat). simpl. lia.
    + specialize (IH 0%nat). simpl. lia.
  - specialize (IH k). lia.
Qed.

Lemma replace_absent (old new s : str) :
  ~ is_substring old s -> replace old new s = s.
Proof.
  unfold replace. induction s as [|c s IH]; intros Hno; simpl; [done|].
  destruct (starts_with old (c :: s)) eqn:Hst.
  - destruct Hno. apply starts_with_spec in Hst as [post ->].
    by exists [], post.
  - f_equal. apply IH. intros (pre & post & ->).
    apply Hno. by exists (c :: pre), post.
Qed.

Lemma is_substring_app_l (a b s : str) :
  is_substring (a ++ b) s -> is_substring a s.
Proof.
  intros (pre & post & ->). exists pre, (b ++ post). by rewrite <- !app_assoc.
Qed.

Lemma display_url_spec (u : str) :
  (length (display_url u) <= length u)%nat
  /\ (~ is_substring (s2u "/feed") u -> ~ is_substring (s2u "/rss") u ->
      display_url u = u).
Proof.
  unfold display_url, replace. split.
  - etrans; [apply replace_from_length|].
    etrans; [apply replace_from_length|]. apply replace_from_length.
  - intros Hfeed Hrss. fold (replace (s2u "/feed/") [] u).
    rewrite (replace_absent (s2u "/feed/")).
    + fold (replace (s2u "/feed") [] u). rewrite (replace_absent (s2u "/feed")) by done.
      by apply replace_absent.
    + intros H. apply Hfeed.
      by apply (is_substring_app_l (s2u "/feed") (s2u "/")).
Qed.

Lemma get_news_sources_count (rt : PyRuntime)
    (registry : list (str * list feed_config)) (q : news_query)
    (w w' : World) (resp : news_response) :
  get_news rt registry q w = (inr resp, w') ->
  r_sources_count resp = length (all_feeds registry).
Proof.
  destruct (get_or_refresh_total rt registry (q_refresh q) w) as (w1 & Hg & _).
  unfold get_news, mbind, M_bind. rewrite Hg.
  unfold cache_age, mbind, M_bind, get_cache, now.
  destruct (last_updated (news_cache w1)); by intros [= <- _].
Qed.

Lemma grouped_feeds_all (registry : list (str * list feed_config)) :
  (grouped_feeds registry).*2 = all_feeds registry.
Proof.
  unfold grouped_feeds, all_feeds.
  induction registry as [|[g feeds] registry IH]; simpl; [done|].
  rewrite fmap_app, IH. f_equal.
  clear. induction feeds as [|f feeds IH]; simpl; [done | by f_equal].
Qed.

Lemma grouped_feeds_elem (registry : list (str * list feed_config))
    (g : str) (f : feed_config) :
  (g, f) ∈ grouped_feeds registry
  <-> exists feeds, (g, feeds) ∈ registry /\ f ∈ feeds.
Proof.
  unfold grouped_feeds.
  induction registry as [|[g0 feeds0] registry IH]; simpl.
  - split; [intros H; by apply elem_of_nil in H|].
    intros (feeds & H & _). by apply elem_of_nil in H.
  - rewrite elem_of_app, IH. split.
    + intros [H | (feeds & Hin & Hf)].
      * apply list_elem_of_fmap in H as (f' & [= -> ->] & Hf).
        exists feeds0. split; [left | done].
      * exists feeds. split; [by right | done].
    + intros (feeds & Hin & Hf). apply elem_of_cons in Hin as [[= -> ->] | Hin].
      * left. apply list_elem_of_fmap. by exists f.
      * right. by exists feeds.
Qed.

Lemma sources_of_grouped (registry : list (str * list feed_config)) :
  Forall2 (fun s gf =>
             src_region_group s = gf.1
             /\ src_name s = feed_name gf.2
             /\ src_language s = feed_lang gf.2
             /\ src_region s = feed_region gf.2
             /\ src_url s = display_url (feed_url gf.2))
          (concat (map sources_of registry)) (grouped_feeds registry).
Proof.
  unfold grouped_feeds. induction registry as [|[g feeds] registry IH]; simpl.
  - constructor.
  - apply Forall2_app; [|done]. unfold sources_of. simpl.
    clear. induction feeds as [|f feeds IH]; simpl; constructor; done.
Qed.

(** X17. [get_news_sources] lists one source per feed of the registry,
    in the order of the registry, with the name, language and region of
    the feed and the key of the group the feed is listed in; [total] is
    their number and equals the [sources_count] that [get_news]
    reports. The groups listed are the keys of the registry and the
    languages those of the feeds. The address shown is never longer
    than the address of the feed, and is that address when neither
    [/feed] nor [/rss] occurs in it. *)
Theorem news_sources_listing (registry : list (str * list feed_config)) :
  let r := get_news_sources registry in
  s_total r = length (s_sources r)
  /\ s_total r = length (all_feeds registry)
  /\ (forall rt q w resp w',
        get_news rt registry q w = (inr resp, w') ->
        r_sources_count resp = s_total r)
  /\ (grouped_feeds registry).*2 = all_feeds registry
  /\ (forall g f,
        (g, f) ∈ grouped_feeds registry
        <-> exists feeds, (g, feeds) ∈ registry /\ f ∈ feeds)
  /\ Forall2 (fun s gf =>
                src_region_group s = gf.1
                /\ src_name s = feed_name gf.2
                /\ src_language s = feed_lang gf.2
                /\ src_region s = feed_region gf.2
                /\ (length (src_url s) <= length (feed_url gf.2))%nat
                /\ (~ is_substring (s2u "/feed") (feed_url gf.2) ->
                    ~ is_substring (s2u "/rss") (feed_url gf.2) ->
                    src_url s = feed_url gf.2))
       (s_sources r) (grouped_feeds registry)
  /\ s_regions r = registry.*1
  /\ (forall l, l ∈ s_languages r
                <-> exists f, f ∈ all_feeds registry /\ feed_lang f = l).
Proof.
  intros r. pose proof (sources_of_grouped registry) as Hall.
  assert (s_total r = length (all_feeds registry)) as Htot.
  { apply Forall2_length in Hall.
    rewrite <- (grouped_feeds_all registry), length_fmap. exact Hall. }
  split; [done|]. split; [done|]. split.
  { intros rt q w resp w' Hg. rewrite Htot. by eapply get_news_sources_count. }
  split; [apply grouped_feeds_all|]. split; [apply grouped_feeds_elem|].
  split.
  { eapply Forall2_impl; [exact Hall|].
    intros s gf (Hg & Hn & Hl & Hr & Hu).
    destruct (display_url_spec (feed_url gf.2)) as [Hlen Hsame].
    rewrite Hu. by repeat split. }
  split; [done|].
  intros l. unfold r, get_news_sources. simpl.
  rewrite elem_of_list_to_set, list_elem_of_fmap. split.
  - intros (f & -> & Hf). by exists f.
  - intros (f & Hf & <-). by exists f.
Qed.

(** ** The listing of the categories *)

(** X18. The identifiers that [get_news_categories] lists are the
    categories of the taxonomy, in its order, followed by [general],
    none of them twice. They are exactly the labels an article can
    carry: every label that [categorize_article] returns is listed, and
    for every identifier listed there is a title that gets it. *)
Theorem news_categories_listing (rt : PyRuntime) :
  cat_id <$> get_news_categories = NEWS_CATEGORIES.*1 ++ [GENERAL]
  /\ NoDup (cat_id <$> get_news_categories)
  /\ (forall title summary label,
        label ∈ categorize_article rt title summary ->
        exists c, c ∈ get_news_categories /\ cat_id c = label)
  /\ (forall c, c ∈ get_news_categories ->
        exists title, cat_id c ∈ categorize_article rt title []).
Proof.
  assert (cat_id <$> get_news_categories = NEWS_CATEGORIES.*1 ++ [GENERAL])
    as Hids by reflexivity.
  split; [done|]. split.
  { apply (bool_decide_unpack _). by vm_compute. }
  split.
  - intros title summary label Hl.
    apply categorize_article_labels in Hl.
    assert (label ∈ cat_id <$> get_news_categories) as Hin.
    { rewrite Hids. apply elem_of_app.
      apply elem_of_cons in Hl as [-> | Hl]; [right; left | by left]. }
    apply list_elem_of_fmap in Hin as (c & -> & Hc). by exists c.
  - intros c Hc. unfold get_news_categories in Hc.
    repeat (apply elem_of_cons in Hc as [-> | Hc]);
      [exists (s2u "fahrzeug") | exists (s2u "batterie")
       | exists (s2u "wallbox") | exists (s2u "subsidy")
       | exists (s2u "markt") | exists (s2u "software")
       | exists (s2u "netzwerk") | exists [] | by apply elem_of_nil in Hc];
      apply (bool_decide_unpack _); by vm_compute.
Qed.
